(** * UpDownLoaderBot: the reel-link relay of [main.py]

    A shallow embedding of [main.py]: the reel-URL pattern with the
    backtracking matcher behind [re.findall] and [Pattern.fullmatch], the
    permission gate [check_bot_permissions], the retrying fetcher
    [download_reel], the dispatcher [handle_message] and the cleanup
    [clean_temp_directory], followed by the properties that the
    specification states about them and by further properties of the
    code.

    Text is a list of characters.  The pattern names ASCII characters
    only and its single negated class excludes the space alone, so a
    message is read as the sequence of its UTF-8 bytes: every byte of a
    character outside ASCII falls outside the positive classes and inside
    the negated one, as the character itself does. *)

From Stdlib Require Import Ascii String List ZArith Lia Bool Arith.
Import ListNotations.

Set Implicit Arguments.

Local Open Scope char_scope.
Local Open Scope list_scope.

(* ================================================================= *)
(** ** Text *)

Definition text : Type := list ascii.

(** A string literal of the source, as text. *)
Definition str (s : string) : text := list_ascii_of_string s.

Arguments str s : simpl never.

Definition is_empty (s : text) : bool :=
  match s with [] => true | _ :: _ => false end.

(** The class of every character but the space. *)
Definition not_space (c : ascii) : bool := negb (Ascii.eqb c " ").

(* ================================================================= *)
(** ** The regular expressions of [INSTAGRAM_REEL_PATTERN] *)

Module Re.

(** The constructs the pattern is built from: a run of literal
    characters, a greedy repetition of a one-character class ([[set]+]
    is [Rep 1 set], [[set]*] is [Rep 0 set]), concatenation, the greedy
    optional group [(?:r)?] and the capturing group number 1. *)
Inductive regex : Type :=
| Lit (l : text)
| Rep (min : nat) (p : ascii -> bool)
| Cat (r1 r2 : regex)
| Opt (r : regex)
| Grp (r : regex).

(** A thread of the matcher: what group 1 holds and the unread text. *)
Definition thread : Type := (option text * text)%type.

Fixpoint strip_prefix (l s : text) : option text :=
  match l with
  | [] => Some s
  | c :: l' =>
      match s with
      | [] => None
      | d :: s' => if Ascii.eqb c d then strip_prefix l' s' else None
      end
  end.

(** Every way a greedy class repetition can stop, the longest run first:
    the engine takes as many characters as the class accepts and gives
    them back one at a time when what follows fails. *)
Fixpoint rep (p : ascii -> bool) (s : text) : list text :=
  match s with
  | [] => [[]]
  | c :: s' => if p c then rep p s' ++ [s] else [s]
  end.

Definition consumed (s s' : text) : nat := length s - length s'.

(** All the matches of [r] at the head of [s], in the order in which the
    backtracking engine reaches them. *)
Fixpoint matches (r : regex) (g : option text) (s : text) : list thread :=
  match r with
  | Lit l =>
      match strip_prefix l s with
      | Some s' => [(g, s')]
      | None => []
      end
  | Rep min p =>
      map (fun s' => (g, s'))
          (filter (fun s' => (min <=? consumed s s')%nat) (rep p s))
  | Cat r1 r2 =>
      flat_map (fun th => matches r2 (fst th) (snd th)) (matches r1 g s)
  | Opt r1 => matches r1 g s ++ [(g, s)]
  | Grp r1 =>
      map (fun th => (Some (firstn (consumed s (snd th)) s), snd th))
          (matches r1 g s)
  end.

Definition at_end (th : thread) : bool := is_empty (snd th).

(** [m.group(1)]: the captured text, empty when the group took no part. *)
Definition group1 (th : thread) : text :=
  match fst th with Some t => t | None => [] end.

(** [pattern.match(s)]: the first match at the head of [s]. *)
Definition re_match (r : regex) (s : text) : option thread :=
  hd_error (matches r None s).

(** [pattern.fullmatch(s)]: the first match that ends where [s] ends. *)
Definition fullmatch (r : regex) (s : text) : option thread :=
  find at_end (matches r None s).

(** [pattern.search(s)]: the first match at the leftmost position that
    has one. *)
Fixpoint search (r : regex) (s : text) : option thread :=
  match re_match r s with
  | Some th => Some th
  | None =>
      match s with
      | [] => None
      | _ :: s' => search r s'
      end
  end.

(** [re.findall(pattern, s)] for a pattern with one group: search, keep
    group 1, go on from the end of the match.  [fuel] bounds the number
    of matches. *)
Fixpoint findall_fuel (fuel : nat) (r : regex) (s : text) : list text :=
  match fuel with
  | O => []
  | S fuel' =>
      match search r s with
      | None => []
      | Some th => group1 th :: findall_fuel fuel' r (snd th)
      end
  end.

Definition findall (r : regex) (s : text) : list text :=
  findall_fuel (S (length s)) r s.

(** The language of a regular expression: which texts it matches in
    full, with no reference to the order of the search. *)
Inductive Lang : regex -> text -> Prop :=
| LLit l : Lang (Lit l) l
| LRep min p s :
    Forall (fun c => p c = true) s -> min <= length s -> Lang (Rep min p) s
| LCat r1 r2 s1 s2 :
    Lang r1 s1 -> Lang r2 s2 -> Lang (Cat r1 r2) (s1 ++ s2)
| LOptNone r : Lang (Opt r) []
| LOptSome r s : Lang r s -> Lang (Opt r) s
| LGrp r s : Lang r s -> Lang (Grp r) s.

(** *** Notions for reasoning about the search order *)

(** What is left of [s] after the longest run of the class [p]. *)
Fixpoint drop_run (p : ascii -> bool) (s : text) : text :=
  match s with
  | [] => []
  | c :: s' => if p c then drop_run p s' else s
  end.

(** [s] starts with a character of the class [p]. *)
Definition starts_in (p : ascii -> bool) (s : text) : Prop :=
  exists c s', s = c :: s' /\ p c = true.

(** Among the threads [l], one that has read the whole text can only be
    the first. *)
Definition full_first (l : list thread) : Prop :=
  forall th, In th l -> snd th = [] -> hd_error l = Some th.

(** No thread of [l] has read the whole text. *)
Definition never_full (l : list thread) : Prop :=
  forall th, In th l -> snd th <> [].

(** No group inside: the threads keep what group 1 held. *)
Fixpoint groupless (r : regex) : bool :=
  match r with
  | Lit _ | Rep _ _ => true
  | Cat r1 r2 => groupless r1 && groupless r2
  | Opt r1 => groupless r1
  | Grp _ => false
  end.

(** No part of the expression reads a space. *)
Fixpoint spaceless (r : regex) : bool :=
  match r with
  | Lit l => forallb not_space l
  | Rep _ p => negb (p " ")
  | Cat r1 r2 => spaceless r1 && spaceless r2
  | Opt r1 | Grp r1 => spaceless r1
  end.

(** A thread put back in front of a space and the text after it. *)
Definition before (v : text) (th : thread) : thread :=
  (fst th, snd th ++ " " :: v).

End Re.

Import Re.

(* ================================================================= *)
(** ** Constants of [main.py] *)

Definition in_range (lo hi c : ascii) : bool :=
  (N_of_ascii lo <=? N_of_ascii c)%N && (N_of_ascii c <=? N_of_ascii hi)%N.

Definition alnum (c : ascii) : bool :=
  in_range "a" "z" c || in_range "A" "Z" c || in_range "0" "9" c.

(** [[a-zA-Z0-9._-]] *)
Definition seg_char (c : ascii) : bool :=
  alnum c || Ascii.eqb c "." || Ascii.eqb c "_" || Ascii.eqb c "-".

(** [[a-zA-Z0-9_-]] *)
Definition id_char (c : ascii) : bool :=
  alnum c || Ascii.eqb c "_" || Ascii.eqb c "-".

(** The optional query, a slash, a question mark and any run of
    characters other than the space, and the optional closing slash. *)
Definition re_query : regex := Cat (Lit (str "/?")) (Rep 0 not_space).
Definition re_slash : regex := Opt (Lit (str "/")).
Definition re_tail : regex := Cat (Opt re_query) re_slash.

(** [([a-zA-Z0-9_-]+)] and what follows it. *)
Definition re_id : regex := Cat (Grp (Rep 1 id_char)) re_tail.

(** [(?:[a-zA-Z0-9._-]+/)?reel/] and what follows it. *)
Definition re_segment : regex := Cat (Rep 1 seg_char) (Lit (str "/")).
Definition re_reel : regex := Cat (Lit (str "reel/")) re_id.
Definition re_path : regex := Cat (Opt re_segment) re_reel.

(** [(?:www\.)?instagram\.com/] and what follows it. *)
Definition re_domain : regex := Cat (Lit (str "instagram.com/")) re_path.
Definition re_host : regex := Cat (Opt (Lit (str "www."))) re_domain.

(** [https?://] and what follows it. *)
Definition re_colon : regex := Cat (Lit (str "://")) re_host.
Definition re_scheme : regex := Cat (Opt (Lit (str "s"))) re_colon.

(** The compiled pattern: scheme, host, optional path segment, [reel/],
    the captured identifier, optional query and optional slash. *)
Definition INSTAGRAM_REEL_PATTERN : regex := Cat (Lit (str "http")) re_scheme.

Definition MAX_RETRIES : Z := 3.
Definition RETRY_DELAY : Z := 2.

(** [reel_matches] and [is_link_only] of [handle_message]. *)
Definition reel_matches (message_text : text) : list text :=
  findall INSTAGRAM_REEL_PATTERN message_text.

Definition is_link_only (message_text : text) : bool :=
  match fullmatch INSTAGRAM_REEL_PATTERN message_text with
  | Some _ => true
  | None => false
  end.

(** The thread [th] has read, off the head of [s], a link whose
    identifier it holds in group 1: some text that ends in [reel/], the
    identifier, and what the query and the slash may read. *)
Definition holds_identifier (s : text) (th : thread) : Prop :=
  exists pre tok tl,
    s = (pre ++ str "reel/") ++ tok ++ tl ++ snd th
    /\ fst th = Some tok
    /\ tok <> []
    /\ Forall (fun c => id_char c = true) tok
    /\ Lang re_tail tl.

(* ================================================================= *)
(** ** Texts made of words *)

(** A word of a message: a reel link, or anything else. *)
Inductive word : Type :=
| Link (w : text)
| Other (w : text).

Definition word_text (x : word) : text :=
  match x with Link w | Other w => w end.

(** A link is a text the pattern matches in full; any other word is one
    in which [findall] finds nothing. *)
Definition well_formed (x : word) : Prop :=
  match x with
  | Link w => is_link_only w = true
  | Other w => reel_matches w = []
  end.

(** The words written one after the other, a space in between. *)
Fixpoint unwords (ws : list word) : text :=
  match ws with
  | [] => []
  | x :: rest =>
      match rest with
      | [] => word_text x
      | _ :: _ => word_text x ++ " " :: unwords rest
      end
  end.

(** The identifier a link holds: group 1 of its full match. *)
Definition identifier_of (w : text) : text :=
  match fullmatch INSTAGRAM_REEL_PATTERN w with
  | Some th => group1 th
  | None => []
  end.

Fixpoint identifiers (ws : list word) : list text :=
  match ws with
  | [] => []
  | Link w :: rest => identifier_of w :: identifiers rest
  | Other _ :: rest => identifiers rest
  end.

Fixpoint links_in (ws : list word) : nat :=
  match ws with
  | [] => 0
  | Link _ :: rest => S (links_in rest)
  | Other _ :: rest => links_in rest
  end.

(** The trimmed text the specification speaks of: the text without the
    white space at its two ends, as [str.strip] leaves it. *)
Definition is_whitespace (c : ascii) : bool :=
  existsb (Ascii.eqb c) [" "; "009"; "010"; "011"; "012"; "013"].

Definition trimmed (s : text) : text :=
  rev (drop_run is_whitespace (rev (drop_run is_whitespace s))).

(* ================================================================= *)
(** ** Python values and the chat objects the handlers read *)

(** Truth value of an object that is [None], [False] or [True]. *)
Definition truthy (v : option bool) : bool :=
  match v with Some true => true | _ => false end.

(** The exception classes the handlers tell apart, each with the text
    [str] prints of it, which [download_reel] copies into [last_error];
    [ErrorDownload] keeps the two arguments it is raised with.  All of
    them are of class [Exception]: what [except Exception] lets through
    (the cancellation of the task, an interrupt) is outside the model,
    and so is a suspension that does not return. *)
Inductive exn : Type :=
| BadRequest (msg : text)
| AttributeError (msg : text)
| ValueError (msg : text)
| FileNotFoundError (msg : text)
| OtherException (msg : text)
| ErrorDownload (last_error : option text) (retry_count : Z).

Definition is_BadRequest (e : exn) : bool :=
  match e with BadRequest _ => true | _ => false end.

(** Modelled from the spec: [exceptions.py], which declares
    [ErrorDownload], is missing.  The failure carries the last captured
    error message and the attempt count, and its text is taken to be that
    message.  The other classes print their one argument. *)
Definition str_exn (e : exn) : text :=
  match e with
  | BadRequest msg | AttributeError msg | ValueError msg
  | FileNotFoundError msg | OtherException msg => msg
  | ErrorDownload (Some msg) _ => msg
  | ErrorDownload None _ => str "None"
  end.

Inductive ChatType : Type := PRIVATE | GROUP | SUPERGROUP | CHANNEL | SENDER.

Inductive ChatMemberStatus : Type :=
  OWNER | ADMINISTRATOR | MEMBER | RESTRICTED | LEFT | BANNED.

Inductive ChatAction : Type := TYPING | UPLOAD_VIDEO.

Inductive ReactionEmoji : Type := THUMBS_UP | THUMBS_DOWN.

Definition ChatType_eqb (a b : ChatType) : bool :=
  match a, b with
  | PRIVATE, PRIVATE | GROUP, GROUP | SUPERGROUP, SUPERGROUP
  | CHANNEL, CHANNEL | SENDER, SENDER => true
  | _, _ => false
  end.

Definition ChatMemberStatus_eqb (a b : ChatMemberStatus) : bool :=
  match a, b with
  | OWNER, OWNER | ADMINISTRATOR, ADMINISTRATOR | MEMBER, MEMBER
  | RESTRICTED, RESTRICTED | LEFT, LEFT | BANNED, BANNED => true
  | _, _ => false
  end.

Record Chat : Type := {
  chat_id : Z;
  chat_type : ChatType
}.

(** The membership record [chat.get_member] answers with: its status,
    whether it is an instance of [ChatMemberAdministrator], and the three
    attributes [getattr] looks up ([None] when the attribute is missing or
    holds [None]). *)
Record ChatMember : Type := {
  status : ChatMemberStatus;
  is_ChatMemberAdministrator : bool;
  can_send_messages : option bool;
  can_send_media_messages : option bool;
  can_send_other_messages : option bool
}.

Record Message : Type := {
  message_id : Z;
  message_text : option text;
  message_chat : Chat;
  from_user : option Z
}.

Record Update : Type := {
  message : option Message;
  channel_post : option Message;
  effective_chat : option Chat
}.

(** [update.message or update.channel_post] *)
Definition effective_message (update : Update) : option Message :=
  match message update with
  | Some m => Some m
  | None => channel_post update
  end.

(* ================================================================= *)
(** ** Calls to the collaborators, and the monad of the handlers *)

(** A call a handler makes on the chat transport, the content provider
    or the event loop. *)
Inductive call : Type :=
| get_member (chat : Z)
| reply_text (msg : Z) (body : text) (reply_to_message_id : Z)
| send_chat_action (chat : Z) (action : ChatAction)
| from_shortcode (shortcode : text)
| download_post (shortcode : text) (target : text)
| sleep (seconds : Z)
| send_video (chat : Z) (video : text) (caption : text)
| delete (msg : Z)
| reply_video (msg : Z) (video : text) (reply_to_message_id : Z)
    (caption : text)
| set_reaction (msg : Z) (emoji : ReactionEmoji).

(** A call together with how it ended: [true] when it returned, [false]
    when it raised. *)
Definition event : Type := (call * bool)%type.

Inductive result (A : Type) : Type :=
| Return (a : A)
| Raise (e : exn)
| OutOfFuel.

Arguments Raise {A} e.
Arguments OutOfFuel {A}.

(** A computation reads the calls made so far and answers with its
    result and the calls made by the time it ends. *)
Definition M (A : Type) : Type := list event -> result A * list event.

Definition ret {A} (a : A) : M A := fun t => (Return a, t).

Definition raise {A} (e : exn) : M A := fun t => (Raise e, t).

Definition bind {A B} (m : M A) (k : A -> M B) : M B :=
  fun t =>
    match m t with
    | (Return a, t') => k a t'
    | (Raise e, t') => (Raise e, t')
    | (OutOfFuel, t') => (OutOfFuel, t')
    end.

Notation "x <- m ;; k" := (bind m (fun x => k))
  (at level 61, m at next level, right associativity).
Notation "m ;;; k" := (bind m (fun _ => k))
  (at level 61, right associativity).

(** [try: body  except <classes>: handler] *)
Definition try_except {A} (body : M A) (catches : exn -> bool)
    (handler : exn -> M A) : M A :=
  fun t =>
    match body t with
    | (Raise e, t') => if catches e then handler e t' else (Raise e, t')
    | other => other
    end.

(** [except Exception]: every exception of the model is of that class. *)
Definition any_Exception (e : exn) : bool := true.

(** Make the call [c]; [outcome] is the exception it raises, if any. *)
Definition perform (c : call) (outcome : option exn) : M unit :=
  fun t =>
    match outcome with
    | None => (Return tt, t ++ [(c, true)])
    | Some e => (Raise e, t ++ [(c, false)])
    end.

(** Reading [.chat] off [update.message], which may be [None]. *)
Definition chat_of (m : option Message) : M Chat :=
  match m with
  | Some m => ret (message_chat m)
  | None => raise (AttributeError (str "'NoneType' object has no attribute 'chat'"))
  end.

(* ================================================================= *)
(** ** The collaborators *)

Record Post : Type := { is_video : bool }.

(** What the content provider does on one attempt: what
    [Post.from_shortcode] answers, whether [L.download_post] raises, and
    the file found at the target path afterwards ([None] when there is
    none, its size otherwise). *)
Record attempt : Type := {
  resolves : exn + Post;
  downloads : option exn;
  video_file : option Z
}.

(** The content provider during one call of [download_reel], by the
    value of [retry_count]. *)
Definition provider : Type := Z -> attempt.

(** How the collaborators behave while one update is handled.  The calls
    made for the [i]-th extracted identifier are told apart by [i]; each
    call site is reached at most once per identifier. *)
Record world : Type := {
  on_get_member : exn + ChatMember;
  on_reply_text : option exn;
  on_chat_action_before : nat -> option exn;
  on_fetch : nat -> provider;
  on_chat_action_after : nat -> option exn;
  on_send_video : nat -> option exn;
  on_delete : nat -> option exn;
  on_reply_video : nat -> option exn;
  on_set_reaction : nat -> option exn
}.

(* ================================================================= *)
(** ** [check_bot_permissions] *)

Definition required_rights : list ((ChatMember -> option bool) * bool) :=
  [ (can_send_messages, true);
    (can_send_media_messages, true);
    (can_send_other_messages, true) ].

(** The loop over [required_rights.items()]. *)
Fixpoint has_rights (bot_member : ChatMember)
    (rights : list ((ChatMember -> option bool) * bool)) : bool :=
  match rights with
  | [] => true
  | (right_, required) :: rest =>
      if negb (truthy (right_ bot_member)) && required then false
      else has_rights bot_member rest
  end.

Definition chat_get_member (w : world) (chat : Chat) : M ChatMember :=
  fun t =>
    match on_get_member w with
    | inr bot_member => (Return bot_member, t ++ [(get_member (chat_id chat), true)])
    | inl e => (Raise e, t ++ [(get_member (chat_id chat), false)])
    end.

(** The function answers [True], [False] or, where no branch returns,
    [None]. *)
Definition check_bot_permissions (w : world) (update : Update)
    : M (option bool) :=
  try_except
    (match effective_chat update with
     | None => ret (Some false)
     | Some chat =>
         if ChatType_eqb (chat_type chat) PRIVATE then ret (Some true)
         else
           bot_member <- chat_get_member w chat ;;
           if ChatType_eqb (chat_type chat) SUPERGROUP
              && ChatMemberStatus_eqb (status bot_member) ADMINISTRATOR
           then ret (Some true)
           else if is_ChatMemberAdministrator bot_member
           then ret (Some (has_rights bot_member required_rights))
           else if ChatMemberStatus_eqb (status bot_member) MEMBER
           then ret (Some true)
           else ret None
     end)
    is_BadRequest
    (fun _ => ret (Some false)).

(* ================================================================= *)
(** ** [download_reel] and [check_file] *)

Definition TEMP_DIR : text := str "temp_downloads".

Definition check_file (file : option Z) : M unit :=
  match file with
  | None => raise (FileNotFoundError (str "Файл видео не существует"))
  | Some file_size =>
      if (file_size =? 0)%Z
      then raise (ValueError (str "Загруженный файл пуст"))
      else ret tt
  end.

Definition Post_from_shortcode (a : attempt) (shortcode : text) : M Post :=
  fun t =>
    match resolves a with
    | inr post => (Return post, t ++ [(from_shortcode shortcode, true)])
    | inl e => (Raise e, t ++ [(from_shortcode shortcode, false)])
    end.

(** The body of the [try] in [download_reel]. *)
Definition fetch_once (a : attempt) (shortcode : text) : M text :=
  post <- Post_from_shortcode a shortcode ;;
  (if negb (is_video post)
   then raise (ValueError (str "Публикация не содержит видео"))
   else ret tt) ;;;
  perform (download_post shortcode TEMP_DIR) (downloads a) ;;;
  let video_path := TEMP_DIR ++ str "/" ++ shortcode ++ str ".mp4" in
  check_file (video_file a) ;;;
  ret video_path.

(** The [while] loop of [download_reel]; [fuel] bounds its iterations. *)
Fixpoint retry_loop (fuel : nat) (p : provider) (shortcode : text)
    (retry_count : Z) (last_error : option text) : M text :=
  if (retry_count <=? MAX_RETRIES)%Z then
    match fuel with
    | O => fun t => (OutOfFuel, t)
    | S fuel' =>
        r <- try_except
               (video_path <- fetch_once (p retry_count) shortcode ;;
                ret (inl video_path))
               any_Exception
               (fun e =>
                  ret (inr (str "Unexpected error: " ++ str_exn e
                            ++ str " for " ++ shortcode))) ;;
        match r with
        | inl video_path => ret video_path
        | inr last_error' =>
            let retry_count' := (retry_count + 1)%Z in
            (if (retry_count' <=? MAX_RETRIES)%Z
             then perform (sleep RETRY_DELAY) None
             else ret tt) ;;;
            retry_loop fuel' p shortcode retry_count' (Some last_error')
        end
    end
  else raise (ErrorDownload last_error retry_count).

Definition download_reel (p : provider) (shortcode : text) : M text :=
  retry_loop (Z.to_nat MAX_RETRIES) p shortcode 1%Z None.

(* ================================================================= *)
(** ** [handle_message] *)

Definition rights_notice : text :=
  str "У бота недостаточно прав. Пожалуйста, предоставьте права на отправку сообщений и медиа.".

(** The body of the [try] of one turn of the loop over [reel_matches].
    The two signals go to the chat of [update.message], the delivery to
    [effective_message]; opening the video file counts with the call that
    sends it. *)
Definition deliver_reel (w : world) (update : Update)
    (effective_message : Message) (is_link_only : bool)
    (i : nat) (reel_id : text) : M unit :=
  chat <- chat_of (message update) ;;
  perform (send_chat_action (chat_id chat) UPLOAD_VIDEO)
          (on_chat_action_before w i) ;;;
  video_path <- download_reel (on_fetch w i) reel_id ;;
  chat <- chat_of (message update) ;;
  perform (send_chat_action (chat_id chat) UPLOAD_VIDEO)
          (on_chat_action_after w i) ;;;
  let source_link := str "https://instagram.com/reel/" ++ reel_id in
  (if is_link_only then
     perform (send_video (chat_id (message_chat effective_message))
                         video_path source_link)
             (on_send_video w i) ;;;
     perform (delete (message_id effective_message)) (on_delete w i)
   else
     perform (reply_video (message_id effective_message) video_path
                          (message_id effective_message) source_link)
             (on_reply_video w i)) ;;;
  (* the log line reads [effective_message.from_user.full_name] *)
  match from_user effective_message with
  | Some _ => ret tt
  | None =>
      raise (AttributeError (str "'NoneType' object has no attribute 'full_name'"))
  end.

(** One turn of the loop: the [try] and its [except Exception]. *)
Definition handle_reel (w : world) (update : Update)
    (effective_message : Message) (is_link_only : bool)
    (i : nat) (reel_id : text) : M unit :=
  try_except
    (deliver_reel w update effective_message is_link_only i reel_id)
    any_Exception
    (fun _ =>
       perform (set_reaction (message_id effective_message) THUMBS_DOWN)
               (on_set_reaction w i)).

(** [for reel_id in reel_matches], the turns counted from [i]. *)
Fixpoint for_reels (w : world) (update : Update)
    (effective_message : Message) (is_link_only : bool)
    (i : nat) (reel_matches : list text) : M unit :=
  match reel_matches with
  | [] => ret tt
  | reel_id :: rest =>
      handle_reel w update effective_message is_link_only i reel_id ;;;
      for_reels w update effective_message is_link_only (S i) rest
  end.

(** The notice sent when the gate denies. *)
Definition notify_denied (w : world) (update : Update)
    (effective_message : Message) : M unit :=
  try_except
    (match effective_chat update with
     | None =>
         raise (AttributeError (str "'NoneType' object has no attribute 'type'"))
     | Some chat =>
         if negb (ChatType_eqb (chat_type chat) CHANNEL)
         then perform (reply_text (message_id effective_message)
                                  rights_notice
                                  (message_id effective_message))
                      (on_reply_text w)
         else ret tt
     end)
    is_BadRequest
    (fun _ => ret tt).

Definition handle_message (w : world) (update : Update) : M unit :=
  match effective_message update with
  | None => ret tt
  | Some effective_message =>
      match message_text effective_message with
      | None => ret tt
      | Some body =>
          if is_empty body then ret tt
          else
            allowed <- check_bot_permissions w update ;;
            if negb (truthy allowed)
            then notify_denied w update effective_message
            else
              for_reels w update effective_message (is_link_only body)
                        O (reel_matches body)
      end
  end.

(* ================================================================= *)
(** ** Observing a run *)

(** The result of a handler and the calls it makes when it starts with
    none made. *)
Definition run {A} (m : M A) : result A * list event := m [].

(** What one attempt comes to, and the calls it makes, when seen on its
    own. *)
Definition attempt_result (a : attempt) (shortcode : text) : result text :=
  fst (run (fetch_once a shortcode)).

Definition attempt_calls (a : attempt) (shortcode : text) : list event :=
  snd (run (fetch_once a shortcode)).

Definition is_attempt (ev : event) : bool :=
  match fst ev with from_shortcode _ => true | _ => false end.

Definition is_sleep (ev : event) : bool :=
  match fst ev with sleep _ => true | _ => false end.

(** The attempts consumed and the suspensions taken in a run. *)
Definition attempts_in (t : list event) : nat := length (filter is_attempt t).
Definition sleeps_in (t : list event) : nat := length (filter is_sleep t).

(** The calls of a run of [download_reel] that makes three attempts: a
    suspension of [RETRY_DELAY] after the first and after the second. *)
Definition three_attempts (p : provider) (shortcode : text) : list event :=
  attempt_calls (p 1%Z) shortcode ++ [(sleep RETRY_DELAY, true)]
  ++ attempt_calls (p 2%Z) shortcode ++ [(sleep RETRY_DELAY, true)]
  ++ attempt_calls (p 3%Z) shortcode.

(** The text [download_reel] keeps of the exception [e]. *)
Definition captured (e : exn) (shortcode : text) : text :=
  str "Unexpected error: " ++ str_exn e ++ str " for " ++ shortcode.

(** Sample providers: one that finds a video of ten bytes, one whose
    lookup always fails, and one that fails so twice before it finds the
    video. *)
Definition fetched : attempt :=
  {| resolves := inr {| is_video := true |};
     downloads := None;
     video_file := Some 10%Z |}.

Definition unreachable (msg : string) : attempt :=
  {| resolves := inl (OtherException (str msg));
     downloads := None;
     video_file := None |}.

Definition always_fetched : provider := fun _ => fetched.

Definition never_fetched : provider :=
  fun k => if (k =? 3)%Z then unreachable "third" else unreachable "earlier".

Definition fetched_at_third : provider :=
  fun k => if (k <? 3)%Z then unreachable "not yet" else fetched.

(* ================================================================= *)
(** ** Runs in closed form *)

(** What [download_reel] comes to and the calls it makes. *)
Definition fetch_result (p : provider) (shortcode : text) : result text :=
  fst (run (download_reel p shortcode)).

Definition fetch_calls (p : provider) (shortcode : text) : list event :=
  snd (run (download_reel p shortcode)).

(** A computation that only adds calls, whatever was made before. *)
Definition framed {A} (m : M A) : Prop :=
  forall t, m t = (fst (run m), t ++ snd (run m)).

(** A call [download_reel] makes. *)
Definition is_fetch_call (ev : event) : bool :=
  match fst ev with
  | from_shortcode _ | download_post _ _ | sleep _ => true
  | _ => false
  end.

(** The calls and outcomes the turns of the loop are made of. *)
Definition source_link (reel_id : text) : text :=
  str "https://instagram.com/reel/" ++ reel_id.

Definition upload_signal (m : Message) : call :=
  send_chat_action (chat_id (message_chat m)) UPLOAD_VIDEO.

Definition thumbs_down (m : Message) : call :=
  set_reaction (message_id m) THUMBS_DOWN.

Definition returned (o : option exn) : bool :=
  match o with None => true | Some _ => false end.

Definition outcome (o : option exn) : result unit :=
  match o with None => Return tt | Some e => Raise e end.

Definition no_chat : exn :=
  AttributeError (str "'NoneType' object has no attribute 'chat'").
Definition no_full_name : exn :=
  AttributeError (str "'NoneType' object has no attribute 'full_name'").

(** The run of the body of one turn in closed form: its result and its
    calls, by the outcomes of the calls in the order they are made. *)
Definition delivery (w : world) (update : Update) (em : Message)
    (link_only : bool) (i : nat) (reel_id : text)
    : result unit * list event :=
  match message update with
  | None => (Raise no_chat, [])
  | Some m =>
      match on_chat_action_before w i with
      | Some e => (Raise e, [(upload_signal m, false)])
      | None =>
          let fetching :=
            (upload_signal m, true) :: fetch_calls (on_fetch w i) reel_id in
          match fetch_result (on_fetch w i) reel_id with
          | Raise e => (Raise e, fetching)
          | OutOfFuel => (OutOfFuel, fetching)
          | Return video_path =>
              match on_chat_action_after w i with
              | Some e => (Raise e, fetching ++ [(upload_signal m, false)])
              | None =>
                  let ready := fetching ++ [(upload_signal m, true)] in
                  let logged :=
                    match from_user em with
                    | Some _ => Return tt
                    | None => Raise no_full_name
                    end in
                  let send :=
                    send_video (chat_id (message_chat em)) video_path
                               (source_link reel_id) in
                  let reply :=
                    reply_video (message_id em) video_path (message_id em)
                                (source_link reel_id) in
                  if link_only then
                    match on_send_video w i, on_delete w i with
                    | Some e, _ => (Raise e, ready ++ [(send, false)])
                    | None, Some e =>
                        (Raise e,
                         ready ++ [(send, true); (delete (message_id em), false)])
                    | None, None =>
                        (logged,
                         ready ++ [(send, true); (delete (message_id em), true)])
                    end
                  else
                    match on_reply_video w i with
                    | Some e => (Raise e, ready ++ [(reply, false)])
                    | None => (logged, ready ++ [(reply, true)])
                    end
              end
          end
      end
  end.

(** The run of one turn: a body that raises is followed by the request
    for the reaction. *)
Definition turn (w : world) (update : Update) (em : Message)
    (link_only : bool) (i : nat) (reel_id : text)
    : result unit * list event :=
  match delivery w update em link_only i reel_id with
  | (Raise _, calls) =>
      (outcome (on_set_reaction w i),
       calls ++ [(thumbs_down em, returned (on_set_reaction w i))])
  | other => other
  end.

(** The run of the loop from turn [i] on, in closed form: a turn that
    raises ends it. *)
Fixpoint turns (w : world) (update : Update) (em : Message)
    (link_only : bool) (i : nat) (reel_matches : list text)
    : result unit * list event :=
  match reel_matches with
  | [] => (Return tt, [])
  | reel_id :: rest =>
      match turn w update em link_only i reel_id with
      | (Return _, calls) =>
          (fst (turns w update em link_only (S i) rest),
           calls ++ snd (turns w update em link_only (S i) rest))
      | other => other
      end
  end.

(** A request for a deletion, whatever its outcome. *)
Definition is_delete (ev : event) : bool :=
  match fst ev with delete _ => true | _ => false end.

(** A standalone post that went through. *)
Definition is_posted (ev : event) : bool :=
  match ev with (send_video _ _ _, true) => true | _ => false end.

(** Media that went through, as a post or as a reply. *)
Definition is_media (ev : event) : bool :=
  match ev with
  | (send_video _ _ _, true) | (reply_video _ _ _ _, true) => true
  | _ => false
  end.

(** A deletion that went through. *)
Definition is_deleted (ev : event) : bool :=
  match ev with (delete _, true) => true | _ => false end.

(** A call made on the message [m] itself. *)
Definition about (m : Message) (ev : event) : bool :=
  match fst ev with
  | reply_text msg _ _ | delete msg | reply_video msg _ _ _
  | set_reaction msg _ => (msg =? message_id m)%Z
  | _ => false
  end.

(** Every deletion in [t] comes right after a standalone post that went
    through; [posted] tells whether one precedes [t]. *)
Fixpoint guarded (posted : bool) (t : list event) : bool :=
  match t with
  | [] => true
  | ev :: t' =>
      (if is_delete ev then posted else true) && guarded (is_posted ev) t'
  end.

(** The two activity signals of turn [i] return. *)
Definition signals_return (w : world) (i : nat) : Prop :=
  on_chat_action_before w i = None /\ on_chat_action_after w i = None.

(** The delivery of a fetched video in turn [i]: a standalone post
    captioned with the source link and, when the post went through, the
    deletion of the message; or a reply to the message with the same
    caption. *)
Definition delivered (w : world) (m : Message) (link_only : bool)
    (i : nat) (video_path reel_id : text) : list event :=
  if link_only
  then (send_video (chat_id (message_chat m)) video_path
                   (source_link reel_id), returned (on_send_video w i))
       :: (if returned (on_send_video w i)
           then [(delete (message_id m), returned (on_delete w i))]
           else [])
  else [ (reply_video (message_id m) video_path (message_id m)
                      (source_link reel_id), returned (on_reply_video w i)) ].

(* ================================================================= *)
(** ** The rules of the permission gate, as the specification words them *)

(** The rules of the specification for a membership record, in their
    order: a supergroup administrator; an administrator record with all
    three required capabilities present and true; a plain member; anyone
    else. *)
Definition all_capabilities (m : ChatMember) : bool :=
  match can_send_messages m, can_send_media_messages m,
        can_send_other_messages m with
  | Some true, Some true, Some true => true
  | _, _, _ => false
  end.

Definition member_authorized (chat : Chat) (m : ChatMember) : bool :=
  match chat_type chat, status m with
  | SUPERGROUP, ADMINISTRATOR => true
  | _, _ =>
      if is_ChatMemberAdministrator m then all_capabilities m
      else match status m with
           | MEMBER => true
           | _ => false
           end
  end.

(* ================================================================= *)
(** ** Sample chats, messages and worlds *)

Definition plain_member : ChatMember :=
  {| status := MEMBER; is_ChatMemberAdministrator := false;
     can_send_messages := None; can_send_media_messages := None;
     can_send_other_messages := None |}.

Definition full_administrator : ChatMember :=
  {| status := ADMINISTRATOR; is_ChatMemberAdministrator := true;
     can_send_messages := Some true; can_send_media_messages := Some true;
     can_send_other_messages := Some true |}.

Definition group_chat : Chat := {| chat_id := 7; chat_type := GROUP |}.
Definition channel_chat : Chat := {| chat_id := 8; chat_type := CHANNEL |}.

Definition message_with (body : string) (chat : Chat) (sender : option Z)
    : Message :=
  {| message_id := 42; message_text := Some (str body);
     message_chat := chat; from_user := sender |}.

Definition sent_to_group (body : string) : Update :=
  {| message := Some (message_with body group_chat (Some 5%Z));
     channel_post := None;
     effective_chat := Some group_chat |}.

Definition posted_to_channel (body : string) : Update :=
  {| message := None;
     channel_post := Some (message_with body channel_chat None);
     effective_chat := Some channel_chat |}.

(** A world in which every call returns, but for the ones named. *)
Definition calm (membership : exn + ChatMember) (fetch : nat -> provider)
    (delete_fails reaction_fails : bool) : world :=
  {| on_get_member := membership;
     on_reply_text := None;
     on_chat_action_before := fun _ => None;
     on_fetch := fetch;
     on_chat_action_after := fun _ => None;
     on_send_video := fun _ => None;
     on_delete := fun _ =>
       if delete_fails
       then Some (BadRequest (str "Message can't be deleted"))
       else None;
     on_reply_video := fun _ => None;
     on_set_reaction := fun _ =>
       if reaction_fails
       then Some (BadRequest (str "Reaction_invalid"))
       else None |}.

Definition timed_out : exn := OtherException (str "Timed out").

(** The worlds and the updates of the scenarios. *)
Definition all_fetched : world :=
  calm (inr plain_member) (fun _ => always_fetched) false false.

Definition none_fetched : world :=
  calm (inr plain_member) (fun _ => never_fetched) false false.

Definition not_deletable : world :=
  calm (inr plain_member) (fun _ => always_fetched) true false.

Definition no_reactions : world :=
  calm (inr plain_member) (fun _ => never_fetched) false true.

Definition lookup_times_out : world :=
  calm (inl timed_out) (fun _ => always_fetched) false false.

Definition channel_world : world :=
  calm (inr full_administrator) (fun _ => always_fetched) false false.

(** A world in which the video is fetched and the activity signal that
    follows the fetch times out. *)
Definition late_signal_fails : world :=
  {| on_get_member := inr plain_member;
     on_reply_text := None;
     on_chat_action_before := fun _ => None;
     on_fetch := fun _ => always_fetched;
     on_chat_action_after := fun _ => Some timed_out;
     on_send_video := fun _ => None;
     on_delete := fun _ => None;
     on_reply_video := fun _ => None;
     on_set_reaction := fun _ => None |}.

(** The record of an administrator as the library builds it, with none
    of the three attributes the gate reads, and a world in which the bot
    has it. *)
Definition administrator_record : ChatMember :=
  {| status := ADMINISTRATOR; is_ChatMemberAdministrator := true;
     can_send_messages := None; can_send_media_messages := None;
     can_send_other_messages := None |}.

Definition bot_administrator : world :=
  calm (inr administrator_record) (fun _ => always_fetched) false false.

Definition link_alone : string := "https://instagram.com/reel/ABC123".
Definition link_in_text : string :=
  "check this out https://www.instagram.com/reel/XYZ/".
Definition two_links : string :=
  "https://instagram.com/reel/AAA https://instagram.com/reel/BBB".

(* ================================================================= *)
(** ** Links, as the pattern reads them *)

(** A byte that continues a character of several bytes in UTF-8
    ([10xxxxxx]), and [len(s)] for a text given by its UTF-8 bytes: the
    number of bytes that start a character. *)
Definition is_continuation (b : ascii) : bool :=
  (128 <=? N_of_ascii b)%N && (N_of_ascii b <? 192)%N.

Definition characters (s : text) : nat :=
  length (filter (fun b => negb (is_continuation b)) s).

(** What may follow the identifier in a link: nothing, a slash, or a
    slash, a question mark and characters other than the space. *)
Definition link_tail (tail : text) : Prop :=
  tail = [] \/ tail = str "/"
  \/ exists q, tail = str "/?" ++ q /\ Forall (fun c => not_space c = true) q.

(** A link to a reel, as the pattern reads it: the scheme with or
    without [s], the host with or without [www.], a profile name or none,
    the identifier and what follows it. *)
Definition reel_link (secure www : bool) (profile : option text)
    (reel_id tail : text) : text :=
  str "http" ++ (if secure then str "s" else [])
    ++ str "://" ++ (if www then str "www." else [])
    ++ str "instagram.com/"
    ++ match profile with Some name => name ++ str "/" | None => [] end
    ++ str "reel/" ++ reel_id ++ tail.

(** [x] does not go on with a character of the class [p]. *)
Definition stops (p : ascii -> bool) (x : text) : Prop :=
  match x with [] => True | c :: _ => p c = false end.

(* ================================================================= *)
(** ** Attempts and calls of the fetcher *)

(** [TEMP_DIR / f'{shortcode}.mp4'] *)
Definition video_path_of (shortcode : text) : text :=
  TEMP_DIR ++ str "/" ++ shortcode ++ str ".mp4".

(** An attempt in which nothing raises: the post resolves to a video,
    the download returns and leaves a file that is not empty. *)
Definition goes_through (a : attempt) : bool :=
  match resolves a with
  | inr post =>
      is_video post
      && match downloads a, video_file a with
         | None, Some file_size => negb (file_size =? 0)%Z
         | _, _ => false
         end
  | inl _ => false
  end.

(** A call [download_reel] makes for [shortcode]: a lookup of that
    shortcode, a download of it into [TEMP_DIR], or a suspension of
    [RETRY_DELAY] seconds that returned. *)
Definition fetches (shortcode : text) (ev : event) : Prop :=
  (exists ok, ev = (from_shortcode shortcode, ok))
  \/ (exists ok, ev = (download_post shortcode TEMP_DIR, ok))
  \/ ev = (sleep RETRY_DELAY, true).

(** The calls of one attempt: the lookup of the shortcode alone, or the
    lookup that returned followed by the download into [TEMP_DIR]. *)
Definition attempt_shape (shortcode : text) (t : list event) : Prop :=
  (exists ok, t = [(from_shortcode shortcode, ok)])
  \/ (exists ok, t = [ (from_shortcode shortcode, true);
                       (download_post shortcode TEMP_DIR, ok) ]).

(** Lists of calls put one after the other with [sep] between each two
    of them. *)
Fixpoint joined (sep : list event) (parts : list (list event)) : list event :=
  match parts with
  | [] => []
  | [part] => part
  | part :: rest => part ++ sep ++ joined sep rest
  end.

(** A provider whose posts hold no video. *)
Definition never_a_video : provider :=
  fun _ => {| resolves := inr {| is_video := false |};
              downloads := None;
              video_file := None |}.

(* ================================================================= *)
(** ** Calls of the dispatcher *)

(** The notice the handler answers with when the gate denies. *)
Definition notice_call (m : Message) : call :=
  reply_text (message_id m) rights_notice (message_id m).

(** A request for a reaction, and a request to send a video, whatever
    their outcome. *)
Definition is_reaction (ev : event) : bool :=
  match fst ev with set_reaction _ _ => true | _ => false end.

Definition is_send (ev : event) : bool :=
  match fst ev with
  | send_video _ _ _ | reply_video _ _ _ _ => true
  | _ => false
  end.

(** A call of the turn for [reel_id]: a signal to the chat of
    [update.message], a call of the fetcher for that identifier, the
    post of its video to the chat of the message with the source link as
    caption and the deletion of the message (link-only text), the reply
    with its video to the message (other texts), or the thumbs-down on
    the message. *)
Definition serves (update : Update) (em : Message) (link_only : bool)
    (reel_id : text) (ev : event) : Prop :=
  match fst ev with
  | send_chat_action chat action =>
      exists m, message update = Some m
                /\ chat = chat_id (message_chat m) /\ action = UPLOAD_VIDEO
  | from_shortcode shortcode => shortcode = reel_id
  | download_post shortcode target => shortcode = reel_id /\ target = TEMP_DIR
  | sleep seconds => seconds = RETRY_DELAY
  | send_video chat video caption =>
      link_only = true /\ chat = chat_id (message_chat em)
      /\ video = video_path_of reel_id /\ caption = source_link reel_id
  | delete msg => link_only = true /\ msg = message_id em
  | reply_video msg video reply_to caption =>
      link_only = false /\ msg = message_id em /\ reply_to = message_id em
      /\ video = video_path_of reel_id /\ caption = source_link reel_id
  | set_reaction msg emoji => msg = message_id em /\ emoji = THUMBS_DOWN
  | get_member _ | reply_text _ _ _ => False
  end.

(** A reaction that went through. *)
Definition is_reacted (ev : event) : bool :=
  match ev with (set_reaction _ _, true) => true | _ => false end.

(** Every call of turn [i] returns and the fetch of [reel_id] gives its
    video. *)
Definition all_return (w : world) (i : nat) (reel_id : text) : Prop :=
  on_chat_action_before w i = None
  /\ (exists video_path, fetch_result (on_fetch w i) reel_id = Return video_path)
  /\ on_chat_action_after w i = None
  /\ on_send_video w i = None
  /\ on_delete w i = None
  /\ on_reply_video w i = None.

(** A membership that is neither an administrator record nor a plain
    member, and a world in which the bot has it. *)
Definition restricted_member : ChatMember :=
  {| status := RESTRICTED; is_ChatMemberAdministrator := false;
     can_send_messages := None; can_send_media_messages := None;
     can_send_other_messages := None |}.

Definition bot_restricted : world :=
  calm (inr restricted_member) (fun _ => always_fetched) false false.

Definition no_link : string := "hello there".

(* ================================================================= *)
(** ** [clean_temp_directory] *)

Module Cleanup.























End Cleanup.


(* ================================================================= *)
(** * Properties *)

(** ** The matcher and the pattern *)

Lemma strip_prefix_app (l s : text) : strip_prefix l (l ++ s) = Some s.
Proof.
  induction l as [| c l IH]; simpl; [reflexivity |].
  now rewrite Ascii.eqb_refl.
Qed.

Lemma strip_prefix_inv (l s s' : text) :
  strip_prefix l s = Some s' -> s = l ++ s'.
Proof.
  revert s. induction l as [| c l IH]; intros s H; simpl in *.
  - now injection H.
  - destruct s as [| d s]; [discriminate |].
    destruct (Ascii.eqb c d) eqn:E; [| discriminate].
    apply Ascii.eqb_eq in E. subst d. f_equal. now apply IH.
Qed.

Lemma rep_self (p : ascii -> bool) (s : text) : In s (rep p s).
Proof.
  destruct s as [| c s]; simpl; [now left |].
  destruct (p c); [apply in_or_app; right |]; now left.
Qed.

Lemma rep_inv (p : ascii -> bool) (s s' : text) :
  In s' (rep p s) ->
  exists pre, s = pre ++ s' /\ Forall (fun c => p c = true) pre.
Proof.
  revert s'. induction s as [| c s IH]; intros s' H; simpl in H.
  - destruct H as [<- | []]. now exists [].
  - destruct (p c) eqn:E.
    + apply in_app_or in H. destruct H as [H | [<- | []]].
      * destruct (IH _ H) as (pre & -> & Hp).
        exists (c :: pre). split; [reflexivity | now constructor].
      * now exists [].
    + destruct H as [<- | []]. now exists [].
Qed.

Lemma rep_app (p : ascii -> bool) (pre s : text) :
  Forall (fun c => p c = true) pre -> In s (rep p (pre ++ s)).
Proof.
  induction 1 as [| c pre Hc _ IH]; simpl; [apply rep_self |].
  rewrite Hc. apply in_or_app. now left.
Qed.

Lemma consumed_app (pre s : text) : consumed (pre ++ s) s = length pre.
Proof. unfold consumed. rewrite length_app. lia. Qed.

Lemma firstn_consumed (pre s : text) :
  firstn (consumed (pre ++ s) s) (pre ++ s) = pre.
Proof.
  rewrite consumed_app, firstn_app, Nat.sub_diag, firstn_all. simpl.
  apply app_nil_r.
Qed.

(** Every thread of the matcher has read, off the head of the text, a
    member of the language of the expression. *)
Lemma matches_sound (r : regex) :
  forall g s th, In th (matches r g s) ->
  exists pre, s = pre ++ snd th /\ Lang r pre.
Proof.
  induction r as [l | min p | r1 IH1 r2 IH2 | r IH | r IH];
    intros g s th H; simpl in H.
  - destruct (strip_prefix l s) as [s' |] eqn:E; [| destruct H].
    destruct H as [<- | []]. apply strip_prefix_inv in E.
    exists l. split; [exact E | constructor].
  - apply in_map_iff in H. destruct H as (s' & <- & H).
    apply filter_In in H. destruct H as [H Hmin].
    destruct (rep_inv _ _ _ H) as (pre & -> & Hp).
    rewrite consumed_app in Hmin. apply Nat.leb_le in Hmin.
    exists pre. split; [reflexivity | now constructor].
  - apply in_flat_map in H. destruct H as (th1 & H1 & H2).
    destruct (IH1 _ _ _ H1) as (pre1 & -> & L1).
    destruct (IH2 _ _ _ H2) as (pre2 & E2 & L2).
    exists (pre1 ++ pre2). split; [| now constructor].
    now rewrite E2, app_assoc.
  - apply in_app_or in H. destruct H as [H | [<- | []]].
    + destruct (IH _ _ _ H) as (pre & -> & L).
      exists pre. split; [reflexivity | now constructor].
    + exists []. split; [reflexivity | constructor].
  - apply in_map_iff in H. destruct H as (th1 & <- & H).
    destruct (IH _ _ _ H) as (pre & -> & L).
    exists pre. split; [reflexivity | now constructor].
Qed.

(** Every member of the language at the head of the text is read by
    some thread. *)
Lemma matches_complete (r : regex) (pre : text) :
  Lang r pre ->
  forall g rest, exists g', In (g', rest) (matches r g (pre ++ rest)).
Proof.
  induction 1 as [l | min p s Hp Hmin | r1 r2 s1 s2 _ IH1 _ IH2
                  | r | r s _ IH | r s _ IH]; intros g rest; simpl.
  - rewrite strip_prefix_app. exists g. now left.
  - exists g. apply in_map_iff. exists rest. split; [reflexivity |].
    apply filter_In. split; [now apply rep_app |].
    rewrite consumed_app. now apply Nat.leb_le.
  - destruct (IH1 g (s2 ++ rest)) as [g1 H1].
    destruct (IH2 g1 rest) as [g2 H2].
    exists g2. apply in_flat_map. exists (g1, s2 ++ rest).
    rewrite <- app_assoc. now split.
  - exists g. apply in_or_app. right. now left.
  - destruct (IH g rest) as [g' H']. exists g'. apply in_or_app. now left.
  - destruct (IH g rest) as [g' H'].
    exists (Some (firstn (consumed (s ++ rest) rest) (s ++ rest))).
    apply in_map_iff. exists (g', rest). now split.
Qed.

Lemma at_end_nil (th : thread) : at_end th = true <-> snd th = [].
Proof.
  unfold at_end. destruct (snd th); simpl; split; congruence.
Qed.

(** [fullmatch] succeeds exactly on the language of the expression. *)
Lemma fullmatch_Lang (r : regex) (s : text) :
  (exists th, fullmatch r s = Some th) <-> Lang r s.
Proof.
  unfold fullmatch. split.
  - intros [th H]. apply find_some in H. destruct H as [H E].
    apply at_end_nil in E.
    destruct (matches_sound _ _ _ _ H) as (pre & -> & L).
    now rewrite E, app_nil_r.
  - intros L. destruct (matches_complete L None []) as [g' H].
    rewrite app_nil_r in H.
    destruct (find at_end (matches r None s)) as [th |] eqn:E;
      [now exists th |].
    exfalso. apply (find_none _ _ E) in H. discriminate H.
Qed.

Lemma rep_shape (p : ascii -> bool) (s : text) :
  exists tl, rep p s = drop_run p s :: tl /\ Forall (starts_in p) tl.
Proof.
  induction s as [| c s (tl & E & H)]; simpl.
  - now exists [].
  - destruct (p c) eqn:Hc.
    + exists (tl ++ [c :: s]). rewrite E. split; [reflexivity |].
      apply Forall_app. split; [exact H |].
      constructor; [| constructor]. now exists c, s.
    + now exists [].
Qed.

Lemma drop_run_head (p : ascii -> bool) (s : text) (c : ascii) (s' : text) :
  drop_run p s = c :: s' -> p c = false.
Proof.
  induction s as [| d s IH]; simpl; [discriminate |].
  destruct (p d) eqn:E; [exact IH |].
  intros H. injection H as -> _. exact E.
Qed.

Lemma drop_run_all (p : ascii -> bool) (s : text) :
  Forall (fun c => p c = true) s -> drop_run p s = [].
Proof. induction 1 as [| c s Hc _ IH]; simpl; [| rewrite Hc]; auto. Qed.

Lemma full_first_app (l1 l2 : list thread) :
  full_first l1 -> full_first l2 -> l1 = [] \/ never_full l2 ->
  full_first (l1 ++ l2).
Proof.
  intros F1 F2 D th Hin Hnil. apply in_app_or in Hin.
  destruct Hin as [Hin | Hin].
  - destruct l1 as [| x l1]; [destruct Hin |].
    exact (F1 _ Hin Hnil).
  - destruct D as [-> | D]; [exact (F2 _ Hin Hnil) |].
    now destruct (D _ Hin).
Qed.

Lemma never_full_first (l : list thread) : never_full l -> full_first l.
Proof. intros N th Hin Hnil. now destruct (N _ Hin). Qed.

Lemma matches_Cat_Lit (l : text) (r : regex) (g : option text) (s : text) :
  matches (Cat (Lit l) r) g s
  = match strip_prefix l s with
    | Some s' => matches r g s'
    | None => []
    end.
Proof.
  simpl. destruct (strip_prefix l s); simpl; [apply app_nil_r | reflexivity].
Qed.

Lemma matches_Cat_Opt (a b : regex) (g : option text) (s : text) :
  matches (Cat (Opt a) b) g s
  = flat_map (fun th => matches b (fst th) (snd th)) (matches a g s)
    ++ matches b g s.
Proof. simpl. rewrite flat_map_app. simpl. now rewrite app_nil_r. Qed.

Lemma full_first_Cat_Lit (l : text) (r : regex) (g : option text) (s : text) :
  (forall s', full_first (matches r g s')) ->
  full_first (matches (Cat (Lit l) r) g s).
Proof.
  intros F. rewrite matches_Cat_Lit.
  destruct (strip_prefix l s); [apply F | intros th []].
Qed.

(** When the optional literal is there, what follows cannot start where
    the literal starts. *)
Lemma full_first_Cat_Opt_Lit (l : text) (r : regex) (g : option text)
    (s : text) :
  (forall s', full_first (matches r g s')) ->
  (forall s', matches r g (l ++ s') = []) ->
  full_first (matches (Cat (Opt (Lit l)) r) g s).
Proof.
  intros F N. rewrite matches_Cat_Opt. simpl.
  destruct (strip_prefix l s) as [s' |] eqn:E; simpl.
  - apply strip_prefix_inv in E. subst s. rewrite N, !app_nil_r. apply F.
  - apply F.
Qed.

Lemma filter_all {A} (f : A -> bool) (l : list A) :
  (forall x, In x l -> f x = true) -> filter f l = l.
Proof.
  induction l as [| x l IH]; intros H; simpl; [reflexivity |].
  rewrite (H x) by now left. f_equal. apply IH. intros y Hy. apply H. now right.
Qed.

Lemma flat_map_nil {A B} (f : A -> list B) (l : list A) :
  (forall x, In x l -> f x = []) -> flat_map f l = [].
Proof.
  induction l as [| x l IH]; intros H; simpl; [reflexivity |].
  rewrite (H x) by now left. apply IH. intros y Hy. apply H. now right.
Qed.

Lemma groupless_keeps (r : regex) :
  groupless r = true ->
  forall g s th, In th (matches r g s) -> fst th = g.
Proof.
  induction r as [l | min p | r1 IH1 r2 IH2 | r IH | r IH];
    simpl; intros G g s th H.
  - destruct (strip_prefix l s); [| destruct H].
    now destruct H as [<- | []].
  - apply in_map_iff in H. now destruct H as (s' & <- & _).
  - apply andb_prop in G. destruct G as [G1 G2].
    apply in_flat_map in H. destruct H as (th1 & H1 & H2).
    rewrite (IH2 G2 _ _ _ H2). exact (IH1 G1 _ _ _ H1).
  - apply in_app_or in H. destruct H as [H | [<- | []]]; [| reflexivity].
    exact (IH G _ _ _ H).
  - discriminate.
Qed.

Ltac lit :=
  cbv [str list_ascii_of_string];
  cbn [matches strip_prefix flat_map map app fst snd].

Lemma Lang_Lit_inv l s : Lang (Lit l) s -> s = l.
Proof. now inversion 1. Qed.

Lemma Lang_Rep_inv min p s :
  Lang (Rep min p) s -> Forall (fun c => p c = true) s /\ min <= length s.
Proof. now inversion 1. Qed.

Lemma Lang_Cat_inv r1 r2 s :
  Lang (Cat r1 r2) s ->
  exists s1 s2, s = s1 ++ s2 /\ Lang r1 s1 /\ Lang r2 s2.
Proof. inversion 1; subst. now exists s1, s2. Qed.

Lemma Lang_Opt_inv r s : Lang (Opt r) s -> s = [] \/ Lang r s.
Proof. inversion 1; subst; auto. Qed.

Lemma Lang_Grp_inv r s : Lang (Grp r) s -> Lang r s.
Proof. now inversion 1. Qed.

Lemma Lang_slash_inv s : Lang re_slash s -> s = [] \/ s = ["/"].
Proof.
  intros H. apply Lang_Opt_inv in H. destruct H as [-> | H]; [now left |].
  apply Lang_Lit_inv in H. now right.
Qed.

(** What the optional query and the optional slash can read. *)
Lemma Lang_tail_inv s :
  Lang re_tail s ->
  s = [] \/ s = ["/"]
  \/ exists q, s = "/" :: "?" :: q /\ Forall (fun c => not_space c = true) q.
Proof.
  intros H. apply Lang_Cat_inv in H. destruct H as (s1 & s2 & -> & H1 & H2).
  apply Lang_slash_inv in H2. apply Lang_Opt_inv in H1.
  destruct H1 as [-> | H1].
  - simpl. destruct H2 as [-> | ->]; auto.
  - apply Lang_Cat_inv in H1. destruct H1 as (a & q & -> & Ha & Hq).
    apply Lang_Lit_inv in Ha. subst a. apply Lang_Rep_inv in Hq.
    destruct Hq as [Hq _]. right. right.
    exists (q ++ s2). split; [reflexivity |].
    apply Forall_app. split; [exact Hq |].
    destruct H2 as [-> | ->]; repeat constructor.
Qed.

Lemma matches_slash g s :
  matches re_slash g s
  = match s with
    | c :: s' => if Ascii.eqb "/" c then [(g, s'); (g, s)] else [(g, s)]
    | [] => [(g, s)]
    end.
Proof.
  unfold re_slash. lit. destruct s as [| c s]; [reflexivity |].
  now destruct (Ascii.eqb "/" c).
Qed.

Lemma tail_full_first g s : full_first (matches re_tail g s).
Proof.
  intros th Hin Hnil.
  assert (Hg : fst th = g) by (revert Hin; now apply groupless_keeps).
  destruct (matches_sound _ _ _ _ Hin) as (pre & Hs & L).
  rewrite Hnil, app_nil_r in Hs. subst pre.
  destruct th as [g' r]. simpl in Hg, Hnil. subst g' r.
  clear Hin. unfold re_tail. rewrite matches_Cat_Opt.
  apply Lang_tail_inv in L. destruct L as [-> | [-> | (q & -> & Hq)]].
  - reflexivity.
  - reflexivity.
  - unfold re_query at 1. rewrite matches_Cat_Lit.
    lit. rewrite !Ascii.eqb_refl. cbn [matches map].
    rewrite filter_all by reflexivity.
    destruct (rep_shape not_space q) as (tl & -> & _).
    rewrite (drop_run_all _ Hq). reflexivity.
Qed.

Lemma drop_run_length (p : ascii -> bool) (s : text) :
  length (drop_run p s) <= length s.
Proof.
  induction s as [| c s IH]; simpl; [lia |].
  destruct (p c); simpl; lia.
Qed.

Lemma id_char_not (c d : ascii) :
  id_char d = false -> id_char c = true -> Ascii.eqb d c = false.
Proof.
  intros Hd Hc. destruct (Ascii.eqb d c) eqn:E; [| reflexivity].
  apply Ascii.eqb_eq in E. congruence.
Qed.

Lemma seg_char_not (c d : ascii) :
  seg_char d = false -> seg_char c = true -> Ascii.eqb d c = false.
Proof.
  intros Hd Hc. destruct (Ascii.eqb d c) eqn:E; [| reflexivity].
  apply Ascii.eqb_eq in E. congruence.
Qed.

(** After an identifier character neither the query nor the slash can
    start. *)
Lemma tail_after_id g c s :
  id_char c = true -> matches re_tail g (c :: s) = [(g, c :: s)].
Proof.
  intros Hc. unfold re_tail. rewrite matches_Cat_Opt.
  unfold re_query. rewrite matches_Cat_Lit, matches_slash. lit.
  now rewrite (@id_char_not c "/") by (reflexivity || exact Hc).
Qed.

Lemma never_full_after_id (l : list thread) :
  Forall (fun th => starts_in id_char (snd th)) l ->
  never_full (flat_map (fun th => matches re_tail (fst th) (snd th)) l).
Proof.
  intros H th Hin. apply in_flat_map in Hin. destruct Hin as (th1 & H1 & H2).
  rewrite Forall_forall in H. destruct (H _ H1) as (c & s' & E & Hc).
  rewrite E, tail_after_id in H2 by exact Hc.
  destruct H2 as [<- | []]. simpl. discriminate.
Qed.

Lemma id_full_first g s : full_first (matches re_id g s).
Proof.
  unfold re_id. cbn [matches]. destruct s as [| c s].
  - intros th [].
  - change (rep id_char (c :: s))
      with (if id_char c then rep id_char s ++ [c :: s] else [c :: s]).
    destruct (id_char c) eqn:Hc.
    + destruct (rep_shape id_char s) as (tl & E & Htl). rewrite E.
      cbn [app filter].
      replace (1 <=? consumed (c :: s) (drop_run id_char s))%nat with true.
      2:{ symmetry. apply Nat.leb_le. unfold consumed.
          pose proof (drop_run_length id_char s).
          change (length (c :: s)) with (S (length s)). lia. }
      cbn [map flat_map fst snd].
      assert (N : never_full
                (flat_map (fun th => matches re_tail (fst th) (snd th))
                   (map (fun th => (Some (firstn (consumed (c :: s) (snd th)) (c :: s)), snd th))
                      (map (fun s' => (g, s'))
                         (filter (fun s' => (1 <=? consumed (c :: s) s')%nat)
                            (tl ++ [c :: s])))))).
      { apply never_full_after_id. rewrite Forall_forall.
        intros th Hin. apply in_map_iff in Hin. destruct Hin as (th1 & <- & Hin).
        apply in_map_iff in Hin. destruct Hin as (s' & <- & Hin).
        apply filter_In in Hin. destruct Hin as [Hin _]. simpl.
        apply in_app_or in Hin. destruct Hin as [Hin | [<- | []]].
        - rewrite Forall_forall in Htl. now apply Htl.
        - now exists c, s. }
      apply full_first_app.
      * apply tail_full_first.
      * now apply never_full_first.
      * now right.
    + cbn [filter]. unfold consumed. rewrite Nat.sub_diag. intros th [].
Qed.

Lemma reel_full_first g s : full_first (matches re_reel g s).
Proof. apply full_first_Cat_Lit. intros s'. apply id_full_first. Qed.

(** The optional path segment can be read in one way at most: up to the
    first character that is not of its class, which must be the slash. *)
Lemma matches_segment g s :
  matches re_segment g s = []
  \/ exists s', matches re_segment g s = [(g, s')]
                /\ drop_run seg_char s = "/" :: s'.
Proof.
  unfold re_segment. cbn [matches]. destruct s as [| c s]; [now left |].
  change (rep seg_char (c :: s))
    with (if seg_char c then rep seg_char s ++ [c :: s] else [c :: s]).
  cbn [drop_run]. destruct (seg_char c) eqn:Hc.
  - destruct (rep_shape seg_char s) as (tl & E & Htl). rewrite E.
    cbn [app filter].
    replace (1 <=? consumed (c :: s) (drop_run seg_char s))%nat with true.
    2:{ symmetry. apply Nat.leb_le. unfold consumed.
        pose proof (drop_run_length seg_char s).
        change (length (c :: s)) with (S (length s)). lia. }
    cbn [map flat_map fst snd]. rewrite flat_map_nil.
    + rewrite app_nil_r. lit.
      destruct (drop_run seg_char s) as [| d s']; [now left |].
      destruct (Ascii.eqb "/" d) eqn:Ed; [| now left].
      apply Ascii.eqb_eq in Ed. subst d. right. now exists s'.
    + intros th Hin. apply in_map_iff in Hin. destruct Hin as (s' & <- & Hin).
      apply filter_In in Hin. destruct Hin as [Hin _].
      assert (S : starts_in seg_char s').
      { apply in_app_or in Hin. destruct Hin as [Hin | [<- | []]].
        - rewrite Forall_forall in Htl. now apply Htl.
        - now exists c, s. }
      destruct S as (d & s'' & -> & Hd). lit.
      now rewrite (@seg_char_not d "/") by (reflexivity || exact Hd).
  - cbn [filter]. unfold consumed. rewrite Nat.sub_diag. now left.
Qed.

Lemma Lang_id_inv s :
  Lang re_id s ->
  exists c tok tl, s = c :: tok ++ tl /\ id_char c = true
                   /\ Forall (fun c => id_char c = true) tok
                   /\ Lang re_tail tl.
Proof.
  intros H. apply Lang_Cat_inv in H. destruct H as (tok & tl & -> & Ht & Hl).
  apply Lang_Grp_inv, Lang_Rep_inv in Ht. destruct Ht as [Ht Hn].
  destruct Ht as [| c tok Hc Ht]; [simpl in Hn; lia |].
  now exists c, tok, tl.
Qed.

Lemma Lang_tail_head c s :
  Lang re_tail (c :: s) -> c = "/" /\ (s = [] \/ exists q, s = "?" :: q).
Proof.
  intros H. apply Lang_tail_inv in H.
  destruct H as [H | [H | (q & H & _)]]; [discriminate | |].
  - injection H as -> ->. auto.
  - injection H as -> ->. split; [reflexivity |]. right. now exists q.
Qed.

(** An identifier cannot be read in full from a text that goes on with
    [reel/] and a further identifier. *)
Lemma no_id_before_reel c s :
  id_char c = true -> ~ Lang re_id (str "reel/" ++ c :: s).
Proof.
  intros Hc L. apply Lang_id_inv in L.
  destruct L as (a & tok & tl & E & Ha & Ht & L).
  cbv [str list_ascii_of_string] in E. cbn [app] in E.
  injection E as <- E.
  repeat (destruct Ht as [| b tok Hb Ht]; cbn [app] in E;
          [ subst tl; apply Lang_tail_head in L;
            destruct L as [L1 [L2 | (q & L2)]];
            try discriminate L1; try discriminate L2;
            injection L2 as L2 _; subst c; discriminate Hc
          | injection E as <- E; try discriminate Hb; clear Hb ]).
Qed.

Lemma Lang_reel_inv s :
  Lang re_reel s -> exists s', s = str "reel/" ++ s' /\ Lang re_id s'.
Proof.
  intros H. apply Lang_Cat_inv in H. destruct H as (a & s' & -> & Ha & H).
  apply Lang_Lit_inv in Ha. subst a. now exists s'.
Qed.

Lemma path_full_first g s : full_first (matches re_path g s).
Proof.
  unfold re_path. rewrite matches_Cat_Opt.
  destruct (matches_segment g s) as [E | (s' & E & D)]; rewrite E;
    cbn [flat_map fst snd app].
  - apply reel_full_first.
  - rewrite app_nil_r. apply full_first_app; try apply reel_full_first.
    destruct (matches re_reel g s') as [| th0 l0] eqn:E0; [now left |].
    right. intros th Hin Hnil.
    (* the segment would be [reel] and an identifier would follow *)
    assert (H0 : In th0 (matches re_reel g s')) by (rewrite E0; now left).
    destruct (matches_sound _ _ _ _ H0) as (pre0 & Hs' & L0).
    apply Lang_reel_inv in L0. destruct L0 as (x0 & -> & L0).
    apply Lang_id_inv in L0. destruct L0 as (c & tok & tl & -> & Hc & _).
    destruct (matches_sound _ _ _ _ Hin) as (pre & Hs & L).
    rewrite Hnil, app_nil_r in Hs. subst pre.
    apply Lang_reel_inv in L. destruct L as (x & -> & L).
    cbv [str list_ascii_of_string] in D. cbn [app drop_run] in D.
    change (seg_char "r") with true in D. change (seg_char "e") with true in D.
    change (seg_char "l") with true in D. change (seg_char "/") with false in D.
    cbv iota in D. injection D as ->. subst s'.
    rewrite <- !app_assoc in L. cbn [app] in L.
    exact (no_id_before_reel Hc L).
Qed.

Lemma domain_full_first g s : full_first (matches re_domain g s).
Proof. apply full_first_Cat_Lit. intros s'. apply path_full_first. Qed.

Lemma host_full_first g s : full_first (matches re_host g s).
Proof.
  apply full_first_Cat_Opt_Lit.
  - intros s'. apply domain_full_first.
  - intros s'. unfold re_domain. now rewrite matches_Cat_Lit.
Qed.

Lemma colon_full_first g s : full_first (matches re_colon g s).
Proof. apply full_first_Cat_Lit. intros s'. apply host_full_first. Qed.

Lemma scheme_full_first g s : full_first (matches re_scheme g s).
Proof.
  apply full_first_Cat_Opt_Lit.
  - intros s'. apply colon_full_first.
  - intros s'. unfold re_colon. now rewrite matches_Cat_Lit.
Qed.

(** The first match of the pattern is the full one whenever there is a
    full one. *)
Lemma pattern_full_first g s :
  full_first (matches INSTAGRAM_REEL_PATTERN g s).
Proof. apply full_first_Cat_Lit. intros s'. apply scheme_full_first. Qed.

Lemma fullmatch_is_match s th :
  fullmatch INSTAGRAM_REEL_PATTERN s = Some th ->
  re_match INSTAGRAM_REEL_PATTERN s = Some th /\ snd th = [].
Proof.
  unfold fullmatch, re_match. intros H. apply find_some in H.
  destruct H as [Hin He]. apply at_end_nil in He.
  split; [| exact He]. now apply pattern_full_first.
Qed.

Lemma search_found r s th : re_match r s = Some th -> search r s = Some th.
Proof. intros H. destruct s; simpl; now rewrite H. Qed.

Lemma pattern_not_empty : search INSTAGRAM_REEL_PATTERN [] = None.
Proof. reflexivity. Qed.

Lemma findall_fuel_nil n : findall_fuel n INSTAGRAM_REEL_PATTERN [] = [].
Proof. destruct n; reflexivity. Qed.

(** A link-only text holds one identifier, the one the full match
    captured. *)
Lemma link_only_one_match s th :
  fullmatch INSTAGRAM_REEL_PATTERN s = Some th ->
  reel_matches s = [group1 th].
Proof.
  intros H. apply fullmatch_is_match in H. destruct H as [H He].
  unfold reel_matches, findall. cbn [findall_fuel].
  rewrite (search_found _ _ H), He. now rewrite findall_fuel_nil.
Qed.

Lemma not_space_eqb c : not_space c = true -> Ascii.eqb c " " = false.
Proof. unfold not_space. now destruct (Ascii.eqb c " "). Qed.

Lemma strip_prefix_before_space (l u v : text) :
  forallb not_space l = true ->
  strip_prefix l (u ++ " " :: v)
  = option_map (fun s' => s' ++ " " :: v) (strip_prefix l u).
Proof.
  revert u. induction l as [| c l IH]; intros u H; [reflexivity |].
  cbn [forallb] in H. apply andb_prop in H. destruct H as [Hc Hl].
  destruct u as [| d u]; cbn [strip_prefix app].
  - now rewrite (not_space_eqb _ Hc).
  - destruct (Ascii.eqb c d); [now apply IH | reflexivity].
Qed.

Lemma rep_before_space (p : ascii -> bool) (u v : text) :
  p " " = false ->
  rep p (u ++ " " :: v) = map (fun s' => s' ++ " " :: v) (rep p u).
Proof.
  intros Hp. induction u as [| c u IH]; cbn [rep app map].
  - now rewrite Hp.
  - destruct (p c); [| reflexivity].
    now rewrite IH, map_app.
Qed.

Lemma consumed_before_space (u s' v : text) :
  consumed (u ++ " " :: v) (s' ++ " " :: v) = consumed u s'.
Proof. unfold consumed. rewrite !length_app. lia. Qed.

Lemma filter_map {A B} (f : B -> bool) (h : A -> B) (l : list A) :
  filter f (map h l) = map h (filter (fun x => f (h x)) l).
Proof.
  induction l as [| x l IH]; simpl; [reflexivity |].
  destruct (f (h x)); simpl; now rewrite IH.
Qed.

Lemma flat_map_map_out {A B C} (f : A -> list B) (h : B -> C) (l : list A) :
  flat_map (fun x => map h (f x)) l = map h (flat_map f l).
Proof.
  induction l as [| x l IH]; simpl; [reflexivity |].
  now rewrite IH, map_app.
Qed.

Lemma flat_map_map_in {A B C} (f : B -> list C) (h : A -> B) (l : list A) :
  flat_map f (map h l) = flat_map (fun x => f (h x)) l.
Proof.
  induction l as [| x l IH]; simpl; [reflexivity |]. now rewrite IH.
Qed.

Lemma matches_suffix r g s th :
  In th (matches r g s) -> length (snd th) <= length s.
Proof.
  intros H. destruct (matches_sound _ _ _ _ H) as (pre & -> & _).
  rewrite length_app. lia.
Qed.

(** The matcher never looks past a space: in front of one it finds what
    it finds in the text before it. *)
Lemma matches_before_space (r : regex) :
  spaceless r = true ->
  forall g u v,
    matches r g (u ++ " " :: v) = map (before v) (matches r g u).
Proof.
  induction r as [l | min p | r1 IH1 r2 IH2 | r IH | r IH];
    cbn [spaceless]; intros S g u v.
  - cbn [matches]. rewrite strip_prefix_before_space by exact S.
    now destruct (strip_prefix l u).
  - cbn [matches]. apply negb_true_iff in S.
    rewrite rep_before_space by exact S.
    rewrite filter_map, !map_map.
    erewrite filter_ext;
      [reflexivity | intros s'; now rewrite consumed_before_space].
  - apply andb_prop in S. destruct S as [S1 S2]. cbn [matches].
    rewrite (IH1 S1), flat_map_map_in, <- flat_map_map_out.
    apply flat_map_ext. intros th. apply (IH2 S2).
  - cbn [matches]. rewrite (IH S), map_app. reflexivity.
  - cbn [matches]. rewrite (IH S), !map_map.
    apply map_ext_in. intros th Hin. unfold before. cbn [fst snd].
    rewrite consumed_before_space, firstn_app.
    replace (consumed u (snd th) - length u) with 0
      by (unfold consumed; lia).
    cbn [firstn]. now rewrite app_nil_r.
Qed.

Lemma pattern_spaceless : spaceless INSTAGRAM_REEL_PATTERN = true.
Proof. reflexivity. Qed.

Lemma re_match_before_space u v :
  re_match INSTAGRAM_REEL_PATTERN (u ++ " " :: v)
  = option_map (before v) (re_match INSTAGRAM_REEL_PATTERN u).
Proof.
  unfold re_match. rewrite matches_before_space by apply pattern_spaceless.
  now destruct (matches INSTAGRAM_REEL_PATTERN None u).
Qed.

Lemma search_before_space u v :
  search INSTAGRAM_REEL_PATTERN (u ++ " " :: v)
  = match search INSTAGRAM_REEL_PATTERN u with
    | Some th => Some (before v th)
    | None => search INSTAGRAM_REEL_PATTERN v
    end.
Proof.
  induction u as [| c u IH].
  - pose proof (re_match_before_space [] v) as H. cbn [app] in H.
    cbn [search app]. rewrite H. reflexivity.
  - pose proof (re_match_before_space (c :: u) v) as H. cbn [app] in H.
    cbn [search app]. rewrite H.
    destruct (re_match INSTAGRAM_REEL_PATTERN (c :: u)); [reflexivity |].
    exact IH.
Qed.

Lemma Lang_pattern_head s :
  Lang INSTAGRAM_REEL_PATTERN s -> exists x, s = str "http" ++ x.
Proof.
  intros H. apply Lang_Cat_inv in H. destruct H as (a & x & -> & Ha & _).
  apply Lang_Lit_inv in Ha. subst a. now exists x.
Qed.

(** A match of the pattern reads at least one character. *)
Lemma re_match_shorter s th :
  re_match INSTAGRAM_REEL_PATTERN s = Some th -> length (snd th) < length s.
Proof.
  unfold re_match. intros H.
  assert (Hin : In th (matches INSTAGRAM_REEL_PATTERN None s)).
  { destruct (matches INSTAGRAM_REEL_PATTERN None s); [discriminate |].
    injection H as ->. now left. }
  destruct (matches_sound _ _ _ _ Hin) as (pre & -> & L).
  apply Lang_pattern_head in L. destruct L as (x & ->).
  rewrite !length_app. change (length (str "http")) with 4. lia.
Qed.

Lemma search_shorter s th :
  search INSTAGRAM_REEL_PATTERN s = Some th -> length (snd th) < length s.
Proof.
  induction s as [| c s IH]; cbn [search].
  - destruct (re_match INSTAGRAM_REEL_PATTERN []) eqn:E; [| discriminate].
    intros H. injection H as ->. now apply re_match_shorter.
  - destruct (re_match INSTAGRAM_REEL_PATTERN (c :: s)) eqn:E.
    + intros H. injection H as ->. now apply re_match_shorter.
    + intros H. apply IH in H. cbn [length]. lia.
Qed.

(** Any fuel above the length of the text gives the same list. *)
Lemma findall_fuel_enough n m s :
  length s < n -> length s < m ->
  findall_fuel n INSTAGRAM_REEL_PATTERN s
  = findall_fuel m INSTAGRAM_REEL_PATTERN s.
Proof.
  revert m s. induction n as [| n IH]; intros m s Hn Hm; [lia |].
  destruct m as [| m]; [lia |]. cbn [findall_fuel].
  destruct (search INSTAGRAM_REEL_PATTERN s) as [th |] eqn:E; [| reflexivity].
  apply search_shorter in E. f_equal. apply IH; lia.
Qed.

Lemma findall_fuel_S n r s :
  findall_fuel (S n) r s
  = match search r s with
    | None => []
    | Some th => group1 th :: findall_fuel n r (snd th)
    end.
Proof. reflexivity. Qed.

Lemma findall_step s :
  reel_matches s
  = match search INSTAGRAM_REEL_PATTERN s with
    | None => []
    | Some th => group1 th :: reel_matches (snd th)
    end.
Proof.
  unfold reel_matches, findall. rewrite findall_fuel_S.
  destruct (search INSTAGRAM_REEL_PATTERN s) as [th |] eqn:E; [| reflexivity].
  apply search_shorter in E. f_equal. apply findall_fuel_enough; lia.
Qed.

Lemma reel_matches_after_space v : reel_matches (" " :: v) = reel_matches v.
Proof.
  rewrite (findall_step (" " :: v)), (findall_step v).
  pose proof (search_before_space [] v) as H. cbn [app] in H.
  rewrite H. reflexivity.
Qed.

(** A link-only word in front of a space: its identifier, then those of
    the text after the space. *)
Lemma reel_matches_link w v :
  is_link_only w = true ->
  exists th, fullmatch INSTAGRAM_REEL_PATTERN w = Some th
             /\ reel_matches (w ++ " " :: v) = group1 th :: reel_matches v.
Proof.
  unfold is_link_only.
  destruct (fullmatch INSTAGRAM_REEL_PATTERN w) as [th |] eqn:E;
    [| discriminate].
  intros _. exists th. split; [reflexivity |].
  apply fullmatch_is_match in E. destruct E as [E He].
  rewrite findall_step, search_before_space, (search_found _ _ E).
  unfold before. rewrite He. cbn [snd app].
  now rewrite reel_matches_after_space.
Qed.

(** A word with no link in front of a space adds nothing. *)
Lemma reel_matches_other w v :
  reel_matches w = [] -> reel_matches (w ++ " " :: v) = reel_matches v.
Proof.
  intros H. rewrite findall_step in H.
  rewrite (findall_step (w ++ " " :: v)), search_before_space.
  destruct (search INSTAGRAM_REEL_PATTERN w); [discriminate |].
  now rewrite <- findall_step.
Qed.

(** *** What group 1 holds *)

Lemma id_holds g s th :
  In th (matches re_id g s) ->
  exists tok tl,
    s = tok ++ tl ++ snd th
    /\ fst th = Some tok
    /\ tok <> []
    /\ Forall (fun c => id_char c = true) tok
    /\ Lang re_tail tl.
Proof.
  unfold re_id. cbn [matches]. intros H.
  apply in_flat_map in H. destruct H as (th1 & H1 & H2).
  apply in_map_iff in H1. destruct H1 as (th0 & <- & H1).
  apply in_map_iff in H1. destruct H1 as (s' & <- & H1).
  apply filter_In in H1. destruct H1 as [H1 Hmin].
  destruct (rep_inv _ _ _ H1) as (tok & -> & Htok).
  cbn [fst snd] in *. rewrite firstn_consumed in H2.
  rewrite consumed_app in Hmin. apply Nat.leb_le in Hmin.
  assert (G : groupless re_tail = true) by reflexivity.
  pose proof (groupless_keeps re_tail G _ _ _ H2) as Hg.
  destruct (matches_sound _ _ _ _ H2) as (tl & -> & L).
  exists tok, tl. repeat split; try assumption.
  intros ->. cbn in Hmin. lia.
Qed.

Lemma reel_holds g s th :
  In th (matches re_reel g s) -> holds_identifier s th.
Proof.
  unfold re_reel. rewrite matches_Cat_Lit.
  destruct (strip_prefix (str "reel/") s) as [s' |] eqn:E; [| intros []].
  apply strip_prefix_inv in E. subst s. intros H.
  destruct (id_holds _ _ _ H) as (tok & tl & -> & H1 & H2 & H3 & H4).
  exists [], tok, tl. now repeat split.
Qed.

(** What stands in front of the link does not change what it holds. *)
Lemma holds_after (a b : regex) :
  groupless a = true ->
  (forall g s th, In th (matches b g s) -> holds_identifier s th) ->
  forall g s th, In th (matches (Cat a b) g s) -> holds_identifier s th.
Proof.
  intros G Hb g s th H. cbn [matches] in H.
  apply in_flat_map in H. destruct H as (th1 & H1 & H2).
  destruct (matches_sound _ _ _ _ H1) as (pa & -> & _).
  destruct (Hb _ _ _ H2) as (pre & tok & tl & E & H3).
  exists (pa ++ pre), tok, tl. split; [| exact H3].
  rewrite E. now rewrite <- !app_assoc.
Qed.

Lemma pattern_holds g s th :
  In th (matches INSTAGRAM_REEL_PATTERN g s) -> holds_identifier s th.
Proof.
  revert g s th.
  do 6 (apply holds_after; [reflexivity |]).
  apply reel_holds.
Qed.

(** *** Claims about extraction *)

Lemma Lang_spaceless (r : regex) (s : text) :
  spaceless r = true -> Lang r s -> Forall (fun c => not_space c = true) s.
Proof.
  intros S L. revert S.
  induction L as [l | min p s Hp Hmin | r1 r2 s1 s2 _ IH1 _ IH2
                  | r | r s _ IH | r s _ IH]; cbn [spaceless]; intros S.
  - rewrite forallb_forall in S. now apply Forall_forall.
  - apply negb_true_iff in S. rewrite Forall_forall in *.
    intros c Hc. specialize (Hp c Hc). unfold not_space.
    destruct (Ascii.eqb c " ") eqn:E; [| reflexivity].
    apply Ascii.eqb_eq in E. congruence.
  - apply andb_prop in S. apply Forall_app. split; tauto.
  - constructor.
  - now apply IH.
  - now apply IH.
Qed.

Lemma is_link_only_Lang (body : text) :
  is_link_only body = true <-> Lang INSTAGRAM_REEL_PATTERN body.
Proof.
  rewrite <- fullmatch_Lang. unfold is_link_only.
  destruct (fullmatch INSTAGRAM_REEL_PATTERN body) as [th |]; split;
    try discriminate; try reflexivity.
  - intros _. now exists th.
  - intros [th H]. discriminate H.
Qed.

(** C9. On a text for which [is_link_only] holds, extraction yields
    exactly one identifier: group 1 of the match of the whole text, which
    is the token of that link, the characters between its [reel/] and its
    query or closing slash. *)
Theorem link_only_single_identifier (body : text) :
  is_link_only body = true ->
  exists th,
    fullmatch INSTAGRAM_REEL_PATTERN body = Some th
    /\ reel_matches body = [group1 th]
    /\ exists pre tl,
         body = (pre ++ str "reel/") ++ group1 th ++ tl
         /\ group1 th <> []
         /\ Forall (fun c => id_char c = true) (group1 th)
         /\ Lang re_tail tl.
Proof.
  unfold is_link_only.
  destruct (fullmatch INSTAGRAM_REEL_PATTERN body) as [th |] eqn:E;
    [| discriminate].
  intros _. exists th. split; [reflexivity |]. split.
  - now apply link_only_one_match.
  - unfold fullmatch in E. apply find_some in E. destruct E as [Hin He].
    apply at_end_nil in He.
    destruct (pattern_holds _ _ _ Hin) as (pre & tok & tl & Hs & Hg & H).
    exists pre, tl. unfold group1. rewrite Hg.
    rewrite He, app_nil_r in Hs. now split.
Qed.

(** The link of scenario B, on its own. *)
Lemma link_only_single_identifier_witness :
  exists th,
    fullmatch INSTAGRAM_REEL_PATTERN (str "https://www.instagram.com/reel/XYZ/")
    = Some th
    /\ reel_matches (str "https://www.instagram.com/reel/XYZ/") = [group1 th]
    /\ exists pre tl,
         str "https://www.instagram.com/reel/XYZ/"
         = (pre ++ str "reel/") ++ group1 th ++ tl
         /\ group1 th <> []
         /\ Forall (fun c => id_char c = true) (group1 th)
         /\ Lang re_tail tl.
Proof.
  apply (link_only_single_identifier (str "https://www.instagram.com/reel/XYZ/")).
  vm_compute. reflexivity.
Defined.

(** C7, as the code has it.  In a text of words set apart by spaces, of
    which some are reel links and the others hold nothing the pattern
    finds, extraction returns the identifiers of the links, one for each,
    in the order of the words, whatever the other words are. *)
Theorem reel_matches_words (ws : list word) :
  Forall well_formed ws ->
  reel_matches (unwords ws) = identifiers ws
  /\ length (reel_matches (unwords ws)) = links_in ws.
Proof.
  intros H.
  assert (E : reel_matches (unwords ws) = identifiers ws).
  { induction H as [| x ws Hx Hws IH]; [reflexivity |].
    cbn [unwords]. destruct ws as [| y ws].
    - destruct x as [w | w]; cbn [word_text identifiers well_formed] in *.
      + unfold identifier_of. unfold is_link_only in Hx.
        destruct (fullmatch INSTAGRAM_REEL_PATTERN w) as [th |] eqn:E;
          [| discriminate].
        now apply link_only_one_match.
      + exact Hx.
    - destruct x as [w | w]; cbn [well_formed] in Hx;
        cbn [word_text].
      + destruct (@reel_matches_link w (unwords (y :: ws)) Hx) as (th & E & ->).
        cbn [identifiers]. unfold identifier_of. rewrite E. now rewrite IH.
      + cbn [identifiers]. now rewrite reel_matches_other. }
  split; [exact E |]. rewrite E. clear.
  induction ws as [| [w | w] ws IH]; cbn [identifiers links_in length];
    congruence.
Qed.

(** Two links among two other words. *)
Lemma reel_matches_words_witness :
  reel_matches
    (unwords [ Other (str "check"); Link (str "https://www.instagram.com/reel/XYZ/");
               Other (str "and"); Link (str "http://instagram.com/user.name/reel/A_b-9/?x=1") ])
  = [str "XYZ"; str "A_b-9"]
  /\ length
       (reel_matches
          (unwords [ Other (str "check"); Link (str "https://www.instagram.com/reel/XYZ/");
                     Other (str "and"); Link (str "http://instagram.com/user.name/reel/A_b-9/?x=1") ]))
     = 2.
Proof.
  apply (@reel_matches_words
           [ Other (str "check"); Link (str "https://www.instagram.com/reel/XYZ/");
             Other (str "and"); Link (str "http://instagram.com/user.name/reel/A_b-9/?x=1") ]).
  repeat constructor.
Defined.

(** C7 as stated fails: two well-formed links with a line break between
    them, or with nothing between them, yield one identifier, while the
    same two links with a space between them yield two. *)
Lemma reel_matches_unseparated :
  is_link_only (str "https://instagram.com/reel/ABC/?igsh=1") = true
  /\ is_link_only (str "https://instagram.com/reel/DEF") = true
  /\ reel_matches ["010"] = []
  /\ reel_matches (str "https://instagram.com/reel/ABC/?igsh=1" ++ ["010"]
                   ++ str "https://instagram.com/reel/DEF")
     = [str "ABC"]
  /\ reel_matches (str "https://instagram.com/reel/DEF"
                   ++ str "https://instagram.com/reel/ABC/?igsh=1")
     = [str "DEFhttps"]
  /\ reel_matches (str "https://instagram.com/reel/ABC/?igsh=1" ++ [" "]
                   ++ str "https://instagram.com/reel/DEF")
     = [str "ABC"; str "DEF"].
Proof. vm_compute. repeat split; reflexivity. Qed.

(** C5, as the code has it.  [is_link_only] holds exactly when the text
    of the message, as it stands, is in the language of the pattern; a
    further character in front of such a text makes it false, and so does
    a space anywhere in the text. *)
Theorem is_link_only_whole_text (body : text) :
  (is_link_only body = true <-> Lang INSTAGRAM_REEL_PATTERN body)
  /\ (forall c, is_link_only body = true -> is_link_only (c :: body) = false)
  /\ (In " " body -> is_link_only body = false).
Proof.
  split; [apply is_link_only_Lang |]. split.
  - intros c H. apply is_link_only_Lang, Lang_pattern_head in H.
    destruct H as (x & ->).
    destruct (is_link_only (c :: str "http" ++ x)) eqn:E; [| reflexivity].
    apply is_link_only_Lang, Lang_pattern_head in E.
    destruct E as (y & E). discriminate E.
  - intros Hin.
    destruct (is_link_only body) eqn:E; [| reflexivity].
    apply is_link_only_Lang, (Lang_spaceless pattern_spaceless) in E.
    rewrite Forall_forall in E. specialize (E _ Hin). discriminate E.
Qed.

(** The link of scenario A, then with a character in front, then with a
    space behind. *)
Lemma is_link_only_whole_text_witness :
  is_link_only (str "https://instagram.com/reel/ABC123") = true
  /\ is_link_only ("x" :: str "https://instagram.com/reel/ABC123") = false
  /\ is_link_only (str "https://instagram.com/reel/ABC123 ") = false.
Proof.
  destruct (is_link_only_whole_text (str "https://instagram.com/reel/ABC123"))
    as (_ & Hlead & _).
  split; [vm_compute; reflexivity |]. split.
  - apply Hlead. vm_compute. reflexivity.
  - apply (is_link_only_whole_text (str "https://instagram.com/reel/ABC123 ")).
    vm_compute. tauto.
Defined.

(** C5 as stated fails: with a space in front, the trimmed text is a
    link in full and [is_link_only] is false; with a slash or a further
    identifier character behind a link, [is_link_only] stays true. *)
Lemma is_link_only_not_trimmed :
  Lang INSTAGRAM_REEL_PATTERN
       (trimmed (str " https://instagram.com/reel/ABC123"))
  /\ is_link_only (str " https://instagram.com/reel/ABC123") = false
  /\ is_link_only (str "https://instagram.com/reel/ABC123") = true
  /\ is_link_only (str "https://instagram.com/reel/ABC123" ++ ["/"]) = true
  /\ is_link_only (str "https://instagram.com/reel/ABC123" ++ ["4"]) = true.
Proof.
  split.
  - apply is_link_only_Lang. vm_compute. reflexivity.
  - vm_compute. repeat split; reflexivity.
Qed.

(** ** The retrying fetcher *)

Lemma attempts_in_app (t1 t2 : list event) :
  attempts_in (t1 ++ t2) = attempts_in t1 + attempts_in t2.
Proof. unfold attempts_in. now rewrite filter_app, length_app. Qed.

Section Fetcher.

Variable p : provider.
Variable shortcode : text.

Lemma fetch_once_frame (a : attempt) (t : list event) :
  fetch_once a shortcode t
  = (attempt_result a shortcode, t ++ attempt_calls a shortcode).
Proof.
  unfold attempt_result, attempt_calls, run, fetch_once, bind,
    Post_from_shortcode, perform, check_file, raise, ret.
  destruct a as [[e | [[|]]] [d |] [n |]]; simpl;
    try destruct (n =? 0)%Z; simpl;
    rewrite <- ?app_assoc, ?app_nil_r; reflexivity.
Qed.

Lemma attempt_calls_one_attempt (a : attempt) :
  attempts_in (attempt_calls a shortcode) = 1
  /\ sleeps_in (attempt_calls a shortcode) = 0.
Proof.
  unfold attempts_in, sleeps_in, attempt_calls, run, fetch_once, bind,
    Post_from_shortcode, perform, check_file, raise, ret.
  destruct a as [[e | [[|]]] [d |] [n |]]; simpl;
    try destruct (n =? 0)%Z; simpl; auto.
Qed.

Lemma attempt_result_fueled (a : attempt) :
  attempt_result a shortcode <> OutOfFuel.
Proof.
  unfold attempt_result, run, fetch_once, bind,
    Post_from_shortcode, perform, check_file, raise, ret.
  destruct a as [[e | [[|]]] [d |] [n |]]; simpl;
    try destruct (n =? 0)%Z; simpl; discriminate.
Qed.

(** One turn of the loop whose attempt fails. *)
Lemma retry_loop_failed (fuel : nat) (k : Z) (le : option text)
    (e : exn) (t : list event) :
  (k <= MAX_RETRIES)%Z ->
  attempt_result (p k) shortcode = Raise e ->
  retry_loop (S fuel) p shortcode k le t
  = retry_loop fuel p shortcode (k + 1)
      (Some (captured e shortcode))
      (t ++ attempt_calls (p k) shortcode
         ++ (if (k + 1 <=? MAX_RETRIES)%Z then [(sleep RETRY_DELAY, true)] else [])).
Proof.
  intros Hk He. simpl.
  apply Z.leb_le in Hk. rewrite Hk.
  unfold bind at 1, try_except, bind at 1.
  rewrite fetch_once_frame, He. simpl.
  unfold bind, perform, ret.
  destruct (k + 1 <=? MAX_RETRIES)%Z; simpl.
  - now rewrite <- app_assoc.
  - now rewrite app_nil_r.
Qed.

(** One turn of the loop whose attempt succeeds. *)
Lemma retry_loop_fetched (fuel : nat) (k : Z) (le : option text)
    (video_path : text) (t : list event) :
  (k <= MAX_RETRIES)%Z ->
  attempt_result (p k) shortcode = Return video_path ->
  retry_loop (S fuel) p shortcode k le t
  = (Return video_path, t ++ attempt_calls (p k) shortcode).
Proof.
  intros Hk He. simpl.
  apply Z.leb_le in Hk. rewrite Hk.
  unfold bind at 1, try_except, bind at 1.
  rewrite fetch_once_frame, He. reflexivity.
Qed.

End Fetcher.

(** C1. When every one of the [MAX_RETRIES] attempts fails,
    [download_reel] raises one [ErrorDownload]; it carries the text
    captured from the last attempt's exception and the count
    [MAX_RETRIES + 1], and nothing of the earlier exceptions.  The run
    makes three attempts, with a suspension after the first and after the
    second. *)
Theorem download_reel_exhausted (p : provider) (shortcode : text)
    (t : list event) :
  (forall k, (1 <= k <= MAX_RETRIES)%Z ->
             exists e, attempt_result (p k) shortcode = Raise e) ->
  exists e_last,
    attempt_result (p MAX_RETRIES) shortcode = Raise e_last
    /\ download_reel p shortcode t
       = (Raise (ErrorDownload (Some (captured e_last shortcode))
                               (MAX_RETRIES + 1)),
          t ++ three_attempts p shortcode)
    /\ attempts_in (three_attempts p shortcode) = Z.to_nat MAX_RETRIES.
Proof.
  intros Hfail.
  destruct (Hfail 1%Z) as [e1 H1]; [unfold MAX_RETRIES; lia |].
  destruct (Hfail 2%Z) as [e2 H2]; [unfold MAX_RETRIES; lia |].
  destruct (Hfail 3%Z) as [e3 H3]; [unfold MAX_RETRIES; lia |].
  exists e3. split; [exact H3 |]. split.
  - unfold download_reel.
    change (Z.to_nat MAX_RETRIES) with 3.
    rewrite retry_loop_failed with (e := e1) by (exact H1 || (unfold MAX_RETRIES; lia)).
    rewrite retry_loop_failed with (e := e2) by (exact H2 || (unfold MAX_RETRIES; lia)).
    rewrite retry_loop_failed with (e := e3) by (exact H3 || (unfold MAX_RETRIES; lia)).
    simpl. unfold raise, three_attempts.
    now rewrite app_nil_r, <- !app_assoc.
  - unfold three_attempts. rewrite !attempts_in_app.
    destruct (attempt_calls_one_attempt shortcode (p 1%Z)) as [-> _].
    destruct (attempt_calls_one_attempt shortcode (p 2%Z)) as [-> _].
    destruct (attempt_calls_one_attempt shortcode (p 3%Z)) as [-> _].
    reflexivity.
Qed.

(** A provider whose lookup fails at every attempt. *)
Lemma download_reel_exhausted_witness :
  exists e_last,
    attempt_result (never_fetched MAX_RETRIES) (str "ABC123") = Raise e_last
    /\ download_reel never_fetched (str "ABC123") []
       = (Raise (ErrorDownload (Some (captured e_last (str "ABC123")))
                               (MAX_RETRIES + 1)),
          [] ++ three_attempts never_fetched (str "ABC123"))
    /\ attempts_in (three_attempts never_fetched (str "ABC123"))
       = Z.to_nat MAX_RETRIES.
Proof.
  apply (download_reel_exhausted never_fetched (str "ABC123") []).
  intros k _. unfold never_fetched.
  destruct (k =? 3)%Z; eexists; reflexivity.
Defined.

(** C6. When the first and the second attempt fail and the third
    succeeds, [download_reel] returns the third attempt's file, having
    made exactly three attempts; exactly one suspension of [RETRY_DELAY]
    lies between the second and the third attempt, and no call follows
    the successful attempt. *)
Theorem download_reel_third_attempt (p : provider) (shortcode : text)
    (t : list event) (e1 e2 : exn) (video_path : text) :
  attempt_result (p 1%Z) shortcode = Raise e1 ->
  attempt_result (p 2%Z) shortcode = Raise e2 ->
  attempt_result (p 3%Z) shortcode = Return video_path ->
  download_reel p shortcode t
  = (Return video_path,
     t ++ attempt_calls (p 1%Z) shortcode ++ [(sleep RETRY_DELAY, true)]
       ++ attempt_calls (p 2%Z) shortcode ++ [(sleep RETRY_DELAY, true)]
       ++ attempt_calls (p 3%Z) shortcode)
  /\ attempts_in (three_attempts p shortcode) = 3
  /\ sleeps_in (attempt_calls (p 2%Z) shortcode) = 0
  /\ sleeps_in (attempt_calls (p 3%Z) shortcode) = 0.
Proof.
  intros H1 H2 H3. split; [| split; [| split]].
  - unfold download_reel.
    change (Z.to_nat MAX_RETRIES) with 3.
    rewrite retry_loop_failed with (e := e1) by (exact H1 || (unfold MAX_RETRIES; lia)).
    rewrite retry_loop_failed with (e := e2) by (exact H2 || (unfold MAX_RETRIES; lia)).
    rewrite retry_loop_fetched with (video_path := video_path)
      by (exact H3 || (unfold MAX_RETRIES; lia)).
    simpl. now rewrite <- !app_assoc.
  - unfold three_attempts. rewrite !attempts_in_app.
    destruct (attempt_calls_one_attempt shortcode (p 1%Z)) as [-> _].
    destruct (attempt_calls_one_attempt shortcode (p 2%Z)) as [-> _].
    destruct (attempt_calls_one_attempt shortcode (p 3%Z)) as [-> _].
    reflexivity.
  - apply attempt_calls_one_attempt.
  - apply attempt_calls_one_attempt.
Qed.

(** A provider whose lookup fails twice and then finds the video. *)
Lemma download_reel_third_attempt_witness :
  download_reel fetched_at_third (str "ABC123") []
  = (Return (str "temp_downloads/ABC123.mp4"),
     [ (from_shortcode (str "ABC123"), false); (sleep RETRY_DELAY, true);
       (from_shortcode (str "ABC123"), false); (sleep RETRY_DELAY, true);
       (from_shortcode (str "ABC123"), true);
       (download_post (str "ABC123") TEMP_DIR, true) ]).
Proof.
  exact (proj1 (download_reel_third_attempt fetched_at_third (str "ABC123") []
                  (e1 := OtherException (str "not yet"))
                  (e2 := OtherException (str "not yet"))
                  eq_refl eq_refl eq_refl)).
Defined.

Lemma framed_ret {A} (a : A) : framed (ret a).
Proof. intros t. unfold run, ret. simpl. now rewrite app_nil_r. Qed.

Lemma framed_raise {A} (e : exn) : framed (@raise A e).
Proof. intros t. unfold run, raise. simpl. now rewrite app_nil_r. Qed.

Lemma framed_perform (c : call) (o : option exn) : framed (perform c o).
Proof. intros t. unfold run, perform. now destruct o. Qed.

Lemma framed_bind {A B} (m : M A) (k : A -> M B) :
  framed m -> (forall a, framed (k a)) -> framed (bind m k).
Proof.
  intros Hm Hk t. unfold run, bind. rewrite (Hm t).
  destruct (m []) as [[a | e |] t1] eqn:E; unfold run; rewrite E; simpl.
  - rewrite (Hk a (t ++ t1)), (Hk a t1). simpl. now rewrite app_assoc.
  - reflexivity.
  - reflexivity.
Qed.

Lemma framed_try_except {A} (body : M A) (catches : exn -> bool)
    (handler : exn -> M A) :
  framed body -> (forall e, framed (handler e)) ->
  framed (try_except body catches handler).
Proof.
  intros Hb Hh t. unfold run, try_except. rewrite (Hb t).
  destruct (body []) as [[a | e |] t1] eqn:E; unfold run; rewrite E; simpl.
  - reflexivity.
  - destruct (catches e); [| reflexivity].
    rewrite (Hh e (t ++ t1)), (Hh e t1). simpl. now rewrite app_assoc.
  - reflexivity.
Qed.

Lemma framed_fetch_once a shortcode : framed (fetch_once a shortcode).
Proof. intros t. apply fetch_once_frame. Qed.

Lemma framed_retry_loop fuel p shortcode :
  forall k le, framed (retry_loop fuel p shortcode k le).
Proof.
  induction fuel as [| fuel IH]; intros k le; cbn [retry_loop].
  - destruct (k <=? MAX_RETRIES)%Z; [| apply framed_raise].
    intros t. unfold run. simpl. now rewrite app_nil_r.
  - destruct (k <=? MAX_RETRIES)%Z; [| apply framed_raise].
    apply framed_bind.
    + apply framed_try_except.
      * apply framed_bind; [apply framed_fetch_once |].
        intros a. apply framed_ret.
      * intros e. apply framed_ret.
    + intros [video_path | le']; [apply framed_ret |].
      apply framed_bind; [| intros _; apply IH].
      destruct (k + 1 <=? MAX_RETRIES)%Z;
        [apply framed_perform | apply framed_ret].
Qed.

Lemma download_reel_frame p shortcode t :
  download_reel p shortcode t
  = (fetch_result p shortcode, t ++ fetch_calls p shortcode).
Proof. apply (framed_retry_loop _ p shortcode 1%Z None t). Qed.

Lemma attempt_calls_inert a shortcode :
  forallb is_fetch_call (attempt_calls a shortcode) = true.
Proof.
  unfold attempt_calls, run, fetch_once, bind,
    Post_from_shortcode, perform, check_file, raise, ret.
  destruct a as [[e | [[|]]] [d |] [n |]]; simpl;
    try destruct (n =? 0)%Z; reflexivity.
Qed.

Lemma attempt_result_cases a shortcode :
  (exists video_path, attempt_result a shortcode = Return video_path)
  \/ (exists e, attempt_result a shortcode = Raise e).
Proof.
  destruct (attempt_result a shortcode) as [v | e |] eqn:E.
  - left. now exists v.
  - right. now exists e.
  - now destruct (attempt_result_fueled shortcode a).
Qed.

Lemma retry_loop_inert p shortcode fuel :
  forall k le t,
    forallb is_fetch_call t = true ->
    forallb is_fetch_call (snd (retry_loop fuel p shortcode k le t)) = true.
Proof.
  induction fuel as [| fuel IH]; intros k le t Ht.
  - cbn [retry_loop]. now destruct (k <=? MAX_RETRIES)%Z.
  - destruct (Z.leb_spec k MAX_RETRIES) as [Hk | Hk].
    + destruct (attempt_result_cases (p k) shortcode) as [[v Hv] | [e He]].
      * rewrite retry_loop_fetched with (video_path := v) by assumption.
        cbn [snd]. rewrite forallb_app, Ht. apply attempt_calls_inert.
      * rewrite retry_loop_failed with (e := e) by assumption.
        apply IH. rewrite !forallb_app, Ht, attempt_calls_inert.
        now destruct (k + 1 <=? MAX_RETRIES)%Z.
    + cbn [retry_loop]. apply Z.leb_gt in Hk. now rewrite Hk.
Qed.

Lemma fetch_calls_inert p shortcode :
  forallb is_fetch_call (fetch_calls p shortcode) = true.
Proof. now apply retry_loop_inert. Qed.

Lemma retry_loop_fueled p shortcode fuel :
  forall k le t,
    (MAX_RETRIES + 1 - k <= Z.of_nat fuel)%Z ->
    fst (retry_loop fuel p shortcode k le t) <> OutOfFuel.
Proof.
  induction fuel as [| fuel IH]; intros k le t Hf.
  - cbn [retry_loop]. destruct (Z.leb_spec k MAX_RETRIES); [lia | discriminate].
  - destruct (Z.leb_spec k MAX_RETRIES) as [Hk | Hk].
    + destruct (attempt_result_cases (p k) shortcode) as [[v Hv] | [e He]].
      * rewrite retry_loop_fetched with (video_path := v) by assumption.
        discriminate.
      * rewrite retry_loop_failed with (e := e) by assumption.
        apply IH. lia.
    + cbn [retry_loop]. apply Z.leb_gt in Hk. rewrite Hk. discriminate.
Qed.

(** [download_reel] always ends: it returns a path or raises. *)
Lemma download_reel_total p shortcode :
  fetch_result p shortcode <> OutOfFuel.
Proof. apply retry_loop_fueled. unfold MAX_RETRIES. lia. Qed.

(** ** The permission gate *)

Lemma truthy_Some (b : bool) : truthy (Some b) = b.
Proof. now destruct b. Qed.

Lemma has_rights_all (m : ChatMember) :
  has_rights m required_rights = all_capabilities m.
Proof.
  unfold required_rights, all_capabilities. cbn [has_rights].
  destruct (can_send_messages m) as [[|] |],
    (can_send_media_messages m) as [[|] |],
    (can_send_other_messages m) as [[|] |]; reflexivity.
Qed.

(** C2, as the code has it.  For a chat that is private the gate
    answers [True] and makes no call.  For any other chat it makes one
    lookup; a membership record is judged by the rules in their order (a
    supergroup administrator is authorized whatever its flags; an
    administrator record is authorized exactly when the three required
    capabilities are present and true; a plain member is authorized;
    any other status is denied).  A lookup that raises [BadRequest] is
    denied; any other exception is raised on to the caller. *)
Theorem check_bot_permissions_rules (w : world) (update : Update)
    (chat : Chat) (t : list event) :
  effective_chat update = Some chat ->
  (chat_type chat = PRIVATE ->
     check_bot_permissions w update t = (Return (Some true), t))
  /\ (chat_type chat <> PRIVATE ->
      forall m, on_get_member w = inr m ->
        exists allowed,
          check_bot_permissions w update t
          = (Return allowed, t ++ [(get_member (chat_id chat), true)])
          /\ truthy allowed = member_authorized chat m)
  /\ (chat_type chat <> PRIVATE ->
      forall e, on_get_member w = inl e ->
        check_bot_permissions w update t
        = (if is_BadRequest e then Return (Some false) else Raise e,
           t ++ [(get_member (chat_id chat), false)])).
Proof.
  intros Hc. unfold check_bot_permissions, try_except, bind, chat_get_member,
    ret.
  rewrite Hc. repeat split.
  - intros ->. reflexivity.
  - intros Hp m Hm. rewrite Hm.
    replace (ChatType_eqb (chat_type chat) PRIVATE) with false
      by (destruct (chat_type chat) eqn:E; (reflexivity || congruence)).
    unfold member_authorized. rewrite <- has_rights_all.
    destruct (chat_type chat), (status m), (is_ChatMemberAdministrator m);
      try contradiction;
      cbn [ChatType_eqb ChatMemberStatus_eqb andb];
      eexists; (split; [reflexivity |]); rewrite ?truthy_Some; reflexivity.
  - intros Hp e He. rewrite He.
    replace (ChatType_eqb (chat_type chat) PRIVATE) with false
      by (destruct (chat_type chat) eqn:E; (reflexivity || congruence)).
    now destruct (is_BadRequest e).
Qed.

(** An administrator with the three capabilities, in a group. *)
Lemma check_bot_permissions_rules_witness :
  exists allowed,
    check_bot_permissions channel_world (sent_to_group link_alone) []
    = (Return allowed, [] ++ [(get_member (chat_id group_chat), true)])
    /\ truthy allowed = member_authorized group_chat full_administrator.
Proof.
  destruct (@check_bot_permissions_rules channel_world
              (sent_to_group link_alone) group_chat [] eq_refl)
    as (_ & H & _).
  apply H; [discriminate | reflexivity].
Defined.

(** C2 as stated fails: a lookup that times out is not denied; the
    exception leaves the gate, and the handler with it. *)
Lemma lookup_timeout_propagates :
  run (check_bot_permissions lookup_times_out (sent_to_group link_alone))
  = (Raise timed_out, [(get_member 7, false)])
  /\ run (handle_message lookup_times_out (sent_to_group link_alone))
     = (Raise timed_out, [(get_member 7, false)]).
Proof. split; vm_compute; reflexivity. Qed.

(** ** The dispatcher *)

Lemma perform_run c o t : perform c o t = (outcome o, t ++ [(c, returned o)]).
Proof. unfold perform. now destruct o. Qed.

Lemma deliver_reel_run w update em link_only i reel_id t :
  deliver_reel w update em link_only i reel_id t
  = (fst (delivery w update em link_only i reel_id),
     t ++ snd (delivery w update em link_only i reel_id)).
Proof.
  unfold deliver_reel, delivery, bind, chat_of, ret, raise.
  destruct (message update) as [m |]; cbn [fst snd];
    [| now rewrite app_nil_r].
  rewrite perform_run.
  destruct (on_chat_action_before w i) as [e |]; cbn [outcome returned fst snd];
    [reflexivity |].
  rewrite download_reel_frame.
  destruct (fetch_result (on_fetch w i) reel_id) as [video_path | e |];
    cbn [fst snd]; rewrite <- ?app_assoc; try reflexivity.
  rewrite perform_run.
  destruct (on_chat_action_after w i) as [e |]; cbn [outcome returned fst snd];
    [now rewrite <- !app_assoc |].
  destruct link_only.
  - rewrite perform_run.
    destruct (on_send_video w i) as [e |]; cbn [outcome returned fst snd];
      [now rewrite <- !app_assoc |].
    rewrite perform_run.
    destruct (on_delete w i) as [e |]; cbn [outcome returned fst snd];
      [now rewrite <- !app_assoc |].
    destruct (from_user em); cbn [fst snd]; now rewrite <- !app_assoc.
  - rewrite perform_run.
    destruct (on_reply_video w i) as [e |]; cbn [outcome returned fst snd];
      [now rewrite <- !app_assoc |].
    destruct (from_user em); cbn [fst snd]; now rewrite <- !app_assoc.
Qed.

Lemma handle_reel_run w update em link_only i reel_id t :
  handle_reel w update em link_only i reel_id t
  = (fst (turn w update em link_only i reel_id),
     t ++ snd (turn w update em link_only i reel_id)).
Proof.
  unfold handle_reel, try_except, turn. rewrite deliver_reel_run.
  destruct (delivery w update em link_only i reel_id) as [[[] | e |] calls];
    cbn [fst snd]; try reflexivity.
  unfold any_Exception. rewrite perform_run. unfold thumbs_down.
  now rewrite <- app_assoc.
Qed.

Lemma for_reels_run w update em link_only reel_ids :
  forall i t,
    for_reels w update em link_only i reel_ids t
    = (fst (turns w update em link_only i reel_ids),
       t ++ snd (turns w update em link_only i reel_ids)).
Proof.
  induction reel_ids as [| reel_id rest IH]; intros i t; cbn [for_reels turns].
  - unfold ret. cbn [fst snd]. now rewrite app_nil_r.
  - unfold bind. rewrite handle_reel_run.
    destruct (turn w update em link_only i reel_id) as [[[] | e |] calls];
      cbn [fst snd]; try reflexivity.
    rewrite IH. cbn [fst snd]. now rewrite app_assoc.
Qed.

Lemma delivery_fueled w update em link_only i reel_id :
  fst (delivery w update em link_only i reel_id) <> OutOfFuel.
Proof.
  unfold delivery.
  destruct (message update); [| discriminate].
  destruct (on_chat_action_before w i); [discriminate |].
  pose proof (@download_reel_total (on_fetch w i) reel_id) as F.
  destruct (fetch_result (on_fetch w i) reel_id); try discriminate;
    [| contradiction].
  destruct (on_chat_action_after w i); [discriminate |].
  destruct link_only, (on_send_video w i), (on_delete w i),
    (on_reply_video w i), (from_user em); discriminate.
Qed.

(** A turn returns unless the request for the reaction raises. *)
Lemma turn_returns w update em link_only i reel_id :
  on_set_reaction w i = None ->
  fst (turn w update em link_only i reel_id) = Return tt.
Proof.
  intros H. unfold turn.
  pose proof (@delivery_fueled w update em link_only i reel_id) as F.
  destruct (delivery w update em link_only i reel_id) as [[[] | e |] calls];
    cbn [fst] in *; [reflexivity | now rewrite H | contradiction].
Qed.

(** The loop gets as far as the turn after [before] when the requests
    for a reaction made on the way return. *)
Lemma turns_reach w update em link_only before :
  forall i rest,
    (forall j, i <= j < i + length before -> on_set_reaction w j = None) ->
    exists calls,
      turns w update em link_only i (before ++ rest)
      = (fst (turns w update em link_only (i + length before) rest),
         calls ++ snd (turns w update em link_only (i + length before) rest)).
Proof.
  induction before as [| reel_id before IH]; intros i rest H.
  - exists []. cbn [app length]. rewrite Nat.add_0_r.
    now destruct (turns w update em link_only i rest).
  - cbn [app turns length].
    pose proof (@turn_returns w update em link_only i reel_id) as R.
    destruct (turn w update em link_only i reel_id) as [r calls].
    cbn [fst] in R. rewrite R by (apply H; cbn [length]; lia).
    destruct (IH (S i) rest) as [more E].
    { intros j Hj. apply H. cbn [length]. lia. }
    exists (calls ++ more). rewrite E. cbn [fst snd].
    replace (i + S (length before)) with (S i + length before) by lia.
    now rewrite app_assoc.
Qed.

Lemma framed_check_bot_permissions w update :
  framed (check_bot_permissions w update).
Proof.
  unfold check_bot_permissions. apply framed_try_except.
  - destruct (effective_chat update) as [chat |]; [| apply framed_ret].
    destruct (ChatType_eqb (chat_type chat) PRIVATE); [apply framed_ret |].
    apply framed_bind.
    + intros t. unfold run, chat_get_member.
      now destruct (on_get_member w).
    + intros m.
      destruct (ChatType_eqb (chat_type chat) SUPERGROUP
                && ChatMemberStatus_eqb (status m) ADMINISTRATOR);
        [apply framed_ret |].
      destruct (is_ChatMemberAdministrator m); [apply framed_ret |].
      destruct (ChatMemberStatus_eqb (status m) MEMBER); apply framed_ret.
  - intros e. apply framed_ret.
Qed.

(** The gate makes no call but the lookup. *)
Lemma gate_calls_lookup w update :
  forallb (fun ev => match fst ev with get_member _ => true | _ => false end)
          (snd (run (check_bot_permissions w update))) = true.
Proof.
  unfold run, check_bot_permissions, try_except, bind, chat_get_member, ret.
  destruct (effective_chat update) as [chat |]; [| reflexivity].
  destruct (ChatType_eqb (chat_type chat) PRIVATE); [reflexivity |].
  destruct (on_get_member w) as [e | m]; cbn [app].
  - now destruct (is_BadRequest e).
  - destruct (ChatType_eqb (chat_type chat) SUPERGROUP
              && ChatMemberStatus_eqb (status m) ADMINISTRATOR);
      [reflexivity |].
    destruct (is_ChatMemberAdministrator m); [reflexivity |].
    now destruct (ChatMemberStatus_eqb (status m) MEMBER).
Qed.

(** Once the gate grants, the handler runs the loop over the
    identifiers of the text. *)
Lemma handle_message_granted w update em body allowed gate_calls :
  effective_message update = Some em ->
  message_text em = Some body ->
  is_empty body = false ->
  run (check_bot_permissions w update) = (Return allowed, gate_calls) ->
  truthy allowed = true ->
  run (handle_message w update)
  = (fst (turns w update em (is_link_only body) 0 (reel_matches body)),
     gate_calls
       ++ snd (turns w update em (is_link_only body) 0 (reel_matches body))).
Proof.
  intros Hem Hb He Hg Ha. unfold run, handle_message.
  rewrite Hem, Hb, He. unfold bind.
  unfold run in Hg. rewrite Hg, Ha. cbn [negb].
  apply for_reels_run.
Qed.

Lemma reel_matches_nil : reel_matches [] = [].
Proof. reflexivity. Qed.

Lemma is_empty_false (s : text) : s <> [] -> is_empty s = false.
Proof. now destruct s. Qed.

Lemma inert_existsb (P : event -> bool) (t : list event) :
  (forall ev, is_fetch_call ev = true -> P ev = false) ->
  forallb is_fetch_call t = true -> existsb P t = false.
Proof.
  intros HP. induction t as [| ev t IH]; cbn [forallb existsb];
    [reflexivity |].
  intros H. apply andb_prop in H. destruct H as [H1 H2].
  now rewrite (HP _ H1), IH.
Qed.

Lemma inert_filter (P : event -> bool) (t : list event) :
  (forall ev, is_fetch_call ev = true -> P ev = false) ->
  forallb is_fetch_call t = true -> filter P t = [].
Proof.
  intros HP. induction t as [| ev t IH]; cbn [forallb filter];
    [reflexivity |].
  intros H. apply andb_prop in H. destruct H as [H1 H2].
  now rewrite (HP _ H1), IH.
Qed.

Lemma fetch_call_kinds (ev : event) :
  is_fetch_call ev = true ->
  is_delete ev = false /\ is_media ev = false /\ is_deleted ev = false
  /\ is_posted ev = false /\ forall m, about m ev = false.
Proof. destruct ev as [[] ok]; try discriminate; now destruct ok. Qed.

Lemma fetch_calls_no_delete p shortcode :
  existsb is_delete (fetch_calls p shortcode) = false.
Proof.
  apply inert_existsb; [| apply fetch_calls_inert].
  intros ev H. now apply fetch_call_kinds.
Qed.

Lemma fetch_calls_no_media p shortcode :
  existsb is_media (fetch_calls p shortcode) = false.
Proof.
  apply inert_existsb; [| apply fetch_calls_inert].
  intros ev H. now apply fetch_call_kinds.
Qed.

Lemma fetch_calls_no_deleted p shortcode :
  existsb is_deleted (fetch_calls p shortcode) = false.
Proof.
  apply inert_existsb; [| apply fetch_calls_inert].
  intros ev H. now apply fetch_call_kinds.
Qed.

Lemma fetch_calls_not_about p shortcode m :
  filter (about m) (fetch_calls p shortcode) = [].
Proof.
  apply inert_filter; [| apply fetch_calls_inert].
  intros ev H. now apply fetch_call_kinds.
Qed.

Lemma guarded_weaken (t : list event) (b : bool) :
  guarded false t = true -> guarded b t = true.
Proof.
  destruct t as [| ev t]; [reflexivity |]. cbn [guarded].
  destruct (is_delete ev); [discriminate | now destruct b].
Qed.

Lemma guarded_app (t1 t2 : list event) :
  forall b, guarded b t1 = true -> guarded false t2 = true ->
            guarded b (t1 ++ t2) = true.
Proof.
  induction t1 as [| ev t1 IH]; intros b H1 H2; cbn [app].
  - now apply guarded_weaken.
  - cbn [guarded] in *. apply andb_prop in H1. destruct H1 as [Ha Hb].
    rewrite Ha. now apply IH.
Qed.

Lemma inert_guarded (t : list event) :
  forallb is_fetch_call t = true -> forall b, guarded b t = true.
Proof.
  induction t as [| ev t IH]; cbn [forallb guarded]; [reflexivity |].
  intros H b. apply andb_prop in H. destruct H as [H1 H2].
  destruct (fetch_call_kinds _ H1) as (-> & _). now apply IH.
Qed.

(** What [guarded] says: a deletion stands first only when a post went
    through before, and otherwise right after one that did. *)
Lemma guarded_spec (t : list event) :
  forall b pre msg ok post,
    guarded b t = true ->
    t = pre ++ (delete msg, ok) :: post ->
    (pre = [] /\ b = true)
    \/ exists pre' chat video caption,
         pre = pre' ++ [(send_video chat video caption, true)].
Proof.
  induction t as [| ev t IH]; intros b pre msg ok post G E.
  - now destruct pre.
  - cbn [guarded] in G. apply andb_prop in G. destruct G as [G1 G2].
    destruct pre as [| ev' pre]; cbn [app] in E.
    + injection E as -> ->. cbn in G1. left. now split.
    + injection E as <- ->. right.
      destruct (IH _ _ _ _ _ G2 eq_refl) as [[-> Hp] | (pre' & c & v & cap & ->)].
      * destruct ev as [[] []]; try discriminate Hp.
        now exists [], chat, video, caption.
      * now exists (ev :: pre'), c, v, cap.
Qed.

Ltac pieces :=
  repeat (apply guarded_app); cbn [guarded is_delete is_posted fst andb];
  try reflexivity; try (apply inert_guarded, fetch_calls_inert).

(** In the calls of a turn, a deletion only follows a post that went
    through. *)
Lemma turn_guarded w update em link_only i reel_id :
  guarded false (snd (turn w update em link_only i reel_id)) = true.
Proof.
  unfold turn, delivery.
  destruct (message update) as [m |]; [| reflexivity].
  destruct (on_chat_action_before w i); [reflexivity |].
  destruct (fetch_result (on_fetch w i) reel_id);
    cbn [snd app]; [| pieces | pieces].
  destruct (on_chat_action_after w i); cbn [snd app]; [pieces |].
  destruct link_only.
  - destruct (on_send_video w i); [cbn [snd app]; pieces |].
    destruct (on_delete w i); [cbn [snd app]; pieces |].
    destruct (from_user em); cbn [snd app]; pieces.
  - destruct (on_reply_video w i); [cbn [snd app]; pieces |].
    destruct (from_user em); cbn [snd app]; pieces.
Qed.

Lemma turns_guarded w update em link_only reel_ids :
  forall i, guarded false (snd (turns w update em link_only i reel_ids)) = true.
Proof.
  induction reel_ids as [| reel_id rest IH]; intros i; cbn [turns];
    [reflexivity |].
  pose proof (turn_guarded w update em link_only i reel_id) as G.
  destruct (turn w update em link_only i reel_id) as [[[] | e |] calls];
    cbn [snd] in *; try exact G.
  apply guarded_app; [exact G | apply IH].
Qed.

Lemma no_delete_guarded (t : list event) :
  existsb is_delete t = false -> forall b, guarded b t = true.
Proof.
  induction t as [| ev t IH]; cbn [existsb guarded]; [reflexivity |].
  intros H b. apply orb_false_elim in H. destruct H as [-> H].
  now apply IH.
Qed.

Lemma gate_calls_no_delete w update :
  existsb is_delete (snd (run (check_bot_permissions w update))) = false.
Proof.
  pose proof (gate_calls_lookup w update) as H.
  induction (snd (run (check_bot_permissions w update))) as [| ev t IH];
    [reflexivity |].
  cbn [forallb existsb] in *. apply andb_prop in H. destruct H as [H1 H2].
  rewrite (IH H2). now destruct ev as [[] ok].
Qed.

Lemma handle_message_guarded w update :
  guarded false (snd (run (handle_message w update))) = true.
Proof.
  unfold run, handle_message.
  destruct (effective_message update) as [em |]; [| reflexivity].
  destruct (message_text em) as [body |]; [| reflexivity].
  destruct (is_empty body); [reflexivity |].
  unfold bind. rewrite (framed_check_bot_permissions w update []).
  pose proof (gate_calls_no_delete w update) as G.
  destruct (fst (run (check_bot_permissions w update))) as [allowed | e |];
    cbn [app snd]; try (now apply no_delete_guarded).
  destruct (truthy allowed); cbn [negb].
  - rewrite for_reels_run. cbn [snd].
    apply guarded_app; [now apply no_delete_guarded | apply turns_guarded].
  - apply no_delete_guarded.
    unfold notify_denied, try_except, raise, ret.
    destruct (effective_chat update) as [chat |]; [| exact G].
    destruct (ChatType_eqb (chat_type chat) CHANNEL); cbn [negb];
      [exact G |].
    rewrite perform_run.
    destruct (on_reply_text w) as [e |]; cbn [outcome returned].
    + destruct (is_BadRequest e); cbn [snd];
        now rewrite existsb_app, G.
    + cbn [snd]. now rewrite existsb_app, G.
Qed.

Lemma link_only_matches body :
  is_link_only body = true ->
  body <> [] /\ reel_matches body = [identifier_of body].
Proof.
  intros H. split; [intros ->; discriminate H |].
  unfold is_link_only in H. unfold identifier_of.
  destruct (fullmatch INSTAGRAM_REEL_PATTERN body) as [th |] eqn:E;
    [| discriminate].
  now apply link_only_one_match.
Qed.

Ltac no_calls :=
  rewrite ?existsb_app, ?filter_app, ?fetch_calls_no_delete,
    ?fetch_calls_no_media, ?fetch_calls_not_about;
  cbn [existsb filter about is_delete is_media fst orb app];
  rewrite ?existsb_app, ?filter_app, ?fetch_calls_no_delete,
    ?fetch_calls_no_media, ?fetch_calls_not_about;
  auto.

(** A turn for a link-only message whose fetch or whose post raises:
    nothing but the request for the reaction touches the message. *)
Lemma turn_fails_before_delete w update m i reel_id e :
  message update = Some m ->
  fetch_result (on_fetch w i) reel_id = Raise e
  \/ on_send_video w i = Some e ->
  exists calls,
    turn w update m true i reel_id
    = (outcome (on_set_reaction w i),
       calls ++ [(thumbs_down m, returned (on_set_reaction w i))])
    /\ existsb is_delete calls = false
    /\ existsb is_media calls = false
    /\ filter (about m) calls = [].
Proof.
  intros Hm Hf. unfold turn, delivery. rewrite Hm.
  pose proof (@download_reel_total (on_fetch w i) reel_id) as F.
  destruct (on_chat_action_before w i).
  { eexists. split; [reflexivity |]. no_calls. }
  destruct (fetch_result (on_fetch w i) reel_id) as [video_path | e' |];
    [| | contradiction].
  2:{ eexists. split; [reflexivity |]. no_calls. }
  destruct Hf as [Hf | Hf]; [discriminate Hf |].
  destruct (on_chat_action_after w i).
  { eexists. split; [reflexivity |]. no_calls. }
  rewrite Hf. eexists. split; [reflexivity |]. no_calls.
Qed.

(** C10.  In every run of the handler a deletion is requested only
    right after a standalone post that went through.  For a link-only
    message whose fetch or whose post raises, the run ends with the
    request for the thumbs-down reaction, and before it no deletion is
    requested, no media goes through and no call touches the message. *)
Theorem delete_only_after_post (w : world) (update : Update) :
  (forall pre msg ok post,
      snd (run (handle_message w update)) = pre ++ (delete msg, ok) :: post ->
      exists pre' chat video caption,
        pre = pre' ++ [(send_video chat video caption, true)])
  /\ (forall m body allowed gate_calls e,
        message update = Some m ->
        message_text m = Some body ->
        is_link_only body = true ->
        run (check_bot_permissions w update) = (Return allowed, gate_calls) ->
        truthy allowed = true ->
        fetch_result (on_fetch w 0) (identifier_of body) = Raise e
        \/ on_send_video w 0 = Some e ->
        exists calls,
          run (handle_message w update)
          = (outcome (on_set_reaction w 0),
             gate_calls ++ calls
               ++ [(thumbs_down m, returned (on_set_reaction w 0))])
          /\ existsb is_delete calls = false
          /\ existsb is_media calls = false
          /\ filter (about m) calls = []).
Proof.
  split.
  - intros pre msg ok post E.
    pose proof (handle_message_guarded w update) as G.
    destruct (@guarded_spec _ _ _ _ _ _ G E) as [[_ F] | H]; [discriminate F | exact H].
  - intros m body allowed gate_calls e Hm Hb Hl Hg Ha Hf.
    destruct (@link_only_matches body Hl) as [Hne Hids].
    assert (Hem : effective_message update = Some m)
      by (unfold effective_message; now rewrite Hm).
    rewrite (@handle_message_granted w update m body allowed gate_calls
               Hem Hb (@is_empty_false body Hne) Hg Ha).
    rewrite Hids, Hl. cbn [turns].
    destruct (@turn_fails_before_delete w update m 0 (identifier_of body) e
                Hm Hf)
      as (calls & -> & H1 & H2 & H3).
    exists calls.
    destruct (on_set_reaction w 0); cbn [outcome returned fst snd];
      rewrite ?app_nil_r; auto.
Qed.

(** Scenario C: the link alone, and a fetch that exhausts its attempts. *)
Lemma delete_only_after_post_witness :
  exists calls,
    run (handle_message none_fetched (sent_to_group link_alone))
    = (outcome (on_set_reaction none_fetched 0),
       [(get_member 7, true)] ++ calls
         ++ [(thumbs_down (message_with link_alone group_chat (Some 5%Z)),
              returned (on_set_reaction none_fetched 0))])
    /\ existsb is_delete calls = false
    /\ existsb is_media calls = false
    /\ filter (about (message_with link_alone group_chat (Some 5%Z))) calls = [].
Proof.
  refine (proj2 (delete_only_after_post none_fetched
                   (sent_to_group link_alone))
            (message_with link_alone group_chat (Some 5%Z))
            (str link_alone) (Some true) [(get_member 7, true)]
            (ErrorDownload (Some (captured (OtherException (str "third"))
                                           (str "ABC123"))) 4)
            _ _ _ _ _ _).
  - reflexivity.
  - reflexivity.
  - vm_compute. reflexivity.
  - vm_compute. reflexivity.
  - reflexivity.
  - left. vm_compute. reflexivity.
Defined.

Lemma turn_delivers w update m link_only i reel_id video_path :
  message update = Some m ->
  signals_return w i ->
  fetch_result (on_fetch w i) reel_id = Return video_path ->
  exists after,
    snd (turn w update m link_only i reel_id)
    = [(upload_signal m, true)] ++ fetch_calls (on_fetch w i) reel_id
        ++ [(upload_signal m, true)]
        ++ delivered w m link_only i video_path reel_id ++ after.
Proof.
  intros Hm (Hb & Ha) Hf. unfold turn, delivery, delivered.
  rewrite Hm, Hb, Hf, Ha.
  destruct link_only.
  - destruct (on_send_video w i); cbn [returned snd app].
    + eexists. now rewrite <- !app_assoc.
    + destruct (on_delete w i); cbn [returned snd app].
      * eexists. now rewrite <- !app_assoc.
      * destruct (from_user m); cbn [snd app];
          eexists; rewrite <- !app_assoc; cbn [app];
          try reflexivity; now rewrite app_nil_r.
  - destruct (on_reply_video w i); cbn [returned snd app].
    + eexists. now rewrite <- !app_assoc.
    + destruct (from_user m); cbn [snd app];
        eexists; rewrite <- !app_assoc; cbn [app];
        try reflexivity; now rewrite app_nil_r.
Qed.

Lemma turns_cons_calls w update em link_only i reel_id rest :
  exists more,
    snd (turns w update em link_only i (reel_id :: rest))
    = snd (turn w update em link_only i reel_id) ++ more.
Proof.
  cbn [turns].
  destruct (turn w update em link_only i reel_id) as [[[] | e |] calls];
    cbn [snd].
  - now eexists.
  - exists []. now rewrite app_nil_r.
  - exists []. now rewrite app_nil_r.
Qed.

Lemma turn_reply_no_delete w update em i reel_id :
  existsb is_delete (snd (turn w update em false i reel_id)) = false.
Proof.
  unfold turn, delivery.
  destruct (message update) as [m |]; [| reflexivity].
  destruct (on_chat_action_before w i); [reflexivity |].
  destruct (fetch_result (on_fetch w i) reel_id); cbn [snd];
    [| no_calls | no_calls].
  destruct (on_chat_action_after w i); cbn [snd]; [no_calls |].
  destruct (on_reply_video w i); [cbn [snd]; no_calls |].
  destruct (from_user em); cbn [snd]; no_calls.
Qed.

Lemma turns_reply_no_delete w update em reel_ids :
  forall i,
    existsb is_delete (snd (turns w update em false i reel_ids)) = false.
Proof.
  induction reel_ids as [| reel_id rest IH]; intros i; cbn [turns];
    [reflexivity |].
  pose proof (turn_reply_no_delete w update em i reel_id) as G.
  destruct (turn w update em false i reel_id) as [[[] | e |] calls];
    cbn [snd] in *; try exact G.
  now rewrite existsb_app, G, IH.
Qed.

(** C3, as the code has it.  For a message the gate lets through, take
    any identifier of its text that the loop reaches and fetches, the
    two activity signals of its turn returning (one [try] spans the
    turn: a signal that raises ends it before the delivery).  Between
    the two activity signals of that turn
    lie the calls of the fetch, and right after them the delivery: for a
    link-only text a standalone post captioned
    [https://instagram.com/reel/<identifier>] followed by the deletion of
    the message, otherwise a reply to the message with that caption.
    When the text is not link-only the handler requests no deletion at
    all. *)
Theorem handle_message_delivers (w : world) (update : Update) (m : Message)
    (body : text) (allowed : option bool) (gate_calls : list event)
    (i : nat) (reel_id video_path : text) :
  message update = Some m ->
  message_text m = Some body ->
  run (check_bot_permissions w update) = (Return allowed, gate_calls) ->
  truthy allowed = true ->
  nth_error (reel_matches body) i = Some reel_id ->
  (forall j, j < i -> on_set_reaction w j = None) ->
  signals_return w i ->
  fetch_result (on_fetch w i) reel_id = Return video_path ->
  (exists earlier later,
      snd (run (handle_message w update))
      = gate_calls ++ earlier
          ++ [(upload_signal m, true)] ++ fetch_calls (on_fetch w i) reel_id
          ++ [(upload_signal m, true)]
          ++ delivered w m (is_link_only body) i video_path reel_id
          ++ later)
  /\ (is_link_only body = false ->
      existsb is_delete (snd (run (handle_message w update))) = false).
Proof.
  intros Hm Hb Hg Ha Hn Hr Hc Hf.
  assert (Hem : effective_message update = Some m)
    by (unfold effective_message; now rewrite Hm).
  assert (Hne : body <> []).
  { intros ->. rewrite reel_matches_nil in Hn. now destruct i. }
  rewrite (@handle_message_granted w update m body allowed gate_calls
             Hem Hb (@is_empty_false body Hne) Hg Ha).
  cbn [snd]. split.
  - destruct (nth_error_split _ _ Hn) as (before & rest & E & Hlen).
    rewrite E.
    destruct (@turns_reach w update m (is_link_only body) before 0
                (reel_id :: rest)) as [earlier ->].
    { intros j Hj. apply Hr. lia. }
    cbn [snd plus]. rewrite Hlen.
    destruct (turns_cons_calls w update m (is_link_only body) i reel_id rest)
      as [more ->].
    destruct (@turn_delivers w update m (is_link_only body) i reel_id
                video_path Hm Hc Hf) as [after ->].
    exists earlier, (after ++ more).
    now rewrite <- !app_assoc.
  - intros Hl. rewrite Hl, existsb_app, turns_reply_no_delete.
    pose proof (gate_calls_no_delete w update) as G.
    rewrite Hg in G. cbn [snd] in G. now rewrite G.
Qed.

(** Scenario A, the link alone (a standalone post, then the deletion),
    and scenario B, a link within a sentence (a reply); both fetched at
    the first attempt. *)
Lemma handle_message_delivers_witness :
  ((exists earlier later,
       snd (run (handle_message all_fetched (sent_to_group link_alone)))
       = [(get_member 7, true)] ++ earlier
           ++ [(send_chat_action 7 UPLOAD_VIDEO, true)]
           ++ fetch_calls always_fetched (str "ABC123")
           ++ [(send_chat_action 7 UPLOAD_VIDEO, true)]
           ++ [ (send_video 7 (str "temp_downloads/ABC123.mp4")
                            (str "https://instagram.com/reel/ABC123"), true);
                (delete 42, true) ]
           ++ later)
   /\ (is_link_only (str link_alone) = false ->
       existsb is_delete
         (snd (run (handle_message all_fetched (sent_to_group link_alone))))
       = false))
  /\ ((exists earlier later,
         snd (run (handle_message all_fetched (sent_to_group link_in_text)))
         = [(get_member 7, true)] ++ earlier
             ++ [(send_chat_action 7 UPLOAD_VIDEO, true)]
             ++ fetch_calls always_fetched (str "XYZ")
             ++ [(send_chat_action 7 UPLOAD_VIDEO, true)]
             ++ [(reply_video 42 (str "temp_downloads/XYZ.mp4") 42
                              (str "https://instagram.com/reel/XYZ"), true)]
             ++ later)
      /\ (is_link_only (str link_in_text) = false ->
          existsb is_delete
            (snd (run (handle_message all_fetched
                                      (sent_to_group link_in_text))))
          = false)).
Proof.
  split.
  - apply (@handle_message_delivers all_fetched (sent_to_group link_alone)
             (message_with link_alone group_chat (Some 5%Z))
             (str link_alone) (Some true) [(get_member 7, true)]
             0 (str "ABC123") (str "temp_downloads/ABC123.mp4")).
    + reflexivity.
    + reflexivity.
    + vm_compute. reflexivity.
    + reflexivity.
    + vm_compute. reflexivity.
    + intros j Hj. lia.
    + split; reflexivity.
    + vm_compute. reflexivity.
  - apply (@handle_message_delivers all_fetched (sent_to_group link_in_text)
             (message_with link_in_text group_chat (Some 5%Z))
             (str link_in_text) (Some true) [(get_member 7, true)]
             0 (str "XYZ") (str "temp_downloads/XYZ.mp4")).
    + reflexivity.
    + reflexivity.
    + vm_compute. reflexivity.
    + reflexivity.
    + vm_compute. reflexivity.
    + intros j Hj. lia.
    + split; reflexivity.
    + vm_compute. reflexivity.
Defined.

(** C3 as the specification words it fails: the video is fetched, the
    activity signal that follows the fetch raises, and the turn ends
    with the thumbs-down; no post, no reply and no deletion is asked
    for, for the link alone as for the link within a sentence. *)
Lemma fetched_but_not_delivered :
  fetch_result (on_fetch late_signal_fails 0) (str "ABC123")
  = Return (str "temp_downloads/ABC123.mp4")
  /\ run (handle_message late_signal_fails (sent_to_group link_alone))
     = (Return tt,
        [ (get_member 7, true);
          (send_chat_action 7 UPLOAD_VIDEO, true);
          (from_shortcode (str "ABC123"), true);
          (download_post (str "ABC123") TEMP_DIR, true);
          (send_chat_action 7 UPLOAD_VIDEO, false);
          (set_reaction 42 THUMBS_DOWN, true) ])
  /\ fetch_result (on_fetch late_signal_fails 0) (str "XYZ")
     = Return (str "temp_downloads/XYZ.mp4")
  /\ run (handle_message late_signal_fails (sent_to_group link_in_text))
     = (Return tt,
        [ (get_member 7, true);
          (send_chat_action 7 UPLOAD_VIDEO, true);
          (from_shortcode (str "XYZ"), true);
          (download_post (str "XYZ") TEMP_DIR, true);
          (send_chat_action 7 UPLOAD_VIDEO, false);
          (set_reaction 42 THUMBS_DOWN, true) ]).
Proof. repeat split; vm_compute; reflexivity. Qed.

Ltac no_effects :=
  rewrite ?existsb_app, ?fetch_calls_no_delete, ?fetch_calls_no_media,
    ?fetch_calls_no_deleted;
  cbn [existsb is_delete is_media is_deleted fst orb app];
  rewrite ?existsb_app, ?fetch_calls_no_delete, ?fetch_calls_no_media,
    ?fetch_calls_no_deleted;
  cbn [existsb is_delete is_media is_deleted fst orb app];
  auto; try discriminate.

(** The body of a turn that raises has deleted nothing, and has sent
    media only if it went on to the deletion. *)
Lemma delivery_raised w update em link_only i reel_id e :
  fst (delivery w update em link_only i reel_id) = Raise e ->
  (from_user em = None -> message update = None) ->
  existsb is_deleted (snd (delivery w update em link_only i reel_id)) = false
  /\ (existsb is_delete (snd (delivery w update em link_only i reel_id)) = false ->
      existsb is_media (snd (delivery w update em link_only i reel_id)) = false).
Proof.
  unfold delivery. intros H Hu.
  destruct (message update) as [m |]; [| now split].
  destruct (on_chat_action_before w i); [now split |].
  destruct (fetch_result (on_fetch w i) reel_id); cbn [fst snd] in *;
    [| split; no_effects | discriminate H].
  destruct (on_chat_action_after w i); cbn [fst snd] in *;
    [split; no_effects |].
  destruct (from_user em) as [u |];
    [| now specialize (Hu eq_refl)].
  destruct link_only.
  - destruct (on_send_video w i); cbn [fst snd] in *; [split; no_effects |].
    destruct (on_delete w i); cbn [fst snd] in *;
      [split; no_effects | discriminate H].
  - destruct (on_reply_video w i); cbn [fst snd] in *;
      [split; no_effects | discriminate H].
Qed.

(** C4, as the code has it.  When the body of a turn raises, the
    handler requests the thumbs-down reaction on the message; when that
    request returns, the loop goes on with the remaining identifiers.
    For a message with a sender, the failed turn has deleted nothing, and
    it has sent media only if it went as far as requesting the
    deletion. *)
Theorem failed_turn (w : world) (update : Update) (em : Message)
    (link_only : bool) (i : nat) (reel_id : text) (rest : list text)
    (t t' : list event) (e : exn) :
  deliver_reel w update em link_only i reel_id t = (Raise e, t') ->
  handle_reel w update em link_only i reel_id t
  = (outcome (on_set_reaction w i),
     t' ++ [(thumbs_down em, returned (on_set_reaction w i))])
  /\ (on_set_reaction w i = None ->
      for_reels w update em link_only i (reel_id :: rest) t
      = for_reels w update em link_only (S i) rest
          (t' ++ [(thumbs_down em, true)]))
  /\ ((from_user em = None -> message update = None) ->
      exists calls,
        t' = t ++ calls
        /\ existsb is_deleted calls = false
        /\ (existsb is_delete calls = false ->
            existsb is_media calls = false)).
Proof.
  intros H.
  assert (A : handle_reel w update em link_only i reel_id t
              = (outcome (on_set_reaction w i),
                 t' ++ [(thumbs_down em, returned (on_set_reaction w i))])).
  { unfold handle_reel, try_except. rewrite H. unfold any_Exception.
    now rewrite perform_run. }
  split; [exact A |]. split.
  - intros Hr. cbn [for_reels]. unfold bind. rewrite A, Hr. reflexivity.
  - intros Hu. rewrite deliver_reel_run in H. injection H as H1 H2.
    exists (snd (delivery w update em link_only i reel_id)).
    split; [now symmetry |]. now apply delivery_raised with (e := e).
Qed.

(** The turn of scenario C. *)
Lemma failed_turn_witness :
  exists e t',
    deliver_reel none_fetched (sent_to_group link_alone)
      (message_with link_alone group_chat (Some 5%Z)) true 0 (str "ABC123") []
    = (Raise e, t')
    /\ handle_reel none_fetched (sent_to_group link_alone)
         (message_with link_alone group_chat (Some 5%Z)) true 0 (str "ABC123") []
       = (Return tt, t' ++ [(set_reaction 42 THUMBS_DOWN, true)]).
Proof.
  eexists. eexists. split.
  - vm_compute. reflexivity.
  - refine (proj1 (@failed_turn none_fetched (sent_to_group link_alone)
                     (message_with link_alone group_chat (Some 5%Z))
                     true 0 (str "ABC123") [] [] _ _ _)).
    vm_compute. reflexivity.
Defined.

(** C4 as stated fails twice.  A deletion that raises is a failure of
    the turn, yet the standalone post has gone through by then.  And a
    request for the reaction that raises ends the handler, so the second
    identifier of the message is never tried. *)
Lemma failed_delete_keeps_post :
  run (handle_message not_deletable (sent_to_group link_alone))
  = (Return tt,
     [ (get_member 7, true);
       (send_chat_action 7 UPLOAD_VIDEO, true);
       (from_shortcode (str "ABC123"), true);
       (download_post (str "ABC123") TEMP_DIR, true);
       (send_chat_action 7 UPLOAD_VIDEO, true);
       (send_video 7 (str "temp_downloads/ABC123.mp4")
                   (str "https://instagram.com/reel/ABC123"), true);
       (delete 42, false);
       (set_reaction 42 THUMBS_DOWN, true) ])
  /\ run (handle_message no_reactions (sent_to_group two_links))
     = (Raise (BadRequest (str "Reaction_invalid")),
        [ (get_member 7, true);
          (send_chat_action 7 UPLOAD_VIDEO, true);
          (from_shortcode (str "AAA"), false); (sleep 2, true);
          (from_shortcode (str "AAA"), false); (sleep 2, true);
          (from_shortcode (str "AAA"), false);
          (set_reaction 42 THUMBS_DOWN, false) ])
  /\ reel_matches (str two_links) = [str "AAA"; str "BBB"].
Proof. repeat split; vm_compute; reflexivity. Qed.

(** With no message and no channel post, with no text or with an empty
    one, the handler does nothing. *)
Lemma handle_message_noop w update :
  effective_message update = None
  \/ (exists em, effective_message update = Some em
                 /\ (message_text em = None \/ message_text em = Some [])) ->
  run (handle_message w update) = (Return tt, []).
Proof.
  unfold run, handle_message.
  intros [-> | (em & -> & [-> | ->])]; reflexivity.
Qed.




(** The same link, the same membership and the same world: a channel
    post against a normal message.  With the record of an administrator
    as the library builds it the gate denies, and the channel post gets
    the lookup and nothing else. *)
Lemma channel_post_and_message :
  run (handle_message all_fetched (posted_to_channel link_alone))
  = (Return tt, [(get_member 8, true); (set_reaction 42 THUMBS_DOWN, true)])
  /\ run (handle_message bot_administrator (posted_to_channel link_alone))
     = (Return tt, [(get_member 8, true)])
  /\ run (handle_message all_fetched (sent_to_group link_alone))
     = (Return tt,
        [ (get_member 7, true);
          (send_chat_action 7 UPLOAD_VIDEO, true);
          (from_shortcode (str "ABC123"), true);
          (download_post (str "ABC123") TEMP_DIR, true);
          (send_chat_action 7 UPLOAD_VIDEO, true);
          (send_video 7 (str "temp_downloads/ABC123.mp4")
                      (str "https://instagram.com/reel/ABC123"), true);
          (delete 42, true) ]).
Proof. repeat split; vm_compute; reflexivity. Qed.

(* ================================================================= *)
(** ** Extraction in any text *)

Lemma search_inv r s th :
  search r s = Some th ->
  exists skipped s', s = skipped ++ s' /\ re_match r s' = Some th.
Proof.
  induction s as [| c s IH]; cbn [search].
  - destruct (re_match r []) as [th0 |] eqn:E; [| discriminate].
    intros H. injection H as ->. now exists [], [].
  - destruct (re_match r (c :: s)) as [th0 |] eqn:E.
    + intros H. injection H as ->. now exists [], (c :: s).
    + intros H. destruct (IH H) as (skipped & s' & -> & H').
      now exists (c :: skipped), s'.
Qed.

Lemma hd_error_In {A} (l : list A) (x : A) : hd_error l = Some x -> In x l.
Proof. destruct l; [discriminate |]. intros H. injection H as ->. now left. Qed.

(** X1. Extraction goes through a space: the identifiers of a text with
    a space in it are those of the text in front of the space followed
    by those of the text behind it, whatever the two texts are. *)
Theorem reel_matches_space (u v : text) :
  reel_matches (u ++ " " :: v) = reel_matches u ++ reel_matches v.
Proof.
  remember (length u) as n eqn:Hn. revert u Hn.
  induction n as [n IH] using lt_wf_ind. intros u ->.
  rewrite (findall_step (u ++ " " :: v)), search_before_space,
    (findall_step u).
  destruct (search INSTAGRAM_REEL_PATTERN u) as [th |] eqn:E.
  - unfold before at 1. cbn [snd].
    change (group1 (before v th)) with (group1 th).
    rewrite <- app_comm_cons. f_equal.
    apply (IH (length (snd th))); [now apply search_shorter | reflexivity].
  - now rewrite <- findall_step.
Qed.

(** Two runs of a class, each followed by something the class does not
    go on with, are the same run. *)
Lemma run_split (p : ascii -> bool) (a : text) :
  forall b x y,
    Forall (fun c => p c = true) a -> Forall (fun c => p c = true) b ->
    stops p x -> stops p y ->
    a ++ x = b ++ y -> a = b /\ x = y.
Proof.
  induction a as [| c a IH]; intros b x y Ha Hb Hx Hy E.
  - destruct b as [| d b]; [now split |].
    cbn [app] in E. subst x. cbn [stops] in Hx.
    inversion Hb; subst. congruence.
  - destruct b as [| d b].
    + cbn [app] in E. subst y. cbn [stops] in Hy.
      inversion Ha; subst. congruence.
    + cbn [app] in E. injection E as <- E.
      inversion Ha; subst. inversion Hb; subst.
      destruct (IH b x y) as [-> ->]; auto.
Qed.

Lemma link_tail_Lang tail : link_tail tail <-> Lang re_tail tail.
Proof.
  split.
  - intros [-> | [-> | (q & -> & Hq)]].
    + apply (LCat (LOptNone re_query) (LOptNone (Lit (str "/")))).
    + apply (LCat (LOptNone re_query) (LOptSome (LLit (str "/")))).
    + rewrite <- (app_nil_r (str "/?" ++ q)).
      apply LCat; [| apply LOptNone].
      apply LOptSome. apply LCat; [apply LLit |]. apply LRep; [exact Hq | lia].
  - intros L. apply Lang_tail_inv in L.
    destruct L as [-> | [-> | (q & -> & Hq)]].
    + now left.
    + right. now left.
    + right. right. now exists q.
Qed.

Lemma link_tail_stops_id tail : link_tail tail -> stops id_char tail.
Proof. intros [-> | [-> | (q & -> & _)]]; now cbn. Qed.

Lemma matches_Opt_Lit_inv l g s th :
  In th (matches (Opt (Lit l)) g s) ->
  fst th = g /\ exists p, (p = [] \/ p = l) /\ s = p ++ snd th.
Proof.
  cbn [matches]. intros H. apply in_app_or in H.
  destruct H as [H | [<- | []]].
  - destruct (strip_prefix l s) as [s' |] eqn:E; [| destruct H].
    destruct H as [<- | []]. apply strip_prefix_inv in E.
    split; [reflexivity |]. exists l. split; [now right | exact E].
  - split; [reflexivity |]. exists []. split; [now left | reflexivity].
Qed.

Lemma matches_Lit_inv l g s th :
  In th (matches (Lit l) g s) -> fst th = g /\ s = l ++ snd th.
Proof.
  cbn [matches]. destruct (strip_prefix l s) as [s' |] eqn:E; [| intros []].
  intros [<- | []]. apply strip_prefix_inv in E. now split.
Qed.

Lemma matches_segment_inv g s th :
  In th (matches re_segment g s) ->
  fst th = g
  /\ exists name, s = name ++ str "/" ++ snd th /\ name <> []
                  /\ Forall (fun c => seg_char c = true) name.
Proof.
  intros H.
  assert (G : groupless re_segment = true) by reflexivity.
  split; [exact (groupless_keeps re_segment G _ _ _ H) |].
  destruct (matches_sound _ _ _ _ H) as (pre & -> & L).
  apply Lang_Cat_inv in L. destruct L as (name & sl & -> & Ln & Ls).
  apply Lang_Lit_inv in Ls. subst sl.
  apply Lang_Rep_inv in Ln. destruct Ln as [Hn Hl].
  exists name. rewrite <- app_assoc. split; [reflexivity |].
  split; [| exact Hn]. intros ->. cbn in Hl. lia.
Qed.

Lemma hd_flat_map {A B} (f : A -> list B) (l : list A) (y : B) :
  hd_error (flat_map f l) = Some y ->
  exists x, In x l /\ hd_error (f x) = Some y.
Proof.
  induction l as [| x l IH]; [discriminate |].
  cbn [flat_map]. destruct (f x) as [| y0 l0] eqn:E.
  - cbn [app]. intros H. destruct (IH H) as (x' & Hin & H').
    exists x'. split; [now right | exact H'].
  - cbn [app hd_error]. intros H. exists x. split; [now left |].
    now rewrite E.
Qed.

Lemma first_Cat a b g s th :
  hd_error (matches (Cat a b) g s) = Some th ->
  exists th1, In th1 (matches a g s)
              /\ hd_error (matches b (fst th1) (snd th1)) = Some th.
Proof. cbn [matches]. apply hd_flat_map. Qed.

(** The parts of the text the first thread of the pattern has read. *)
Lemma pattern_first_inv g s th :
  hd_error (matches INSTAGRAM_REEL_PATTERN g s) = Some th ->
  exists p2 p4 p6 rest,
    s = str "http" ++ p2 ++ str "://" ++ p4 ++ str "instagram.com/"
          ++ p6 ++ str "reel/" ++ rest
    /\ (p2 = [] \/ p2 = str "s")
    /\ (p4 = [] \/ p4 = str "www.")
    /\ (p6 = []
        \/ exists name, p6 = name ++ str "/" /\ name <> []
                        /\ Forall (fun c => seg_char c = true) name)
    /\ hd_error (matches re_id g rest) = Some th.
Proof.
  intros H.
  apply first_Cat in H. destruct H as (t1 & H1 & H).
  apply matches_Lit_inv in H1. destruct H1 as [G1 E1].
  apply first_Cat in H. destruct H as (t2 & H2 & H).
  apply matches_Opt_Lit_inv in H2. destruct H2 as (G2 & p2 & D2 & E2).
  apply first_Cat in H. destruct H as (t3 & H3 & H).
  apply matches_Lit_inv in H3. destruct H3 as [G3 E3].
  apply first_Cat in H. destruct H as (t4 & H4 & H).
  apply matches_Opt_Lit_inv in H4. destruct H4 as (G4 & p4 & D4 & E4).
  apply first_Cat in H. destruct H as (t5 & H5 & H).
  apply matches_Lit_inv in H5. destruct H5 as [G5 E5].
  apply first_Cat in H. destruct H as (t6 & H6 & H).
  apply first_Cat in H. destruct H as (t7 & H7 & H).
  apply matches_Lit_inv in H7. destruct H7 as [G7 E7].
  rewrite G7 in H.
  assert (G6 : fst t6 = fst t5 /\
               exists p6, snd t5 = p6 ++ snd t6 /\
                 (p6 = [] \/ exists name, p6 = name ++ str "/" /\ name <> []
                        /\ Forall (fun c => seg_char c = true) name)).
  { cbn [matches] in H6. apply in_app_or in H6.
    destruct H6 as [H6 | [<- | []]].
    - apply matches_segment_inv in H6.
      destruct H6 as (Hg & name & E & Hn & Hf). split; [exact Hg |].
      exists (name ++ str "/"). rewrite <- app_assoc. split; [exact E |].
      right. now exists name.
    - split; [reflexivity |]. exists []. split; [reflexivity | now left]. }
  destruct G6 as (G6 & p6 & E6 & D6).
  rewrite G6, G5, G4, G3, G2, G1 in H.
  exists p2, p4, p6, (snd t7).
  split; [| split; [| split; [| split]]]; try assumption.
  now rewrite E1, E2, E3, E4, E5, E6, E7.
Qed.

Lemma drop_run_stops (p : ascii -> bool) (s : text) : stops p (drop_run p s).
Proof.
  destruct (drop_run p s) as [| c s'] eqn:E; [exact I |].
  cbn [stops]. exact (drop_run_head _ _ E).
Qed.

Lemma tail_not_nil g s : matches re_tail g s <> [].
Proof.
  assert (L : Lang re_tail []).
  { apply (LCat (LOptNone re_query) (LOptNone (Lit (str "/")))). }
  destruct (matches_complete L g s) as (g' & H). cbn [app] in H.
  intros E. rewrite E in H. destruct H.
Qed.

Lemma rep_no_run (p : ascii -> bool) (s : text) :
  drop_run p s = s -> rep p s = [s].
Proof.
  destruct s as [| c s]; [reflexivity |]. cbn [drop_run rep].
  destruct (p c); [| reflexivity].
  intros E. pose proof (drop_run_length p s) as H. rewrite E in H.
  cbn [length] in H. lia.
Qed.

(** The first thread of the identifier and what follows it: the group
    holds the longest run of identifier characters. *)
Lemma id_first g s th :
  hd_error (matches re_id g s) = Some th ->
  exists tok tl,
    s = tok ++ tl ++ snd th
    /\ fst th = Some tok
    /\ tok <> []
    /\ Forall (fun c => id_char c = true) tok
    /\ Lang re_tail tl
    /\ stops id_char (tl ++ snd th).
Proof.
  unfold re_id. cbn [matches]. intros H.
  destruct (rep_shape id_char s) as (others & E & _).
  pose proof (drop_run_stops id_char s) as Hst.
  assert (Hd : In (drop_run id_char s) (rep id_char s))
    by (rewrite E; now left).
  destruct (rep_inv _ _ _ Hd) as (pre & Es & Hpre). clear Hd.
  destruct pre as [| c pre].
  - (* the text does not start with an identifier character *)
    exfalso. cbn [app] in Es. symmetry in Es.
    rewrite (@rep_no_run id_char s Es) in H. cbn [filter] in H.
    unfold consumed in H. rewrite Nat.sub_diag in H. discriminate H.
  - rewrite E in H. remember (drop_run id_char s) as d eqn:Ed. clear Ed E.
    subst s. cbn [filter] in H. rewrite consumed_app in H.
    cbn [length Nat.leb map flat_map fst snd] in H.
    rewrite firstn_consumed in H.
    pose proof (tail_not_nil (Some (c :: pre)) d) as Hn.
    destruct (matches re_tail (Some (c :: pre)) d) as [| th0 l0] eqn:M;
      [contradiction |].
    cbn [app hd_error] in H. injection H as ->.
    assert (Hin : In th (matches re_tail (Some (c :: pre)) d))
      by (rewrite M; now left).
    assert (G : groupless re_tail = true) by reflexivity.
    pose proof (groupless_keeps re_tail G _ _ _ Hin) as Hg.
    destruct (matches_sound _ _ _ _ Hin) as (tl & Ed & L).
    exists (c :: pre), tl. rewrite <- Ed.
    split; [reflexivity |]. split; [exact Hg |].
    split; [discriminate |]. split; [exact Hpre |].
    split; [exact L | exact Hst].
Qed.

Lemma characters_app (a b : text) :
  characters (a ++ b) = characters a + characters b.
Proof. unfold characters. now rewrite filter_app, length_app. Qed.

Lemma characters_length (s : text) : characters s <= length s.
Proof. unfold characters. apply filter_length_le. Qed.

Lemma id_char_starts (c : ascii) :
  id_char c = true -> is_continuation c = false.
Proof.
  destruct c as [[] [] [] [] [] [] [] []]; vm_compute;
    intros H; (reflexivity || discriminate H).
Qed.

(** X2. A link takes 27 characters at least, and the matches of
    [re.findall] do not overlap: a text holds at most a 27th of its
    length in identifiers, the length counted in characters as [len]
    does (and so also when it is counted in bytes). *)
Theorem reel_matches_bounded (body : text) :
  27 * length (reel_matches body) <= characters body
  /\ characters body <= length body.
Proof.
  split; [| apply characters_length].
  remember (length body) as n eqn:Hn. revert body Hn.
  induction n as [n IH] using lt_wf_ind. intros body ->.
  rewrite findall_step.
  destruct (search INSTAGRAM_REEL_PATTERN body) as [th |] eqn:E;
    [| cbn; lia].
  pose proof (search_shorter _ E) as Hlen.
  specialize (IH _ Hlen (snd th) eq_refl).
  destruct (search_inv _ _ E) as (skipped & s' & -> & Hm).
  destruct (pattern_first_inv _ _ Hm)
    as (p2 & p4 & p6 & rest & -> & _ & _ & _ & Hid).
  destruct (id_first _ _ Hid) as (tok & tl & -> & _ & Hne & Htok & _).
  destruct tok as [| c tok]; [contradiction |].
  inversion Htok as [| c' tok' Hc _]; subst.
  apply id_char_starts in Hc.
  rewrite !characters_app.
  change (characters (str "http")) with 4.
  change (characters (str "://")) with 3.
  change (characters (str "instagram.com/")) with 14.
  change (characters (str "reel/")) with 5.
  change (c :: tok) with ([c] ++ tok). rewrite characters_app.
  assert (C1 : characters [c] = 1)
    by (unfold characters; cbn [filter]; now rewrite Hc).
  cbn [length]. lia.
Qed.

(** X3. Every identifier [re.findall] returns is that of a link in the
    text: the text holds, somewhere, [http] or [https], [://], the host
    with or without [www.], an optional profile name, [reel/], the
    identifier (a non-empty run of identifier characters, taken as far
    as it goes) and an optional query or slash. *)
Theorem reel_matches_links (body reel_id : text) :
  In reel_id (reel_matches body) ->
  exists pre secure www profile tail post,
    body = pre ++ reel_link secure www profile reel_id tail ++ post
    /\ reel_id <> []
    /\ Forall (fun c => id_char c = true) reel_id
    /\ (forall name, profile = Some name ->
          name <> [] /\ Forall (fun c => seg_char c = true) name)
    /\ link_tail tail
    /\ stops id_char (tail ++ post).
Proof.
  remember (length body) as n eqn:Hn. revert body Hn.
  induction n as [n IH] using lt_wf_ind. intros body -> H.
  rewrite findall_step in H.
  destruct (search INSTAGRAM_REEL_PATTERN body) as [th |] eqn:E;
    [| destruct H].
  pose proof (search_shorter _ E) as Hlen.
  destruct (search_inv _ _ E) as (skipped & s' & -> & Hm).
  destruct (pattern_first_inv _ _ Hm)
    as (p2 & p4 & p6 & rest & -> & D2 & D4 & D6 & Hid).
  destruct (id_first _ _ Hid) as (tok & tl & -> & Hg & Hne & Htok & Ltl & Hst).
  destruct H as [<- | H].
  - unfold group1. rewrite Hg.
    assert (S2 : exists secure : bool, p2 = if secure then str "s" else [])
      by (destruct D2 as [-> | ->]; [now exists false | now exists true]).
    assert (S4 : exists www : bool, p4 = if www then str "www." else [])
      by (destruct D4 as [-> | ->]; [now exists false | now exists true]).
    assert (S6 : exists profile,
               p6 = match profile with
                    | Some name => name ++ str "/"
                    | None => []
                    end
               /\ forall name, profile = Some name ->
                    name <> [] /\ Forall (fun c => seg_char c = true) name).
    { destruct D6 as [-> | (name & -> & Hn & Hs)].
      - exists None. split; [reflexivity |]. intros name Hp. discriminate Hp.
      - exists (Some name). split; [reflexivity |].
        intros name' Hp. injection Hp as <-. now split. }
    destruct S2 as [secure ->], S4 as [www ->], S6 as (profile & -> & Hp).
    exists skipped, secure, www, profile, tl, (snd th).
    split; [| split; [exact Hne | split; [exact Htok |
              split; [exact Hp | split; [now apply link_tail_Lang | exact Hst]]]]].
    f_equal. unfold reel_link. now rewrite <- !app_assoc.
  - destruct (IH _ Hlen (snd th) eq_refl H)
      as (pre' & secure & www & profile & tail & post & E' & R).
    exists (skipped ++ str "http" ++ p2 ++ str "://" ++ p4
              ++ str "instagram.com/" ++ p6 ++ str "reel/" ++ tok ++ tl
              ++ pre'),
      secure, www, profile, tail, post.
    split; [| exact R]. rewrite E' at 1. now rewrite <- !app_assoc.
Qed.

Lemma reel_matches_links_witness :
  exists pre secure www profile tail post,
    str link_in_text
    = pre ++ reel_link secure www profile (str "XYZ") tail ++ post
    /\ str "XYZ" <> []
    /\ Forall (fun c => id_char c = true) (str "XYZ")
    /\ (forall name, profile = Some name ->
          name <> [] /\ Forall (fun c => seg_char c = true) name)
    /\ link_tail tail
    /\ stops id_char (tail ++ post).
Proof.
  apply (@reel_matches_links (str link_in_text) (str "XYZ")).
  vm_compute. left. reflexivity.
Defined.

Lemma reel_link_Lang secure www profile reel_id tail :
  reel_id <> [] ->
  Forall (fun c => id_char c = true) reel_id ->
  (forall name, profile = Some name ->
     name <> [] /\ Forall (fun c => seg_char c = true) name) ->
  link_tail tail ->
  Lang INSTAGRAM_REEL_PATTERN (reel_link secure www profile reel_id tail).
Proof.
  intros Hne Hid Hp Ht. unfold reel_link.
  apply LCat; [apply LLit |].
  apply LCat; [destruct secure; [apply LOptSome, LLit | apply LOptNone] |].
  apply LCat; [apply LLit |].
  apply LCat; [destruct www; [apply LOptSome, LLit | apply LOptNone] |].
  apply LCat; [apply LLit |].
  apply LCat.
  { destruct profile as [name |]; [| apply LOptNone].
    destruct (Hp name eq_refl) as [Hn Hs].
    apply LOptSome. apply LCat; [| apply LLit].
    apply LRep; [exact Hs |]. destruct name; [contradiction | cbn; lia]. }
  apply LCat; [apply LLit |].
  apply LCat; [| now apply link_tail_Lang].
  apply LGrp, LRep; [exact Hid |].
  destruct reel_id; [contradiction | cbn; lia].
Qed.

Lemma id_starts g s th :
  In th (matches re_id g s) -> exists c s', s = c :: s' /\ id_char c = true.
Proof.
  intros H. destruct (id_holds _ _ _ H) as (tok & tl & -> & _ & Hne & Hid & _).
  destruct tok as [| c tok]; [contradiction |].
  inversion Hid; subst. now exists c, (tok ++ tl ++ snd th).
Qed.

Ltac chars E :=
  cbv [str list_ascii_of_string] in E; cbn [app] in E;
  try discriminate E; injection E as E.

(** The full match of a link holds the identifier of the link, whether
    the link names a profile or not. *)
Lemma reel_link_group secure www profile reel_id tail th :
  reel_id <> [] ->
  Forall (fun c => id_char c = true) reel_id ->
  (forall name, profile = Some name ->
     name <> [] /\ Forall (fun c => seg_char c = true) name) ->
  link_tail tail ->
  fullmatch INSTAGRAM_REEL_PATTERN (reel_link secure www profile reel_id tail)
  = Some th ->
  group1 th = reel_id.
Proof.
  intros Hne Hid Hp Ht F.
  apply fullmatch_is_match in F. destruct F as [Hin He].
  destruct (pattern_first_inv _ _ Hin)
    as (p2 & p4 & p6 & rest & E & D2 & D4 & D6 & Hid').
  unfold reel_link in E. apply app_inv_head in E.
  assert (E' : p6 ++ str "reel/" ++ rest
               = match profile with
                 | Some name => name ++ str "/"
                 | None => []
                 end ++ str "reel/" ++ reel_id ++ tail).
  { destruct D2 as [-> | ->], secure; chars E;
      destruct D4 as [-> | ->], www; chars E; now symmetry. }
  clear E D2 D4 p2 p4.
  assert (R : rest = reel_id ++ tail).
  { destruct D6 as [-> | (name & -> & Hn & Hs)], profile as [name0 |].
    - (* the profile would be read as the word before the identifier *)
      exfalso. destruct (Hp name0 eq_refl) as [_ Hs0].
      cbn [app] in E'. rewrite <- app_assoc in E'.
      change (str "reel/" ++ rest) with (str "reel" ++ str "/" ++ rest) in E'.
      apply (run_split seg_char) in E';
        [| repeat constructor | exact Hs0 | reflexivity | reflexivity].
      destruct E' as [_ E']. apply app_inv_head in E'. subst rest.
      destruct (matches_sound _ _ _ _ (hd_error_In _ Hid')) as (pre & Es & Lid).
      rewrite He, app_nil_r in Es. subst pre.
      destruct reel_id as [| c reel_id]; [contradiction |].
      inversion Hid; subst.
      now apply (@no_id_before_reel c (reel_id ++ tail)).
    - cbn [app] in E'. now apply app_inv_head in E'.
    - rewrite <- !app_assoc in E'.
      apply (run_split seg_char) in E';
        [| exact Hs | apply (Hp name0 eq_refl) | reflexivity | reflexivity].
      destruct E' as [_ E']. now do 2 apply app_inv_head in E'.
    - (* a profile would be read where there is none *)
      exfalso. cbn [app] in E'. rewrite <- app_assoc in E'.
      change (str "reel/" ++ reel_id ++ tail)
        with (str "reel" ++ str "/" ++ reel_id ++ tail) in E'.
      apply (run_split seg_char) in E';
        [| exact Hs | repeat constructor | reflexivity | reflexivity].
      destruct E' as [_ E']. apply app_inv_head in E'.
      change (str "reel/" ++ rest) with (str "reel" ++ str "/" ++ rest) in E'.
      apply (run_split id_char) in E';
        [| repeat constructor | exact Hid | reflexivity
         | now apply link_tail_stops_id].
      destruct E' as [_ E'].
      destruct (id_starts _ _ _ (hd_error_In _ Hid')) as (c & s' & -> & Hc).
      apply link_tail_Lang in Ht. rewrite <- E' in Ht.
      apply Lang_tail_head in Ht. destruct Ht as [_ [Ht | (q & Ht)]];
        [discriminate Ht |].
      injection Ht as -> _. discriminate Hc. }
  subst rest.
  destruct (id_holds _ _ _ (hd_error_In _ Hid'))
    as (tok & tl & E & Hg & _ & Htok & Ltl).
  rewrite He, app_nil_r in E.
  apply (run_split id_char) in E;
    [| exact Hid | exact Htok | now apply link_tail_stops_id
     | now apply link_tail_stops_id, link_tail_Lang].
  destruct E as [-> _]. unfold group1. now rewrite Hg.
Qed.

(** A text of the pattern's language whose full match holds
    [reel_id]. *)
Lemma link_reads (link reel_id : text) :
  Lang INSTAGRAM_REEL_PATTERN link ->
  (forall th, fullmatch INSTAGRAM_REEL_PATTERN link = Some th ->
              group1 th = reel_id) ->
  is_link_only link = true /\ reel_matches link = [reel_id].
Proof.
  intros L G. apply is_link_only_Lang in L. split; [exact L |].
  revert L. unfold is_link_only.
  destruct (fullmatch INSTAGRAM_REEL_PATTERN link) as [th |] eqn:F;
    [intros _ | discriminate].
  rewrite (link_only_one_match _ F). f_equal. now apply G.
Qed.

(** X4. A message that is one well-formed link and nothing else is
    link-only, and [re.findall] returns the identifier of the link and
    nothing else: whatever the scheme, with or without [www.], with or
    without a profile name (even one called [reel]), with or without a
    query or a closing slash. *)
Theorem reel_link_extracted (secure www : bool) (profile : option text)
    (reel_id tail : text) :
  reel_id <> [] ->
  Forall (fun c => id_char c = true) reel_id ->
  (forall name, profile = Some name ->
     name <> [] /\ Forall (fun c => seg_char c = true) name) ->
  link_tail tail ->
  is_link_only (reel_link secure www profile reel_id tail) = true
  /\ reel_matches (reel_link secure www profile reel_id tail) = [reel_id].
Proof.
  intros Hne Hid Hp Ht. apply link_reads.
  - exact (@reel_link_Lang secure www profile reel_id tail Hne Hid Hp Ht).
  - intros th F.
    exact (@reel_link_group secure www profile reel_id tail th Hne Hid Hp Ht F).
Qed.

Lemma reel_link_extracted_witness :
  is_link_only (str "https://www.instagram.com/reel/reel/A_b-9/?x=1") = true
  /\ reel_matches (str "https://www.instagram.com/reel/reel/A_b-9/?x=1")
     = [str "A_b-9"].
Proof.
  apply (@reel_link_extracted true true (Some (str "reel")) (str "A_b-9")
           (str "/?x=1")).
  - discriminate.
  - repeat constructor.
  - intros name H. injection H as <-. split; [discriminate | repeat constructor].
  - right. right. exists (str "x=1"). split; [reflexivity | repeat constructor].
Defined.

(** The identifiers extracted are non-empty runs of identifier
    characters. *)
Lemma reel_matches_id_chars (body reel_id : text) :
  In reel_id (reel_matches body) ->
  reel_id <> [] /\ Forall (fun c => id_char c = true) reel_id.
Proof.
  remember (length body) as n eqn:Hn. revert body Hn.
  induction n as [n IH] using lt_wf_ind. intros body -> H.
  rewrite findall_step in H.
  destruct (search INSTAGRAM_REEL_PATTERN body) as [th |] eqn:E;
    [| destruct H].
  pose proof (search_shorter _ E) as Hlen.
  destruct H as [<- | H].
  - destruct (search_inv _ _ E) as (skipped & s' & _ & Hm).
    apply hd_error_In, pattern_holds in Hm.
    destruct Hm as (pre & tok & tl & _ & Hg & Hne & Hid & _).
    unfold group1. rewrite Hg. now split.
  - exact (IH _ Hlen (snd th) eq_refl H).
Qed.

(** X5. The caption of a delivery reads back: the source link the
    handler writes for an identifier it extracted is itself a link-only
    text, and the identifier extracted from it is the same one. *)
Theorem source_link_round_trip (body reel_id : text) :
  In reel_id (reel_matches body) ->
  is_link_only (source_link reel_id) = true
  /\ reel_matches (source_link reel_id) = [reel_id].
Proof.
  intros H. destruct (reel_matches_id_chars _ _ H) as [Hne Hid].
  assert (E : source_link reel_id = reel_link true false None reel_id []).
  { unfold source_link, reel_link. cbn [app]. now rewrite app_nil_r. }
  assert (Hp : forall name, @None text = Some name ->
               name <> [] /\ Forall (fun c => seg_char c = true) name)
    by (intros name Hn; discriminate Hn).
  assert (Ht : link_tail []) by now left.
  rewrite E. apply link_reads.
  - exact (@reel_link_Lang true false None reel_id [] Hne Hid Hp Ht).
  - intros th F.
    exact (@reel_link_group true false None reel_id [] th Hne Hid Hp Ht F).
Qed.

Lemma source_link_round_trip_witness :
  is_link_only (source_link (str "XYZ")) = true
  /\ reel_matches (source_link (str "XYZ")) = [str "XYZ"].
Proof.
  apply (@source_link_round_trip (str link_in_text) (str "XYZ")).
  vm_compute. left. reflexivity.
Defined.

(* ================================================================= *)
(** ** The fetcher, whatever the provider does *)

Ltac conj_split := repeat match goal with |- _ /\ _ => split end.

Lemma sleeps_in_app (t1 t2 : list event) :
  sleeps_in (t1 ++ t2) = sleeps_in t1 + sleeps_in t2.
Proof. unfold sleeps_in. now rewrite filter_app, length_app. Qed.

(** An attempt returns the path of the video when it goes through, and
    raises otherwise. *)
Lemma attempt_result_goes_through a shortcode :
  (goes_through a = true
   /\ attempt_result a shortcode = Return (video_path_of shortcode))
  \/ (goes_through a = false
      /\ exists e, attempt_result a shortcode = Raise e).
Proof.
  unfold goes_through, attempt_result, run, fetch_once, bind,
    Post_from_shortcode, perform, check_file, raise, ret, video_path_of.
  destruct a as [[e | [[|]]] [d |] [n |]]; cbn;
    try destruct (n =? 0)%Z; cbn; eauto.
Qed.

Lemma goes_through_result a shortcode path :
  attempt_result a shortcode = Return path ->
  goes_through a = true /\ path = video_path_of shortcode.
Proof.
  intros H.
  destruct (attempt_result_goes_through a shortcode) as [[G E] | [G [e E]]];
    rewrite E in H; [| discriminate].
  injection H as <-. now split.
Qed.

Lemma goes_through_raise a shortcode e :
  attempt_result a shortcode = Raise e -> goes_through a = false.
Proof.
  intros H.
  destruct (attempt_result_goes_through a shortcode) as [[G E] | [G _]];
    [rewrite E in H; discriminate | exact G].
Qed.

Lemma attempt_calls_fetches a shortcode :
  Forall (fetches shortcode) (attempt_calls a shortcode).
Proof.
  unfold attempt_calls, run, fetch_once, bind,
    Post_from_shortcode, perform, check_file, raise, ret, fetches.
  destruct a as [[e | [[|]]] [d |] [n |]]; cbn;
    try destruct (n =? 0)%Z; cbn;
    repeat (apply Forall_cons || apply Forall_nil); eauto 6.
Qed.

Lemma attempt_calls_last a shortcode :
  exists pre ev, attempt_calls a shortcode = pre ++ [ev] /\ is_sleep ev = false.
Proof.
  unfold attempt_calls, run, fetch_once, bind,
    Post_from_shortcode, perform, check_file, raise, ret.
  destruct a as [[e | [[|]]] [d |] [n |]]; cbn;
    try destruct (n =? 0)%Z; cbn;
    first [ now exists [], (from_shortcode shortcode, true)
          | now exists [], (from_shortcode shortcode, false)
          | now exists [(from_shortcode shortcode, true)],
                       (download_post shortcode TEMP_DIR, true)
          | now exists [(from_shortcode shortcode, true)],
                       (download_post shortcode TEMP_DIR, false) ].
Qed.

(** The run of [download_reel] by the first attempt that returns, if
    any. *)
Lemma download_reel_cases p shortcode :
  (exists k path,
      (1 <= k <= MAX_RETRIES)%Z
      /\ attempt_result (p k) shortcode = Return path
      /\ (forall j, (1 <= j < k)%Z ->
            exists e, attempt_result (p j) shortcode = Raise e)
      /\ fetch_result p shortcode = Return path
      /\ (fetch_calls p shortcode = attempt_calls (p 1%Z) shortcode
          \/ fetch_calls p shortcode
             = attempt_calls (p 1%Z) shortcode ++ [(sleep RETRY_DELAY, true)]
                 ++ attempt_calls (p 2%Z) shortcode
          \/ fetch_calls p shortcode = three_attempts p shortcode)
      /\ attempts_in (fetch_calls p shortcode) = Z.to_nat k
      /\ sleeps_in (fetch_calls p shortcode) = Z.to_nat k - 1)
  \/ (exists e,
        (forall j, (1 <= j <= MAX_RETRIES)%Z ->
           exists e', attempt_result (p j) shortcode = Raise e')
        /\ attempt_result (p MAX_RETRIES) shortcode = Raise e
        /\ fetch_result p shortcode
           = Raise (ErrorDownload (Some (captured e shortcode))
                                  (MAX_RETRIES + 1))
        /\ fetch_calls p shortcode = three_attempts p shortcode).
Proof.
  assert (B : forall k, (k <= 3)%Z -> (k <= MAX_RETRIES)%Z)
    by (unfold MAX_RETRIES; lia).
  pose proof (attempt_calls_one_attempt shortcode (p 1%Z)) as [A1 S1].
  pose proof (attempt_calls_one_attempt shortcode (p 2%Z)) as [A2 S2].
  pose proof (attempt_calls_one_attempt shortcode (p 3%Z)) as [A3 S3].
  unfold fetch_result, fetch_calls, run, download_reel.
  change (Z.to_nat MAX_RETRIES) with 3.
  destruct (attempt_result_cases (p 1%Z) shortcode) as [[path E1] | [e1 E1]].
  { left. exists 1%Z, path.
    rewrite (@retry_loop_fetched p shortcode 2 1%Z None path []
               (B 1%Z ltac:(lia)) E1).
    cbn [fst snd app]. rewrite A1, S1.
    conj_split; try (unfold MAX_RETRIES; lia); auto. }
  rewrite (@retry_loop_failed p shortcode 2 1%Z None e1 []
             (B 1%Z ltac:(lia)) E1).
  change (1 + 1)%Z with 2%Z. change (2 <=? MAX_RETRIES)%Z with true.
  cbn iota. cbn [app].
  destruct (attempt_result_cases (p 2%Z) shortcode) as [[path E2] | [e2 E2]].
  { left. exists 2%Z, path.
    rewrite (@retry_loop_fetched p shortcode 1 2%Z _ path _
               (B 2%Z ltac:(lia)) E2).
    cbn [fst snd]. rewrite <- !app_assoc.
    rewrite !attempts_in_app, !sleeps_in_app, A1, S1, A2, S2.
    conj_split; try (unfold MAX_RETRIES; lia); auto.
    intros j Hj. assert (j = 1%Z) as -> by lia. eauto. }
  rewrite (@retry_loop_failed p shortcode 1 2%Z _ e2 _
             (B 2%Z ltac:(lia)) E2).
  change (2 + 1)%Z with 3%Z. change (3 <=? MAX_RETRIES)%Z with true.
  cbn iota.
  destruct (attempt_result_cases (p 3%Z) shortcode) as [[path E3] | [e3 E3]].
  { left. exists 3%Z, path.
    rewrite (@retry_loop_fetched p shortcode 0 3%Z _ path _
               (B 3%Z ltac:(lia)) E3).
    cbn [fst snd]. unfold three_attempts. rewrite <- !app_assoc.
    rewrite !attempts_in_app, !sleeps_in_app, A1, S1, A2, S2, A3, S3.
    conj_split; try (unfold MAX_RETRIES; lia); auto.
    intros j Hj.
    assert (j = 1%Z \/ j = 2%Z) as [-> | ->] by lia; eauto. }
  right. exists e3.
  rewrite (@retry_loop_failed p shortcode 0 3%Z _ e3 _
             (B 3%Z ltac:(lia)) E3).
  change (3 + 1)%Z with 4%Z. change (4 <=? MAX_RETRIES)%Z with false.
  cbn iota. cbn [retry_loop].
  change (4 <=? MAX_RETRIES)%Z with false. cbn iota.
  unfold raise. cbn [fst snd]. unfold three_attempts.
  rewrite <- !app_assoc, app_nil_r.
  conj_split; auto.
  intros j Hj. unfold MAX_RETRIES in Hj.
  assert (j = 1%Z \/ j = 2%Z \/ j = 3%Z) as [-> | [-> | ->]] by lia; eauto.
Qed.

Lemma fetch_result_path p shortcode video_path :
  fetch_result p shortcode = Return video_path ->
  video_path = video_path_of shortcode.
Proof.
  intros H.
  destruct (download_reel_cases p shortcode)
    as [(k & path & _ & Ek & _ & R & _) | (e & _ & _ & R & _)];
    rewrite R in H; [| discriminate].
  injection H as ->. exact (proj2 (goes_through_result _ _ Ek)).
Qed.

Lemma fetch_calls_counts p shortcode :
  1 <= attempts_in (fetch_calls p shortcode) <= 3
  /\ attempts_in (fetch_calls p shortcode)
     = S (sleeps_in (fetch_calls p shortcode)).
Proof.
  pose proof (attempt_calls_one_attempt shortcode (p 1%Z)) as [A1 S1].
  pose proof (attempt_calls_one_attempt shortcode (p 2%Z)) as [A2 S2].
  pose proof (attempt_calls_one_attempt shortcode (p 3%Z)) as [A3 S3].
  destruct (download_reel_cases p shortcode)
    as [(k & path & Hk & _ & _ & _ & [C | [C | C]] & A & S)
       | (e & _ & _ & _ & C)]; rewrite C; unfold three_attempts;
    rewrite ?attempts_in_app, ?sleeps_in_app, ?A1, ?S1, ?A2, ?S2, ?A3, ?S3;
    cbn; lia.
Qed.

Lemma fetch_calls_fetches p shortcode :
  Forall (fetches shortcode) (fetch_calls p shortcode).
Proof.
  assert (F : forall a, Forall (fetches shortcode) (attempt_calls a shortcode))
    by (intros a; apply attempt_calls_fetches).
  assert (Sl : fetches shortcode (sleep RETRY_DELAY, true))
    by (right; now right).
  destruct (download_reel_cases p shortcode)
    as [(k & path & Hk & _ & _ & _ & [C | [C | C]] & A & S)
       | (e & _ & _ & _ & C)]; rewrite C; unfold three_attempts;
    repeat (apply Forall_app; split); auto.
Qed.

(** X6. A path [download_reel] returns is [TEMP_DIR/<shortcode>.mp4],
    and it stands for an attempt, the first of at most [MAX_RETRIES], in
    which the post resolved to a video, the download returned and the
    file was found and not empty; every attempt before it failed, and
    the run made as many lookups as that attempt's number, with one
    suspension fewer. *)
Theorem download_reel_returns (p : provider) (shortcode video_path : text) :
  fetch_result p shortcode = Return video_path ->
  video_path = video_path_of shortcode
  /\ exists k,
       (1 <= k <= MAX_RETRIES)%Z
       /\ goes_through (p k) = true
       /\ (forall j, (1 <= j < k)%Z -> goes_through (p j) = false)
       /\ attempts_in (fetch_calls p shortcode) = Z.to_nat k
       /\ sleeps_in (fetch_calls p shortcode) = Z.to_nat k - 1.
Proof.
  intros H.
  destruct (download_reel_cases p shortcode)
    as [(k & path & Hk & Ek & Hj & R & _ & A & S) | (e & _ & _ & R & _)];
    rewrite R in H; [| discriminate].
  injection H as ->.
  destruct (goes_through_result _ _ Ek) as [G ->].
  split; [reflexivity |]. exists k.
  split; [exact Hk |]. split; [exact G |]. split; [| now split].
  intros j Hlt. destruct (Hj j Hlt) as [e E].
  exact (goes_through_raise _ _ E).
Qed.

Lemma download_reel_returns_witness :
  str "temp_downloads/ABC123.mp4" = video_path_of (str "ABC123")
  /\ exists k,
       (1 <= k <= MAX_RETRIES)%Z
       /\ goes_through (fetched_at_third k) = true
       /\ (forall j, (1 <= j < k)%Z -> goes_through (fetched_at_third j) = false)
       /\ attempts_in (fetch_calls fetched_at_third (str "ABC123")) = Z.to_nat k
       /\ sleeps_in (fetch_calls fetched_at_third (str "ABC123"))
          = Z.to_nat k - 1.
Proof.
  apply (@download_reel_returns fetched_at_third (str "ABC123")
           (str "temp_downloads/ABC123.mp4")).
  vm_compute. reflexivity.
Defined.

(** X7. An [ErrorDownload] that leaves [download_reel] means that
    none of the [MAX_RETRIES] attempts went through: it carries the text
    captured from the last attempt's exception and the count
    [MAX_RETRIES + 1], and the run made all three attempts, with a
    suspension after the first and after the second. *)
Theorem download_reel_raises (p : provider) (shortcode : text)
    (last_error : option text) (retry_count : Z) :
  fetch_result p shortcode = Raise (ErrorDownload last_error retry_count) ->
  (forall k, (1 <= k <= MAX_RETRIES)%Z -> goes_through (p k) = false)
  /\ (exists e_last,
        attempt_result (p MAX_RETRIES) shortcode = Raise e_last
        /\ last_error = Some (captured e_last shortcode))
  /\ retry_count = (MAX_RETRIES + 1)%Z
  /\ fetch_calls p shortcode = three_attempts p shortcode.
Proof.
  intros H.
  destruct (download_reel_cases p shortcode)
    as [(k & path & _ & _ & _ & R & _) | (e3 & Hall & E3 & R & C)];
    rewrite R in H; [discriminate |].
  injection H as <- <-.
  conj_split; [| now exists e3 | reflexivity | exact C].
  intros k Hk. destruct (Hall k Hk) as [e' E].
  exact (goes_through_raise _ _ E).
Qed.

Lemma download_reel_raises_witness :
  (forall k, (1 <= k <= MAX_RETRIES)%Z -> goes_through (never_fetched k) = false)
  /\ (exists e_last,
        attempt_result (never_fetched MAX_RETRIES) (str "ABC123") = Raise e_last
        /\ Some (captured (OtherException (str "third")) (str "ABC123"))
           = Some (captured e_last (str "ABC123")))
  /\ 4%Z = (MAX_RETRIES + 1)%Z
  /\ fetch_calls never_fetched (str "ABC123")
     = three_attempts never_fetched (str "ABC123").
Proof.
  apply (@download_reel_raises never_fetched (str "ABC123")
           (Some (captured (OtherException (str "third")) (str "ABC123")))
           4%Z).
  vm_compute. reflexivity.
Defined.

Lemma attempt_calls_shape a shortcode :
  attempt_shape shortcode (attempt_calls a shortcode).
Proof.
  unfold attempt_calls, run, fetch_once, bind,
    Post_from_shortcode, perform, check_file, raise, ret, attempt_shape.
  destruct a as [[e | [[|]]] [d |] [n |]]; cbn;
    try destruct (n =? 0)%Z; cbn; eauto.
Qed.

(** X8. Whatever the provider does, a run of [download_reel] is one,
    two or three attempts with exactly one suspension of [RETRY_DELAY]
    seconds between each two consecutive attempts and nothing else:
    no suspension before the first attempt, inside an attempt or after
    the last.  An attempt is one lookup of the shortcode asked for,
    followed by at most its download into [TEMP_DIR].  So the lookups
    are at least one and at most [MAX_RETRIES], and the suspensions one
    fewer. *)
Theorem fetch_calls_bounded (p : provider) (shortcode : text) :
  (exists n,
      1 <= n <= Z.to_nat MAX_RETRIES
      /\ fetch_calls p shortcode
         = joined [(sleep RETRY_DELAY, true)]
                  (map (fun k => attempt_calls (p (Z.of_nat k)) shortcode)
                       (seq 1 n)))
  /\ (forall a, attempt_shape shortcode (attempt_calls a shortcode))
  /\ 1 <= attempts_in (fetch_calls p shortcode) <= Z.to_nat MAX_RETRIES
  /\ attempts_in (fetch_calls p shortcode)
     = S (sleeps_in (fetch_calls p shortcode))
  /\ Forall (fetches shortcode) (fetch_calls p shortcode)
  /\ (forall pre ev, fetch_calls p shortcode = pre ++ [ev] ->
        is_sleep ev = false).
Proof.
  change (Z.to_nat MAX_RETRIES) with 3.
  destruct (fetch_calls_counts p shortcode) as [Hc Hs].
  split.
  { destruct (download_reel_cases p shortcode)
      as [(k & path & _ & _ & _ & _ & [C | [C | C]] & _)
         | (e & _ & _ & _ & C)]; rewrite C.
    - exists 1. split; [lia | reflexivity].
    - exists 2. split; [lia | reflexivity].
    - exists 3. split; [lia | reflexivity].
    - exists 3. split; [lia | reflexivity]. }
  split; [intros a; apply attempt_calls_shape |].
  split; [exact Hc |]. split; [exact Hs |].
  split; [apply fetch_calls_fetches |].
  assert (L : forall pre0 a pre ev,
             pre0 ++ attempt_calls a shortcode = pre ++ [ev] ->
             is_sleep ev = false).
  { intros pre0 a pre ev E.
    destruct (attempt_calls_last a shortcode) as (pre1 & ev1 & E1 & Hl).
    rewrite E1, app_assoc in E. apply app_inj_tail in E.
    destruct E as [_ <-]. exact Hl. }
  intros pre ev.
  destruct (download_reel_cases p shortcode)
    as [(k & path & _ & _ & _ & _ & [C | [C | C]] & _)
       | (e & _ & _ & _ & C)]; rewrite C; unfold three_attempts; intros E.
  - exact (L [] _ _ _ E).
  - rewrite !app_assoc in E. exact (L _ _ _ _ E).
  - rewrite !app_assoc in E. exact (L _ _ _ _ E).
  - rewrite !app_assoc in E. exact (L _ _ _ _ E).
Qed.

Lemma fetch_calls_bounded_witness :
  (exists n,
      1 <= n <= Z.to_nat MAX_RETRIES
      /\ fetch_calls fetched_at_third (str "ABC123")
         = joined [(sleep RETRY_DELAY, true)]
                  (map (fun k => attempt_calls (fetched_at_third (Z.of_nat k))
                                               (str "ABC123"))
                       (seq 1 n)))
  /\ (forall a, attempt_shape (str "ABC123") (attempt_calls a (str "ABC123")))
  /\ 1 <= attempts_in (fetch_calls fetched_at_third (str "ABC123"))
       <= Z.to_nat MAX_RETRIES
  /\ attempts_in (fetch_calls fetched_at_third (str "ABC123"))
     = S (sleeps_in (fetch_calls fetched_at_third (str "ABC123")))
  /\ Forall (fetches (str "ABC123"))
            (fetch_calls fetched_at_third (str "ABC123"))
  /\ (forall pre ev,
        fetch_calls fetched_at_third (str "ABC123") = pre ++ [ev] ->
        is_sleep ev = false).
Proof.
  exact (@fetch_calls_bounded fetched_at_third (str "ABC123")).
Defined.

(** X9. A post that holds no video is never downloaded, and it is
    retried like any failure: when every lookup resolves to such a post,
    [download_reel] looks the shortcode up three times, two suspensions
    apart, calls [download_post] not once, and raises [ErrorDownload]
    with the text of the [ValueError] and the count [MAX_RETRIES + 1]. *)
Theorem download_reel_not_a_video (p : provider) (shortcode : text)
    (t : list event) :
  (forall k, (1 <= k <= MAX_RETRIES)%Z ->
     exists post, resolves (p k) = inr post /\ is_video post = false) ->
  download_reel p shortcode t
  = (Raise (ErrorDownload
              (Some (captured (ValueError (str "Публикация не содержит видео"))
                              shortcode))
              (MAX_RETRIES + 1)),
     t ++ [ (from_shortcode shortcode, true); (sleep RETRY_DELAY, true);
            (from_shortcode shortcode, true); (sleep RETRY_DELAY, true);
            (from_shortcode shortcode, true) ]).
Proof.
  intros H.
  assert (R : forall k, (1 <= k <= MAX_RETRIES)%Z ->
            attempt_result (p k) shortcode
            = Raise (ValueError (str "Публикация не содержит видео"))
            /\ attempt_calls (p k) shortcode = [(from_shortcode shortcode, true)]).
  { intros k Hk. destruct (H k Hk) as (post & E & V).
    unfold attempt_result, attempt_calls, run, fetch_once, bind,
      Post_from_shortcode, raise.
    rewrite E. cbn [fst snd app]. rewrite V. now cbn. }
  rewrite download_reel_frame.
  destruct (download_reel_cases p shortcode)
    as [(k & path & Hk & Ek & _) | (e & _ & E3 & -> & ->)].
  - rewrite (proj1 (R k Hk)) in Ek. discriminate Ek.
  - rewrite (proj1 (R MAX_RETRIES ltac:(unfold MAX_RETRIES; lia))) in E3.
    injection E3 as <-. unfold three_attempts.
    rewrite (proj2 (R 1%Z ltac:(unfold MAX_RETRIES; lia))),
      (proj2 (R 2%Z ltac:(unfold MAX_RETRIES; lia))),
      (proj2 (R 3%Z ltac:(unfold MAX_RETRIES; lia))).
    reflexivity.
Qed.

Lemma download_reel_not_a_video_witness :
  download_reel never_a_video (str "ABC123") []
  = (Raise (ErrorDownload
              (Some (captured (ValueError (str "Публикация не содержит видео"))
                              (str "ABC123")))
              (MAX_RETRIES + 1)),
     [] ++ [ (from_shortcode (str "ABC123"), true); (sleep RETRY_DELAY, true);
             (from_shortcode (str "ABC123"), true); (sleep RETRY_DELAY, true);
             (from_shortcode (str "ABC123"), true) ]).
Proof.
  apply (@download_reel_not_a_video never_a_video (str "ABC123") []).
  intros k _. eexists. split; reflexivity.
Defined.

(* ================================================================= *)
(** ** The gate and the dispatcher, whatever the transport does *)

(** The run of the gate, by the chat and the outcome of the lookup. *)
Lemma check_bot_permissions_run w update :
  run (check_bot_permissions w update)
  = match effective_chat update with
    | None => (Return (Some false), [])
    | Some chat =>
        if ChatType_eqb (chat_type chat) PRIVATE
        then (Return (Some true), [])
        else
          match on_get_member w with
          | inl e =>
              (if is_BadRequest e then Return (Some false) else Raise e,
               [(get_member (chat_id chat), false)])
          | inr bot_member =>
              (Return
                 (if ChatType_eqb (chat_type chat) SUPERGROUP
                     && ChatMemberStatus_eqb (status bot_member) ADMINISTRATOR
                  then Some true
                  else if is_ChatMemberAdministrator bot_member
                  then Some (has_rights bot_member required_rights)
                  else if ChatMemberStatus_eqb (status bot_member) MEMBER
                  then Some true
                  else None),
               [(get_member (chat_id chat), true)])
          end
    end.
Proof.
  unfold run, check_bot_permissions, try_except, bind, chat_get_member, ret.
  destruct (effective_chat update) as [chat |]; [| reflexivity].
  destruct (ChatType_eqb (chat_type chat) PRIVATE); [reflexivity |].
  destruct (on_get_member w) as [e | m]; cbn [app].
  - now destruct (is_BadRequest e).
  - destruct (ChatType_eqb (chat_type chat) SUPERGROUP
              && ChatMemberStatus_eqb (status m) ADMINISTRATOR);
      [reflexivity |].
    destruct (is_ChatMemberAdministrator m); [reflexivity |].
    now destruct (ChatMemberStatus_eqb (status m) MEMBER).
Qed.

(** X10. The gate is contained: it never raises [BadRequest] (the only
    exception that leaves it is one the membership lookup raised, of
    another class), it always ends, it denies without any call when the
    update has no chat, and it makes no call but at most one membership
    lookup, on the chat of the update. *)
Theorem check_bot_permissions_contained (w : world) (update : Update) :
  (forall e, fst (run (check_bot_permissions w update)) = Raise e ->
     on_get_member w = inl e /\ is_BadRequest e = false)
  /\ fst (run (check_bot_permissions w update)) <> OutOfFuel
  /\ (effective_chat update = None ->
      run (check_bot_permissions w update) = (Return (Some false), []))
  /\ (snd (run (check_bot_permissions w update)) = []
      \/ exists chat ok,
           effective_chat update = Some chat
           /\ chat_type chat <> PRIVATE
           /\ snd (run (check_bot_permissions w update))
              = [(get_member (chat_id chat), ok)]).
Proof.
  rewrite check_bot_permissions_run.
  destruct (effective_chat update) as [chat |].
  2: { conj_split; try discriminate; auto. }
  destruct (ChatType_eqb (chat_type chat) PRIVATE) eqn:P.
  { conj_split; try discriminate; auto. }
  assert (Hp : chat_type chat <> PRIVATE)
    by (intros E; rewrite E in P; discriminate P).
  destruct (on_get_member w) as [e | m]; cbn [fst snd].
  - destruct (is_BadRequest e) eqn:B; conj_split; try discriminate.
    + right. now exists chat, false.
    + intros e' H. injection H as <-. now split.
    + right. now exists chat, false.
  - conj_split; try discriminate. right. now exists chat, true.
Qed.

Lemma check_bot_permissions_contained_witness :
  (forall e,
     fst (run (check_bot_permissions lookup_times_out (sent_to_group link_alone)))
     = Raise e ->
     on_get_member lookup_times_out = inl e /\ is_BadRequest e = false)
  /\ fst (run (check_bot_permissions lookup_times_out (sent_to_group link_alone)))
     <> OutOfFuel
  /\ (effective_chat (sent_to_group link_alone) = None ->
      run (check_bot_permissions lookup_times_out (sent_to_group link_alone))
      = (Return (Some false), []))
  /\ (snd (run (check_bot_permissions lookup_times_out
                                      (sent_to_group link_alone))) = []
      \/ exists chat ok,
           effective_chat (sent_to_group link_alone) = Some chat
           /\ chat_type chat <> PRIVATE
           /\ snd (run (check_bot_permissions lookup_times_out
                                              (sent_to_group link_alone)))
              = [(get_member (chat_id chat), ok)]).
Proof.
  exact (@check_bot_permissions_contained lookup_times_out
           (sent_to_group link_alone)).
Defined.

Lemma framed_notify_denied w update em : framed (notify_denied w update em).
Proof.
  unfold notify_denied. apply framed_try_except.
  - destruct (effective_chat update) as [chat |]; [| apply framed_raise].
    destruct (negb (ChatType_eqb (chat_type chat) CHANNEL));
      [apply framed_perform | apply framed_ret].
  - intros e. apply framed_ret.
Qed.

(** The run of the notice, by the chat and the outcome of the reply. *)
Lemma notify_denied_run w update em :
  run (notify_denied w update em)
  = match effective_chat update with
    | None =>
        (Raise (AttributeError (str "'NoneType' object has no attribute 'type'")),
         [])
    | Some chat =>
        if ChatType_eqb (chat_type chat) CHANNEL then (Return tt, [])
        else (match on_reply_text w with
              | Some e => if is_BadRequest e then Return tt else Raise e
              | None => Return tt
              end,
              [(notice_call em, returned (on_reply_text w))])
    end.
Proof.
  unfold run, notify_denied, try_except, perform, raise, ret, notice_call.
  destruct (effective_chat update) as [chat |]; [| reflexivity].
  destruct (ChatType_eqb (chat_type chat) CHANNEL); cbn [negb];
    [reflexivity |].
  destruct (on_reply_text w) as [e |]; cbn [app returned]; [| reflexivity].
  now destruct (is_BadRequest e).
Qed.

(** The run of the handler on a message with a text, by the run of the
    gate. *)
Lemma handle_message_run w update em body :
  effective_message update = Some em ->
  message_text em = Some body ->
  is_empty body = false ->
  run (handle_message w update)
  = match run (check_bot_permissions w update) with
    | (Return allowed, gate_calls) =>
        if truthy allowed
        then (fst (turns w update em (is_link_only body) 0 (reel_matches body)),
              gate_calls
                ++ snd (turns w update em (is_link_only body) 0
                              (reel_matches body)))
        else (fst (run (notify_denied w update em)),
              gate_calls ++ snd (run (notify_denied w update em)))
    | (Raise e, gate_calls) => (Raise e, gate_calls)
    | (OutOfFuel, gate_calls) => (OutOfFuel, gate_calls)
    end.
Proof.
  intros Hem Hb He. unfold run at 1. unfold handle_message.
  rewrite Hem, Hb, He. unfold bind. fold (run (check_bot_permissions w update)).
  destruct (run (check_bot_permissions w update)) as [[allowed | e |] gate_calls];
    try reflexivity.
  destruct (truthy allowed); cbn [negb].
  - apply for_reels_run.
  - apply framed_notify_denied.
Qed.

(** X11. When the gate denies, nothing is fetched and nothing is sent
    but the notice: for any text that is not empty, with or without a
    link in it, the handler makes the calls of the gate and, unless the
    chat is a channel, one reply to the message with the notice about
    the missing rights; a [BadRequest] from that reply is swallowed, any
    other exception leaves the handler. *)
Theorem handle_message_denied (w : world) (update : Update) (em : Message)
    (body : text) (chat : Chat) (allowed : option bool)
    (gate_calls : list event) :
  effective_message update = Some em ->
  message_text em = Some body ->
  body <> [] ->
  effective_chat update = Some chat ->
  run (check_bot_permissions w update) = (Return allowed, gate_calls) ->
  truthy allowed = false ->
  run (handle_message w update)
  = if ChatType_eqb (chat_type chat) CHANNEL
    then (Return tt, gate_calls)
    else (match on_reply_text w with
          | Some e => if is_BadRequest e then Return tt else Raise e
          | None => Return tt
          end,
          gate_calls ++ [(notice_call em, returned (on_reply_text w))]).
Proof.
  intros Hem Hb Hne Hc Hg Ha.
  rewrite (handle_message_run w update Hem Hb (is_empty_false Hne)).
  rewrite Hg, Ha, notify_denied_run, Hc.
  destruct (ChatType_eqb (chat_type chat) CHANNEL); cbn [fst snd];
    [now rewrite app_nil_r | reflexivity].
Qed.

Lemma handle_message_denied_witness :
  run (handle_message bot_restricted (sent_to_group no_link))
  = (Return tt,
     [(get_member 7, true)]
       ++ [(reply_text 42 rights_notice 42, true)]).
Proof.
  apply (@handle_message_denied bot_restricted (sent_to_group no_link)
           (message_with no_link group_chat (Some 5%Z)) (str no_link)
           group_chat None [(get_member 7, true)]).
  - reflexivity.
  - reflexivity.
  - discriminate.
  - reflexivity.
  - vm_compute. reflexivity.
  - reflexivity.
Defined.

(** The calls of a turn: those of its body and, when the body raised,
    the request for the reaction. *)
Lemma turn_calls w update em link_only i reel_id :
  snd (turn w update em link_only i reel_id)
  = snd (delivery w update em link_only i reel_id)
      ++ match fst (delivery w update em link_only i reel_id) with
         | Raise _ => [(thumbs_down em, returned (on_set_reaction w i))]
         | _ => []
         end.
Proof.
  unfold turn.
  destruct (delivery w update em link_only i reel_id) as [[[] | e |] calls];
    cbn [fst snd]; now rewrite ?app_nil_r.
Qed.

Lemma turns_cons w update em link_only i reel_id rest :
  turns w update em link_only i (reel_id :: rest)
  = match fst (turn w update em link_only i reel_id) with
    | Return _ =>
        (fst (turns w update em link_only (S i) rest),
         snd (turn w update em link_only i reel_id)
           ++ snd (turns w update em link_only (S i) rest))
    | _ => turn w update em link_only i reel_id
    end.
Proof.
  cbn [turns].
  now destruct (turn w update em link_only i reel_id) as [[[] | e |] calls].
Qed.

Lemma fetches_serves update em link_only reel_id ev :
  fetches reel_id ev -> serves update em link_only reel_id ev.
Proof.
  unfold fetches, serves.
  intros [[ok ->] | [[ok ->] | ->]]; cbn [fst]; auto.
Qed.

Lemma delivery_serves w update em link_only i reel_id :
  Forall (serves update em link_only reel_id)
         (snd (delivery w update em link_only i reel_id)).
Proof.
  assert (F : Forall (serves update em link_only reel_id)
                     (fetch_calls (on_fetch w i) reel_id)).
  { eapply Forall_impl; [| apply fetch_calls_fetches].
    intros ev. apply fetches_serves. }
  unfold delivery.
  destruct (message update) as [m |] eqn:Hm; [| constructor].
  assert (S : forall ok, serves update em link_only reel_id (upload_signal m, ok)).
  { intros ok. unfold serves, upload_signal. cbn [fst]. now exists m. }
  destruct (on_chat_action_before w i); cbn [snd]; [now repeat constructor |].
  destruct (fetch_result (on_fetch w i) reel_id) as [video_path | e |] eqn:R;
    cbn [snd]; try (constructor; [apply S | exact F]).
  apply fetch_result_path in R. subst video_path.
  destruct (on_chat_action_after w i); cbn [snd].
  { apply Forall_app. split; [constructor; [apply S | exact F] |].
    now repeat constructor. }
  assert (Rd : Forall (serves update em link_only reel_id)
                 (((upload_signal m, true) :: fetch_calls (on_fetch w i) reel_id)
                    ++ [(upload_signal m, true)])).
  { apply Forall_app. split; [constructor; [apply S | exact F] |].
    now repeat constructor. }
  destruct link_only.
  - destruct (on_send_video w i), (on_delete w i); cbn [snd];
      (apply Forall_app; split; [exact Rd |]);
      repeat (apply Forall_cons || apply Forall_nil);
      unfold serves; cbn [fst]; auto.
  - destruct (on_reply_video w i); cbn [snd];
      (apply Forall_app; split; [exact Rd |]);
      repeat (apply Forall_cons || apply Forall_nil);
      unfold serves; cbn [fst]; auto 6.
Qed.

Lemma turn_serves w update em link_only i reel_id :
  Forall (serves update em link_only reel_id)
         (snd (turn w update em link_only i reel_id)).
Proof.
  rewrite turn_calls. apply Forall_app. split; [apply delivery_serves |].
  destruct (fst (delivery w update em link_only i reel_id));
    repeat constructor.
Qed.

Lemma turns_serve w update em link_only reel_ids :
  forall i,
    Forall (fun ev => exists reel_id,
              In reel_id reel_ids /\ serves update em link_only reel_id ev)
           (snd (turns w update em link_only i reel_ids)).
Proof.
  induction reel_ids as [| reel_id rest IH]; intros i; [constructor |].
  assert (T : Forall (fun ev => exists reel_id',
                        In reel_id' (reel_id :: rest)
                        /\ serves update em link_only reel_id' ev)
                     (snd (turn w update em link_only i reel_id))).
  { eapply Forall_impl; [| apply turn_serves].
    intros ev H. exists reel_id. split; [now left | exact H]. }
  rewrite turns_cons.
  destruct (fst (turn w update em link_only i reel_id)); try exact T.
  cbn [snd]. apply Forall_app. split; [exact T |].
  eapply Forall_impl; [| apply (IH (S i))].
  intros ev (reel_id' & Hin & H). exists reel_id'. split; [now right | exact H].
Qed.

(** X13. Every call of the handler is accounted for: it is the
    membership lookup on the chat of the update, the notice in reply to
    the message, or a call of the turn for one of the identifiers
    extracted from the text: a signal to the chat of [update.message], a
    lookup, a download or a suspension of the fetcher for that
    identifier, the video [TEMP_DIR/<id>.mp4] sent with the caption
    [https://instagram.com/reel/<id>] for that same identifier (posted
    to the chat of the message when the text is link-only, sent in reply
    to the message otherwise), the deletion of the message itself
    (link-only texts alone), or the thumbs-down on the message. *)
Theorem handle_message_serves (w : world) (update : Update) (em : Message)
    (body : text) (ev : event) :
  effective_message update = Some em ->
  message_text em = Some body ->
  In ev (snd (run (handle_message w update))) ->
  (exists chat, effective_chat update = Some chat
                /\ fst ev = get_member (chat_id chat))
  \/ fst ev = notice_call em
  \/ exists reel_id,
       In reel_id (reel_matches body)
       /\ serves update em (is_link_only body) reel_id ev.
Proof.
  intros Hem Hb.
  destruct (is_empty body) eqn:He.
  { unfold run, handle_message. rewrite Hem, Hb, He. intros []. }
  rewrite (handle_message_run w update Hem Hb He).
  assert (G : forall ev', In ev' (snd (run (check_bot_permissions w update))) ->
              exists chat, effective_chat update = Some chat
                           /\ fst ev' = get_member (chat_id chat)).
  { rewrite check_bot_permissions_run. intros ev'.
    destruct (effective_chat update) as [chat |]; [| intros []].
    destruct (ChatType_eqb (chat_type chat) PRIVATE); [intros [] |].
    destruct (on_get_member w); cbn [snd]; intros [<- | []];
      now exists chat. }
  destruct (run (check_bot_permissions w update))
    as [[allowed | e |] gate_calls]; cbn [snd] in *; auto.
  destruct (truthy allowed); cbn [snd]; intros H; apply in_app_or in H;
    destruct H as [H | H]; auto.
  - right. right.
    pose proof (turns_serve w update em (is_link_only body) (reel_matches body) 0)
      as T.
    rewrite Forall_forall in T. exact (T ev H).
  - right. left. rewrite notify_denied_run in H.
    destruct (effective_chat update) as [chat |]; [| destruct H].
    destruct (ChatType_eqb (chat_type chat) CHANNEL); [destruct H |].
    cbn [snd] in H. now destruct H as [<- | []].
Qed.

Lemma handle_message_serves_witness :
  (exists chat, effective_chat (sent_to_group link_alone) = Some chat
                /\ fst (send_video 7 (str "temp_downloads/ABC123.mp4")
                                   (str "https://instagram.com/reel/ABC123"),
                        true)
                   = get_member (chat_id chat))
  \/ fst (send_video 7 (str "temp_downloads/ABC123.mp4")
                     (str "https://instagram.com/reel/ABC123"), true)
     = notice_call (message_with link_alone group_chat (Some 5%Z))
  \/ exists reel_id,
       In reel_id (reel_matches (str link_alone))
       /\ serves (sent_to_group link_alone)
                 (message_with link_alone group_chat (Some 5%Z))
                 (is_link_only (str link_alone)) reel_id
                 (send_video 7 (str "temp_downloads/ABC123.mp4")
                             (str "https://instagram.com/reel/ABC123"), true).
Proof.
  apply (@handle_message_serves all_fetched (sent_to_group link_alone)
           (message_with link_alone group_chat (Some 5%Z)) (str link_alone)
           (send_video 7 (str "temp_downloads/ABC123.mp4")
                       (str "https://instagram.com/reel/ABC123"), true)).
  - reflexivity.
  - reflexivity.
  - vm_compute. do 5 right. left. reflexivity.
Defined.

(** The requests counted in the calls of a turn: videos sent,
    reactions, attempts and suspensions. *)
Lemma delivery_counts w update em link_only i reel_id :
  length (filter is_send (snd (delivery w update em link_only i reel_id))) <= 1
  /\ filter is_reaction (snd (delivery w update em link_only i reel_id)) = []
  /\ attempts_in (snd (delivery w update em link_only i reel_id)) <= 3
  /\ sleeps_in (snd (delivery w update em link_only i reel_id)) <= 2.
Proof.
  pose proof (fetch_calls_inert (on_fetch w i) reel_id) as I.
  assert (Fs : filter is_send (fetch_calls (on_fetch w i) reel_id) = []).
  { apply inert_filter; [| exact I]. now intros [[] ok]. }
  assert (Fr : filter is_reaction (fetch_calls (on_fetch w i) reel_id) = []).
  { apply inert_filter; [| exact I]. now intros [[] ok]. }
  pose proof (fetch_calls_counts (on_fetch w i) reel_id) as [Fa Fb].
  unfold attempts_in, sleeps_in in *.
  unfold delivery.
  destruct (message update) as [m |]; [| cbn; repeat split; lia].
  destruct (on_chat_action_before w i); [cbn; repeat split; lia |].
  destruct (fetch_result (on_fetch w i) reel_id) as [video_path | e |];
    [destruct (on_chat_action_after w i);
     [| destruct link_only;
        [destruct (on_send_video w i), (on_delete w i)
        | destruct (on_reply_video w i)]] | |];
    cbn [snd]; rewrite ?filter_app;
    cbn [filter is_send is_reaction is_attempt is_sleep fst upload_signal];
    unfold event in *; rewrite ?length_app, ?Fs, ?Fr; cbn [length app];
    repeat split; lia.
Qed.

Lemma turn_counts w update em link_only i reel_id :
  length (filter is_send (snd (turn w update em link_only i reel_id))) <= 1
  /\ length (filter is_reaction (snd (turn w update em link_only i reel_id))) <= 1
  /\ attempts_in (snd (turn w update em link_only i reel_id)) <= 3
  /\ sleeps_in (snd (turn w update em link_only i reel_id)) <= 2.
Proof.
  destruct (delivery_counts w update em link_only i reel_id)
    as (Hs & Hr & Ha & Hl).
  rewrite turn_calls. unfold attempts_in, sleeps_in in *.
  rewrite !filter_app, !length_app, Hr.
  destruct (fst (delivery w update em link_only i reel_id));
    cbn [filter is_send is_reaction is_attempt is_sleep fst thumbs_down
         length app];
    repeat split; lia.
Qed.

Lemma turns_counts w update em link_only reel_ids :
  forall i,
    length (filter is_send (snd (turns w update em link_only i reel_ids)))
    <= length reel_ids
    /\ length (filter is_reaction (snd (turns w update em link_only i reel_ids)))
       <= length reel_ids
    /\ attempts_in (snd (turns w update em link_only i reel_ids))
       <= 3 * length reel_ids
    /\ sleeps_in (snd (turns w update em link_only i reel_ids))
       <= 2 * length reel_ids.
Proof.
  induction reel_ids as [| reel_id rest IH]; intros i;
    [cbn; repeat split; lia |].
  destruct (turn_counts w update em link_only i reel_id) as (Hs & Hr & Ha & Hl).
  destruct (IH (S i)) as (Is & Ir & Ia & Il).
  rewrite turns_cons. unfold attempts_in, sleeps_in in *.
  destruct (fst (turn w update em link_only i reel_id)); cbn [snd length];
    rewrite ?filter_app, ?length_app; repeat split; lia.
Qed.

(** X14. The work one update causes is bounded by the identifiers in
    its text: the handler asks to send at most one video and at most one
    reaction per identifier, and makes at most [MAX_RETRIES] lookups and
    two suspensions per identifier. *)
Theorem handle_message_bounded (w : world) (update : Update) (em : Message)
    (body : text) :
  effective_message update = Some em ->
  message_text em = Some body ->
  length (filter is_send (snd (run (handle_message w update))))
  <= length (reel_matches body)
  /\ length (filter is_reaction (snd (run (handle_message w update))))
     <= length (reel_matches body)
  /\ attempts_in (snd (run (handle_message w update)))
     <= 3 * length (reel_matches body)
  /\ sleeps_in (snd (run (handle_message w update)))
     <= 2 * length (reel_matches body).
Proof.
  intros Hem Hb.
  destruct (is_empty body) eqn:He.
  { unfold run, handle_message. rewrite Hem, Hb, He. cbn. repeat split; lia. }
  rewrite (handle_message_run w update Hem Hb He).
  rewrite check_bot_permissions_run, notify_denied_run.
  destruct (turns_counts w update em (is_link_only body) (reel_matches body) 0)
    as (Ts & Tr & Ta & Tl).
  unfold attempts_in, sleeps_in in *.
  destruct (effective_chat update) as [chat |];
    [| cbn; repeat split; lia].
  destruct (ChatType_eqb (chat_type chat) PRIVATE);
    [cbn [truthy app snd]; repeat split; assumption |].
  destruct (on_get_member w) as [e | m];
    [destruct (is_BadRequest e) | destruct (truthy _)];
    cbn [truthy]; try destruct (ChatType_eqb (chat_type chat) CHANNEL);
    cbn [snd app filter is_send is_reaction is_attempt is_sleep fst
         notice_call length];
    repeat split; (assumption || lia).
Qed.

Lemma handle_message_bounded_witness :
  length (filter is_send
            (snd (run (handle_message none_fetched (sent_to_group two_links)))))
  <= length (reel_matches (str two_links))
  /\ length (filter is_reaction
               (snd (run (handle_message none_fetched
                                         (sent_to_group two_links)))))
     <= length (reel_matches (str two_links))
  /\ attempts_in
       (snd (run (handle_message none_fetched (sent_to_group two_links))))
     <= 3 * length (reel_matches (str two_links))
  /\ sleeps_in
       (snd (run (handle_message none_fetched (sent_to_group two_links))))
     <= 2 * length (reel_matches (str two_links)).
Proof.
  apply (@handle_message_bounded none_fetched (sent_to_group two_links)
           (message_with two_links group_chat (Some 5%Z)) (str two_links)).
  - reflexivity.
  - reflexivity.
Defined.

Lemma fetch_calls_silent p shortcode :
  filter is_media (fetch_calls p shortcode) = []
  /\ filter is_reacted (fetch_calls p shortcode) = []
  /\ filter is_reaction (fetch_calls p shortcode) = [].
Proof.
  pose proof (fetch_calls_inert p shortcode) as I.
  conj_split; (apply inert_filter; [| exact I]); now intros [[] []].
Qed.

(** A turn that returns has sent the video or has set the reaction. *)
Lemma turn_answers w update em link_only i reel_id :
  fst (turn w update em link_only i reel_id) = Return tt ->
  1 <= length (filter is_media (snd (turn w update em link_only i reel_id)))
       + length (filter is_reacted (snd (turn w update em link_only i reel_id))).
Proof.
  rewrite turn_calls. unfold turn.
  destruct (delivery w update em link_only i reel_id) as [[[] | e |] calls] eqn:D;
    cbn [fst snd].
  - (* the body returned: the video went through *)
    intros _. rewrite app_nil_r. clear - D. revert D. unfold delivery.
    destruct (fetch_calls_silent (on_fetch w i) reel_id) as (Fm & _).
    destruct (message update) as [m |]; [| discriminate].
    destruct (on_chat_action_before w i); [discriminate |].
    destruct (fetch_result (on_fetch w i) reel_id); try discriminate.
    destruct (on_chat_action_after w i); [discriminate |].
    destruct link_only.
    + destruct (on_send_video w i), (on_delete w i); try discriminate.
      intros H. injection H as _ <-.
      cbn [filter is_media is_reacted upload_signal].
      rewrite !filter_app, !length_app.
      cbn [filter is_media is_reacted length]. lia.
    + destruct (on_reply_video w i); try discriminate.
      intros H. injection H as _ <-.
      cbn [filter is_media is_reacted upload_signal].
      rewrite !filter_app, !length_app.
      cbn [filter is_media is_reacted length]. lia.
  - destruct (on_set_reaction w i); [discriminate |]. intros _.
    rewrite !filter_app, !length_app.
    cbn [returned filter is_media is_reacted thumbs_down length]. lia.
  - discriminate.
Qed.

Lemma turns_answer w update em link_only reel_ids :
  forall i,
    fst (turns w update em link_only i reel_ids) = Return tt ->
    length reel_ids
    <= length (filter is_media (snd (turns w update em link_only i reel_ids)))
       + length (filter is_reacted
                   (snd (turns w update em link_only i reel_ids))).
Proof.
  induction reel_ids as [| reel_id rest IH]; intros i; [cbn; lia |].
  rewrite turns_cons.
  pose proof (@turn_answers w update em link_only i reel_id) as T.
  destruct (fst (turn w update em link_only i reel_id)) as [[] | e |] eqn:E.
  - cbn [fst snd]. intros H. specialize (IH (S i) H). specialize (T eq_refl).
    rewrite !filter_app, !length_app. cbn [length]. lia.
  - rewrite E. discriminate.
  - rewrite E. discriminate.
Qed.

(** X16. No link is passed over in silence: when the gate allows and
    the handler returns, every identifier extracted from the text has
    got its video through or a thumbs-down reaction that went through
    (the videos sent and the reactions set are together at least as many
    as the identifiers). *)
Theorem handle_message_answers (w : world) (update : Update) (em : Message)
    (body : text) (allowed : option bool) (gate_calls : list event) :
  effective_message update = Some em ->
  message_text em = Some body ->
  run (check_bot_permissions w update) = (Return allowed, gate_calls) ->
  truthy allowed = true ->
  fst (run (handle_message w update)) = Return tt ->
  length (reel_matches body)
  <= length (filter is_media (snd (run (handle_message w update))))
     + length (filter is_reacted (snd (run (handle_message w update)))).
Proof.
  intros Hem Hb Hg Ha.
  destruct (is_empty body) eqn:He.
  { destruct body; [| discriminate He]. intros _.
    rewrite reel_matches_nil. cbn [length]. lia. }
  rewrite (handle_message_granted w update Hem Hb He Hg Ha). cbn [fst snd].
  intros H. apply turns_answer in H.
  rewrite !filter_app, !length_app. unfold event in *. lia.
Qed.

Lemma handle_message_answers_witness :
  length (reel_matches (str two_links))
  <= length (filter is_media
               (snd (run (handle_message none_fetched
                                         (sent_to_group two_links)))))
     + length (filter is_reacted
                 (snd (run (handle_message none_fetched
                                           (sent_to_group two_links))))).
Proof.
  apply (@handle_message_answers none_fetched (sent_to_group two_links)
           (message_with two_links group_chat (Some 5%Z)) (str two_links)
           (Some true) [(get_member 7, true)]).
  - reflexivity.
  - reflexivity.
  - vm_compute. reflexivity.
  - reflexivity.
  - vm_compute. reflexivity.
Defined.

(** A turn in which every call returns: the video goes through and no
    reaction is asked for. *)
Lemma turn_all_return w update m em link_only i reel_id sender :
  message update = Some m ->
  from_user em = Some sender ->
  all_return w i reel_id ->
  fst (turn w update em link_only i reel_id) = Return tt
  /\ filter is_reaction (snd (turn w update em link_only i reel_id)) = []
  /\ length (filter is_media (snd (turn w update em link_only i reel_id))) = 1.
Proof.
  intros Hm Hs (H1 & (video_path & H2) & H3 & H4 & H5 & H6).
  destruct (fetch_calls_silent (on_fetch w i) reel_id) as (Fm & _ & Fr).
  unfold turn, delivery. rewrite Hm, H1, H2, H3, Hs.
  destruct link_only; [rewrite H4, H5 | rewrite H6]; cbn [fst snd];
    (split; [reflexivity |]);
    rewrite !filter_app;
    cbn [filter is_media is_reaction upload_signal fst];
    unfold event in *; rewrite ?length_app, Fm, Fr;
    now cbn.
Qed.

Lemma turns_all_return w update m em link_only sender reel_ids :
  message update = Some m ->
  from_user em = Some sender ->
  forall i,
    (forall j reel_id, nth_error reel_ids j = Some reel_id ->
                       all_return w (i + j) reel_id) ->
    fst (turns w update em link_only i reel_ids) = Return tt
    /\ filter is_reaction (snd (turns w update em link_only i reel_ids)) = []
    /\ length (filter is_media (snd (turns w update em link_only i reel_ids)))
       = length reel_ids.
Proof.
  intros Hm Hs.
  induction reel_ids as [| reel_id rest IH]; intros i H; [now cbn |].
  assert (H0 : all_return w i reel_id).
  { specialize (H 0 reel_id eq_refl). now rewrite Nat.add_0_r in H. }
  destruct (@turn_all_return w update m em link_only i reel_id sender Hm Hs H0)
    as (T1 & T2 & T3).
  destruct (IH (S i)) as (I1 & I2 & I3).
  { intros j id Hj. specialize (H (S j) id Hj).
    now rewrite Nat.add_succ_r in H. }
  rewrite turns_cons, T1. cbn [fst snd].
  rewrite !filter_app, length_app, T2, T3, I2, I3.
  now conj_split.
Qed.

(** X17. When nothing fails, every link is served once and none gets
    a thumbs-down: for a message with a sender that passed the gate, if
    for every extracted identifier the signals, the fetch and the
    delivery calls return, the handler returns, asks for no reaction at
    all, and the videos that went through are exactly as many as the
    identifiers. *)
Theorem handle_message_all_return (w : world) (update : Update) (m : Message)
    (body : text) (sender : Z) (allowed : option bool)
    (gate_calls : list event) :
  message update = Some m ->
  message_text m = Some body ->
  from_user m = Some sender ->
  run (check_bot_permissions w update) = (Return allowed, gate_calls) ->
  truthy allowed = true ->
  (forall i reel_id, nth_error (reel_matches body) i = Some reel_id ->
                     all_return w i reel_id) ->
  fst (run (handle_message w update)) = Return tt
  /\ filter is_reaction (snd (run (handle_message w update))) = []
  /\ length (filter is_media (snd (run (handle_message w update))))
     = length (reel_matches body).
Proof.
  intros Hm Hb Hs Hg Ha H.
  assert (Hem : effective_message update = Some m)
    by (unfold effective_message; now rewrite Hm).
  assert (G : filter is_reaction gate_calls = []
              /\ filter is_media gate_calls = []).
  { pose proof (check_bot_permissions_run w update) as R. rewrite Hg in R.
    destruct (effective_chat update) as [chat |];
      [| injection R as _ ->; now split].
    destruct (ChatType_eqb (chat_type chat) PRIVATE);
      [injection R as _ ->; now split |].
    destruct (on_get_member w); injection R as _ ->; now split. }
  destruct G as [Gr Gm].
  destruct (is_empty body) eqn:He.
  { destruct body; [| discriminate He].
    unfold run, handle_message. rewrite Hem, Hb. now cbn. }
  rewrite (handle_message_granted w update Hem Hb He Hg Ha). cbn [fst snd].
  destruct (@turns_all_return w update m m (is_link_only body) sender
              (reel_matches body) Hm Hs 0 H) as (T1 & T2 & T3).
  rewrite !filter_app, length_app, Gr, Gm, T2, T3. now conj_split.
Qed.

Lemma handle_message_all_return_witness :
  fst (run (handle_message all_fetched (sent_to_group two_links))) = Return tt
  /\ filter is_reaction
       (snd (run (handle_message all_fetched (sent_to_group two_links)))) = []
  /\ length (filter is_media
               (snd (run (handle_message all_fetched
                                         (sent_to_group two_links)))))
     = length (reel_matches (str two_links)).
Proof.
  apply (@handle_message_all_return all_fetched (sent_to_group two_links)
           (message_with two_links group_chat (Some 5%Z)) (str two_links)
           5%Z (Some true) [(get_member 7, true)]).
  - reflexivity.
  - reflexivity.
  - reflexivity.
  - vm_compute. reflexivity.
  - reflexivity.
  - intros i reel_id _. unfold all_return. conj_split; try reflexivity.
    eexists. vm_compute. reflexivity.
Defined.

(* ================================================================= *)
(** ** The cleanup at start *)




